(** * Reactive cascade resolution of react-native-css-interop

    A shallow embedding of the signal graph ([createSignal],
    [createComputation]), of the component context
    ([createCSSVariableSignal], [createComponentContext]) and of the style
    flattener ([flattenStyle], [extractAndDefineProperty], [extractValue]),
    followed by the properties established about them.

    The flattener and the signal graph are read from
    [runtime/native/variables.ts] (the flattener from line 29, the signals
    from line 907), the component context from
    [runtime/css-interop.native.ts] (from line 195). *)

From Stdlib Require Import List ZArith Bool Lia Ascii String QArith Qround DecimalString Lqa.
Import ListNotations.
Close Scope Q_scope.

Set Implicit Arguments.
Set Warnings "-register-all".

(** ** A state monad with failure

    A run either finishes with a result and a new state, raises a
    [TypeError], or does not finish within its recursion budget. *)

Inductive outcome (S A : Type) : Type :=
| Done (a : A) (st : S)
| Throws
| Timeout.

Arguments Done {S A} a st.
Arguments Throws {S A}.
Arguments Timeout {S A}.

Definition SM (S A : Type) : Type := S -> outcome S A.

Definition ret {S A : Type} (a : A) : SM S A := fun st => Done a st.

Definition bind {S A B : Type} (m : SM S A) (k : A -> SM S B) : SM S B :=
  fun st => match m st with
            | Done a st' => k a st'
            | Throws => Throws
            | Timeout => Timeout
            end.

Definition throw {S A : Type} : SM S A := fun _ => Throws.

Definition timeout {S A : Type} : SM S A := fun _ => Timeout.

Definition modify {S : Type} (f : S -> S) : SM S unit := fun st => Done tt (f st).

Definition gets {S A : Type} (f : S -> A) : SM S A := fun st => Done (f st) st.

(** Reading through a reference that may be [undefined]. *)
Definition lift_option {S A : Type} (o : option A) : SM S A :=
  match o with Some a => ret a | None => throw end.

Declare Scope sm_scope.
Delimit Scope sm_scope with sm.
Notation "x <- m ;; k" := (bind m (fun x => k))
  (at level 61, m at next level, right associativity) : sm_scope.
Notation "m ;;; k" := (bind m (fun _ => k))
  (at level 61, right associativity) : sm_scope.
Open Scope sm_scope.

(** ** JavaScript [Set]

    A [Set] keeps its entries in insertion order.  [delete] leaves a hole in
    place of the entry and [add] appends, so that a [for ... of] loop, which
    walks the entries by position, also visits what is added while it runs:
    an entry deleted and added again during the loop is visited a second
    time. *)

Module JSSet.
Definition t (A : Type) : Type := list (option A).

Section Ops.
Context {A : Type} (eqb : A -> A -> bool).

Definition has (x : A) (s : t A) : bool :=
  existsb (fun o => match o with Some y => eqb x y | None => false end) s.

Definition add (x : A) (s : t A) : t A :=
  if has x s then s else s ++ [Some x].

Definition delete (x : A) (s : t A) : t A :=
  map (fun o => match o with
                | Some y => if eqb x y then None else Some y
                | None => None
                end) s.

Definition clear (s : t A) : t A := map (fun _ => None) s.

Definition elements (s : t A) : list A :=
  flat_map (fun o => match o with Some y => [y] | None => [] end) s.
End Ops.
End JSSet.

(** [Signal.subscriptions] holds computations and plain callbacks. *)
Inductive subscriber : Type :=
| Observer (c : nat)
| Callback (f : nat).

Definition subscriber_eqb (a b : subscriber) : bool :=
  match a, b with
  | Observer c, Observer d => Nat.eqb c d
  | Callback f, Callback g => Nat.eqb f g
  | _, _ => false
  end.

(** What a cell's value type must provide: the [undefined] a computation
    starts from and the comparison [Object.is] of [set]. *)
Class JSValue (V : Type) : Type := {
  undefined : V;
  Object_is : V -> V -> bool
}.

Fixpoint list_update {A : Type} (i : nat) (f : A -> A) (l : list A) : list A :=
  match l, i with
  | [], _ => []
  | x :: l', O => f x :: l'
  | x :: l', S i' => x :: list_update i' f l'
  end.

(** ** The signal graph *)

Section Signals.
Context {V : Type} `{JSValue V}.

(** A tracked function [fn]: what it returns, given what the cells it
    reads hold. *)
Inductive tracked : Type :=
| Return (v : V)
| Get (s : nat) (k : V -> tracked)
| Snapshot (s : nat) (k : V -> tracked).

Record Computation : Type := mkComputation {
  fn : tracked;
  waiting : Z;
  fresh : bool;
  dependencies : JSSet.t nat
}.

(** A cell: the closure variables [value] and [subscriptions] of
    [createSignal], and the fields [createComputation] adds to them.  A
    member of [dependencies] is the [subscriptions] set of a cell, named
    here by the index of that cell. *)
Record Signal : Type := mkSignal {
  value : V;
  subscriptions : JSSet.t subscriber;
  computation : option Computation
}.

(** The history of a run, newest event first. *)
Inductive event : Type :=
| EvStale (c : nat) (change : Z) (fr : bool)
| EvExecute (c : nat)
| EvRead (running s : nat) (v : V)
| EvNotify (f : nat) (v : V).

(** [context] is the tracking stack, top first; [immediate] the queue of
    [setImmediate], oldest first, each task named by the cell whose [set]
    queued it. *)
Record Store : Type := mkStore {
  cells : list Signal;
  context : list nat;
  immediate : list nat;
  trace : list event
}.

Definition M (A : Type) : Type := SM Store A.

Definition empty_store : Store :=
  {| cells := []; context := []; immediate := []; trace := [] |}.

Definition with_cells (f : list Signal -> list Signal) (st : Store) : Store :=
  {| cells := f (cells st); context := context st;
     immediate := immediate st; trace := trace st |}.

Definition with_context (f : list nat -> list nat) (st : Store) : Store :=
  {| cells := cells st; context := f (context st);
     immediate := immediate st; trace := trace st |}.

Definition with_immediate (f : list nat -> list nat) (st : Store) : Store :=
  {| cells := cells st; context := context st;
     immediate := f (immediate st); trace := trace st |}.

Definition emit (e : event) (st : Store) : Store :=
  {| cells := cells st; context := context st;
     immediate := immediate st; trace := e :: trace st |}.

Definition with_value (v : V) (c : Signal) : Signal :=
  {| value := v; subscriptions := subscriptions c; computation := computation c |}.

Definition with_subscriptions (f : JSSet.t subscriber -> JSSet.t subscriber)
    (c : Signal) : Signal :=
  {| value := value c; subscriptions := f (subscriptions c);
     computation := computation c |}.

Definition with_computation (f : Computation -> Computation) (c : Signal) : Signal :=
  {| value := value c; subscriptions := subscriptions c;
     computation := option_map f (computation c) |}.

Definition with_waiting (w : Z) (k : Computation) : Computation :=
  {| fn := fn k; waiting := w; fresh := fresh k; dependencies := dependencies k |}.

Definition with_fresh (b : bool) (k : Computation) : Computation :=
  {| fn := fn k; waiting := waiting k; fresh := b; dependencies := dependencies k |}.

Definition with_dependencies (f : JSSet.t nat -> JSSet.t nat) (k : Computation)
    : Computation :=
  {| fn := fn k; waiting := waiting k; fresh := fresh k;
     dependencies := f (dependencies k) |}.

Definition update_cell (i : nat) (f : Signal -> Signal) : Store -> Store :=
  with_cells (list_update i f).

Definition cell (s : nat) : M Signal :=
  fun st => lift_option (nth_error (cells st) s) st.

Definition the_computation (c : nat) : M Computation :=
  k <- cell c ;; lift_option (computation k).

(** [createSignal(value)] *)
Definition createSignal (v : V) : M nat :=
  fun st =>
    Done (List.length (cells st))
         (with_cells (fun l => l ++ [{| value := v; subscriptions := [];
                                        computation := None |}]) st).

(** [get]: the computation on top of the tracking stack, if there is one,
    is subscribed, in both directions. *)
Definition get (s : nat) : M V :=
  k <- cell s ;;
  stack <- gets context ;;
  match stack with
  | [] => ret (value k)
  | running :: _ =>
      the_computation running ;;;
      modify (update_cell s (with_subscriptions
                (JSSet.add subscriber_eqb (Observer running)))) ;;;
      modify (update_cell running (with_computation
                (with_dependencies (JSSet.add Nat.eqb s)))) ;;;
      modify (emit (EvRead running s (value k))) ;;;
      ret (value k)
  end.

Definition snapshot (s : nat) : M V :=
  k <- cell s ;; ret (value k).

(** [subscribe(callback)]; the function it returns is [unsubscribe] at
    the same callback. *)
Definition subscribe (s : nat) (f : nat) : M unit :=
  cell s ;;;
  modify (update_cell s (with_subscriptions
            (JSSet.add subscriber_eqb (Callback f)))).

Definition unsubscribe (s : nat) (x : subscriber) : M unit :=
  cell s ;;;
  modify (update_cell s (with_subscriptions (JSSet.delete subscriber_eqb x))).

(** The [cleanup] method of a signal: [subscriptions.clear()]. *)
Definition Signal_cleanup (s : nat) : M unit :=
  cell s ;;;
  modify (update_cell s (with_subscriptions (@JSSet.clear subscriber))).

(** [cleanup(running)] *)
Definition cleanup (running : nat) : M unit :=
  k <- the_computation running ;;
  modify (fun st =>
    fold_left (fun st' dep =>
                 update_cell dep (with_subscriptions
                   (JSSet.delete subscriber_eqb (Observer running))) st')
              (JSSet.elements (dependencies k)) st) ;;;
  modify (update_cell running (with_computation
            (with_dependencies (@JSSet.clear nat)))).

(** Running a tracked function. *)
Fixpoint run (p : tracked) : M V :=
  match p with
  | Return v => ret v
  | Get s k => v <- get s ;; run (k v)
  | Snapshot s k => v <- snapshot s ;; run (k v)
  end.

(** [stale], [set] of a signal and [stale], [execute] of a computation
    call each other; [fuel] bounds the depth of the calls.  [stale_from]
    is the loop of the signal's [stale], from position [i] of
    [subscriptions] on. *)
Fixpoint stale_from (fuel : nat) (s i : nat) (change : Z) (fr : bool)
    {struct fuel} : M unit :=
  match fuel with
  | O => timeout
  | S fuel' =>
      k <- cell s ;;
      match nth_error (subscriptions k) i with
      | None => ret tt
      | Some (Some (Observer c)) =>
          Computation_stale fuel' c change fr ;;;
          stale_from fuel' s (S i) change fr
      | Some _ => stale_from fuel' s (S i) change fr
      end
  end

with Computation_stale (fuel : nat) (c : nat) (change : Z) (fr : bool)
    {struct fuel} : M unit :=
  match fuel with
  | O => timeout
  | S fuel' =>
      modify (emit (EvStale c change fr)) ;;;
      k <- the_computation c ;;
      if (waiting k =? 0)%Z && (change <? 0)%Z then ret tt
      else
        (if (waiting k =? 0)%Z && (0 <? change)%Z
         then stale_from fuel' c 0 1%Z false else ret tt) ;;;
        k1 <- the_computation c ;;
        modify (update_cell c (with_computation
                  (with_waiting (waiting k1 + change)%Z))) ;;;
        k2 <- the_computation c ;;
        modify (update_cell c (with_computation
                  (with_fresh (fresh k2 || fr)))) ;;;
        k3 <- the_computation c ;;
        if (waiting k3 =? 0)%Z then
          modify (update_cell c (with_computation (with_waiting 0%Z))) ;;;
          (if fresh k3 then execute fuel' c else ret tt) ;;;
          stale_from fuel' c 0 (-1)%Z false
        else ret tt
  end

with execute (fuel : nat) (c : nat) {struct fuel} : M unit :=
  match fuel with
  | O => timeout
  | S fuel' =>
      modify (emit (EvExecute c)) ;;;
      cleanup c ;;;
      modify (with_context (cons c)) ;;;
      modify (update_cell c (with_computation (with_waiting 0%Z))) ;;;
      modify (update_cell c (with_computation (with_fresh false))) ;;;
      k <- the_computation c ;;
      v <- run (fn k) ;;
      set fuel' c v ;;;
      modify (with_context (@tl nat))
  end

with set (fuel : nat) (s : nat) (nextValue : V) {struct fuel} : M unit :=
  match fuel with
  | O => timeout
  | S fuel' =>
      k <- cell s ;;
      if Object_is (value k) nextValue then ret tt
      else
        modify (update_cell s (with_value nextValue)) ;;;
        stale_from fuel' s 0 1%Z true ;;;
        stale_from fuel' s 0 (-1)%Z true ;;;
        modify (with_immediate (fun q => q ++ [s]))
  end.

(** The [stale] method of a signal. *)
Definition stale (fuel : nat) (s : nat) (change : Z) (fr : bool) : M unit :=
  stale_from fuel s 0 change fr.

(** [createComputation(fn)] *)
Definition createComputation (fuel : nat) (f : tracked) : M nat :=
  c <- createSignal undefined ;;
  modify (update_cell c (fun k =>
    {| value := value k; subscriptions := subscriptions k;
       computation := Some {| fn := f; waiting := 0%Z; fresh := false;
                              dependencies := [] |} |})) ;;;
  execute fuel c ;;;
  ret c.

(** A task of [setImmediate]: every plain callback subscribed to the cell
    is called with the value the cell holds by then. *)
Definition notify (s : nat) : M unit :=
  k <- cell s ;;
  modify (fun st =>
    fold_left (fun st' x => match x with
                            | Callback f => emit (EvNotify f (value k)) st'
                            | Observer _ => st'
                            end)
              (JSSet.elements (subscriptions k)) st).

(** The queued tasks run once the current synchronous task is over. *)
Fixpoint run_tasks (q : list nat) : M unit :=
  match q with
  | [] => ret tt
  | s :: q' => notify s ;;; run_tasks q'
  end.

Definition run_immediate : M unit :=
  q <- gets immediate ;;
  modify (with_immediate (fun _ => [])) ;;;
  run_tasks q.

End Signals.

Arguments tracked V : clear implicits.
Arguments Signal V : clear implicits.
Arguments Computation V : clear implicits.
Arguments Store V : clear implicits.
Arguments event V : clear implicits.

(** ** Values

    What a cell, a style declaration or a variable may hold.  Numbers are
    exact rationals, [JNaN] standing for the result of arithmetic on what is
    not a number; [JRuntime] is the record
    [{ type: "runtime", name, arguments }] of [types.ts]. *)

Inductive jsval : Type :=
| JUndefined
| JBool (b : bool)
| JNum (q : Q)
| JNaN
| JStr (s : string)
| JRuntime (name : string) (arguments : list jsval)
| JArr (elements : list jsval)
| JObj (entries : list (string * jsval)).

(** [Object.is] on these values.  The model has no object identity: two
    records or arrays are taken to be two allocations. *)
Definition SameValue (a b : jsval) : bool :=
  match a, b with
  | JUndefined, JUndefined => true
  | JBool x, JBool y => Bool.eqb x y
  | JNum x, JNum y => Qeq_bool x y
  | JNaN, JNaN => true
  | JStr x, JStr y => String.eqb x y
  | _, _ => false
  end.

#[export] Instance jsval_JSValue : JSValue jsval :=
  {| undefined := JUndefined; Object_is := SameValue |}.

Definition truthy (v : jsval) : bool :=
  match v with
  | JUndefined | JNaN => false
  | JBool b => b
  | JNum q => negb (Qeq_bool q 0)
  | JStr s => negb (String.eqb s "")
  | JRuntime _ _ | JArr _ | JObj _ => true
  end.

(** [a ?? b] asks whether [a] is [undefined]. *)
Definition nullish (v : jsval) : bool :=
  match v with JUndefined => true | _ => false end.

(** Arithmetic, as the source types its operands ([as number]); an
    operand that is not a number gives [NaN]. *)
Definition js_mul (a b : jsval) : jsval :=
  match a, b with
  | JNum x, JNum y => JNum (Qred (x * y))
  | _, _ => JNaN
  end.

Definition js_div100 (a : jsval) : jsval :=
  match a with
  | JNum x => JNum (Qred (x / 100))
  | _ => JNaN
  end.

Definition EPSILON : Q := 1 # (2 ^ 52).

(** [Math.round]: the nearest integer, a tie going up. *)
Definition Math_round (q : Q) : Q := inject_Z (Qfloor (q + (1 # 2))).

(** [round(number)] *)
Definition round (number : jsval) : jsval :=
  match number with
  | JNum q => JNum (Qred (Math_round ((q + EPSILON) * 100) / 100))
  | _ => JNaN
  end.

(** Plain objects: own enumerable properties in insertion order. *)
Module JSObject.
Definition t (A : Type) : Type := list (string * A).

Section Ops.
Context {A : Type}.

Fixpoint lookup (key : string) (o : t A) : option A :=
  match o with
  | [] => None
  | (k, v) :: o' => if String.eqb key k then Some v else lookup key o'
  end.

Definition has (key : string) (o : t A) : bool :=
  match lookup key o with Some _ => true | None => false end.

(** [o[key] = v], also the effect of [Object.defineProperty] on the
    property of that name. *)
Fixpoint assign (key : string) (v : A) (o : t A) : t A :=
  match o with
  | [] => [(key, v)]
  | (k, w) :: o' =>
      if String.eqb key k then (k, v) :: o' else (k, w) :: assign key v o'
  end.

(** [{ ...a, ...b }] *)
Definition spread (a b : t A) : t A :=
  fold_left (fun o kv => assign (fst kv) (snd kv) o) b a.
End Ops.
End JSObject.

(** What the host provides: the conversions between numbers and strings
    of the language and the modules of react-native the resolver calls. *)
Class Platform : Type := {
  number_toString : Q -> string;
  parseFloat : string -> jsval;
  hairlineWidth : Q;
  Platform_select : jsval -> jsval;
  PixelRatio_get : Q;
  PixelRatio_getFontScale : Q;
  PixelRatio_getPixelSizeForLayoutSize : jsval -> jsval;
  PixelRatio_roundToNearestPixel : jsval -> jsval;
  PlatformColor : list jsval -> jsval
}.

(** ** The component context *)

Record ColorSchemeSignal : Type := {
  light : nat;
  dark : nat
}.

(** The object [createCSSVariableSignal] returns: its own cell and the two
    signals it falls back to, captured when it is created. *)
Inductive CSSVariableSignal : Type := mkCSSVariableSignal {
  signal : nat;
  defaultSignal : ColorSchemeSignal;
  parentSignal : option CSSVariableSignal
}.

Record ContainerRuntime : Type := {
  container_type : string;
  container_interaction : nat
}.

(** A component context; [inherited] is the context it was created from,
    [None] for the plain [{ variables: {}, containers: {} }]. *)
Record ComponentContext : Type := {
  containers : JSObject.t ContainerRuntime;
  variables : JSObject.t CSSVariableSignal;
  interaction : JSObject.t nat;
  inherited : option nat
}.

Record World : Type := {
  store : Store jsval;
  defaultVariables : JSObject.t ColorSchemeSignal;
  components : list ComponentContext
}.

Definition W (A : Type) : Type := SM World A.

Definition with_store (f : Store jsval -> Store jsval) (w : World) : World :=
  {| store := f (store w); defaultVariables := defaultVariables w;
     components := components w |}.

Definition with_defaultVariables
    (f : JSObject.t ColorSchemeSignal -> JSObject.t ColorSchemeSignal)
    (w : World) : World :=
  {| store := store w; defaultVariables := f (defaultVariables w);
     components := components w |}.

Definition with_components (f : list ComponentContext -> list ComponentContext)
    (w : World) : World :=
  {| store := store w; defaultVariables := defaultVariables w;
     components := f (components w) |}.

(** A step of the signal graph, taken in the world. *)
Definition on_store {A : Type} (m : M A) : W A :=
  fun w => match m (store w) with
           | Done a st => Done a (with_store (fun _ => st) w)
           | Throws => Throws
           | Timeout => Timeout
           end.

(** Modelled from the spec: the ambient environment signals (color
    scheme, viewport width and height, root font size) are process-wide
    cells; their modules are not part of the sources at hand. *)
Definition colorScheme : nat := 0.
Definition vw : nat := 1.
Definition vh : nat := 2.
Definition rem : nat := 3.

Definition ambient (scheme : string) (width height fontSize : Q) : World :=
  {| store := {| cells := map (fun v => {| value := v; subscriptions := [];
                                           computation := None |})
                              [JStr scheme; JNum width; JNum height; JNum fontSize];
                 context := []; immediate := []; trace := [] |};
     defaultVariables := [];
     components := [] |}.

(** [createColorSchemeSignal(lightValue, darkValue = lightValue)] *)
Definition createColorSchemeSignal (lightValue : jsval) : W ColorSchemeSignal :=
  l <- on_store (createSignal lightValue) ;;
  d <- on_store (createSignal lightValue) ;;
  ret {| light := l; dark := d |}.

Definition is_light (v : jsval) : bool :=
  match v with JStr s => String.eqb s "light" | _ => false end.

Definition ColorSchemeSignal_get (c : ColorSchemeSignal) : W jsval :=
  scheme <- on_store (get colorScheme) ;;
  if is_light scheme then on_store (get (light c)) else on_store (get (dark c)).

Definition ColorSchemeSignal_set (fuel : nat) (c : ColorSchemeSignal)
    (nextValue : jsval) : W unit :=
  scheme <- on_store (get colorScheme) ;;
  if is_light scheme then on_store (set fuel (light c) nextValue)
  else on_store (set fuel (dark c) nextValue).

Definition ColorSchemeSignal_unsubscribe (c : ColorSchemeSignal) (x : subscriber)
    : W unit :=
  on_store (unsubscribe (light c) x) ;;;
  on_store (unsubscribe (dark c) x).

(** The [get] trap of [defaultVariables]. *)
Definition defaultVariables_get (prop : string) : W ColorSchemeSignal :=
  target <- gets defaultVariables ;;
  match JSObject.lookup prop target with
  | Some c => ret c
  | None =>
      c <- createColorSchemeSignal JUndefined ;;
      modify (with_defaultVariables (JSObject.assign prop c)) ;;;
      ret c
  end.

Definition component (ctx : nat) : W ComponentContext :=
  fun w => lift_option (nth_error (components w) ctx) w.

Definition update_component (ctx : nat) (f : ComponentContext -> ComponentContext)
    : W unit :=
  modify (with_components (list_update ctx f)).

Definition with_variables (f : JSObject.t CSSVariableSignal -> JSObject.t CSSVariableSignal)
    (c : ComponentContext) : ComponentContext :=
  {| containers := containers c; variables := f (variables c);
     interaction := interaction c; inherited := inherited c |}.

Definition with_interaction (f : JSObject.t nat -> JSObject.t nat)
    (c : ComponentContext) : ComponentContext :=
  {| containers := containers c; variables := variables c;
     interaction := f (interaction c); inherited := inherited c |}.

(** [createCSSVariableSignal(key, value, context)], and the [get] trap of
    [createVariableProxy(inheritedContext)] that calls it: asking a context
    for a variable creates its signal, and with it the signal of every
    context above.  [fuel] bounds the height of the chain of contexts. *)
Fixpoint createCSSVariableSignal (fuel : nat) (key : string) (v : jsval)
    (context : option nat) {struct fuel} : W CSSVariableSignal :=
  match fuel with
  | O => timeout
  | S fuel' =>
      s <- on_store (createSignal v) ;;
      d <- defaultVariables_get key ;;
      p <- match context with
           | None => ret None
           | Some parent =>
               c <- component parent ;;
               match JSObject.lookup key (variables c) with
               | Some x => ret (Some x)
               | None =>
                   x <- createCSSVariableSignal fuel' key JUndefined (inherited c) ;;
                   update_component parent (with_variables (JSObject.assign key x)) ;;;
                   ret (Some x)
               end
           end ;;
      ret {| signal := s; defaultSignal := d; parentSignal := p |}
  end.

Definition variables_get (fuel : nat) (ctx : nat) (prop : string)
    : W CSSVariableSignal :=
  c <- component ctx ;;
  match JSObject.lookup prop (variables c) with
  | Some x => ret x
  | None =>
      x <- createCSSVariableSignal fuel prop JUndefined (inherited c) ;;
      update_component ctx (with_variables (JSObject.assign prop x)) ;;;
      ret x
  end.

(** [signal.get() ?? defaultSignal.get() ?? parentSignal?.get()] *)
Fixpoint CSSVariableSignal_get (x : CSSVariableSignal) : W jsval :=
  a <- on_store (get (signal x)) ;;
  if nullish a then
    b <- ColorSchemeSignal_get (defaultSignal x) ;;
    if nullish b then
      match parentSignal x with
      | Some p => CSSVariableSignal_get p
      | None => ret JUndefined
      end
    else ret b
  else ret a.

(** The [cleanup] of a variable signal: whoever subscribed to it is
    unsubscribed from the default signal and from the parent's cell. *)
Definition CSSVariableSignal_cleanup (x : CSSVariableSignal) : W unit :=
  k <- on_store (cell (signal x)) ;;
  (fix loop (l : list subscriber) : W unit :=
     match l with
     | [] => ret tt
     | subscription :: l' =>
         ColorSchemeSignal_unsubscribe (defaultSignal x) subscription ;;;
         p <- lift_option (parentSignal x) ;;
         on_store (unsubscribe (signal p) subscription) ;;;
         loop l'
     end) (JSSet.elements (subscriptions k)).

Definition CSSVariableSignal_set (fuel : nat) (x : CSSVariableSignal)
    (nextValue : jsval) : W unit :=
  (if nullish nextValue then ret tt else CSSVariableSignal_cleanup x) ;;;
  on_store (set fuel (signal x) nextValue).

(** The [get] trap of [createInteractionProxy()]. *)
Definition interaction_get (ctx : nat) (prop : string) : W nat :=
  c <- component ctx ;;
  match JSObject.lookup prop (interaction c) with
  | Some s => ret s
  | None =>
      s <- on_store (createSignal
             (if String.eqb prop "layoutHeight" || String.eqb prop "layoutWidth"
              then JNum 0 else JBool false)) ;;
      update_component ctx (with_interaction (JSObject.assign prop s)) ;;;
      ret s
  end.

(** [createComponentContext(inheritedContext)] *)
Definition createComponentContext (inheritedContext : option nat) : W nat :=
  fun w =>
    Done (List.length (components w))
         (with_components (fun l => l ++ [{| containers := []; variables := [];
                                             interaction := [];
                                             inherited := inheritedContext |}]) w).

(** The [cleanup] method of a component context. *)
Definition ComponentContext_cleanup (ctx : nat) : W unit :=
  c <- component ctx ;;
  (fix loop (l : list (string * CSSVariableSignal)) : W unit :=
     match l with
     | [] => ret tt
     | (_, variable) :: l' => CSSVariableSignal_cleanup variable ;;; loop l'
     end) (variables c).

(** The [onLayout] handler of [useStyledProps]. *)
Definition onLayout (fuel : nat) (ctx : nat) (width height : Q) : W unit :=
  w <- interaction_get ctx "layoutWidth" ;;
  on_store (set fuel w (JNum width)) ;;;
  h <- interaction_get ctx "layoutHeight" ;;
  on_store (set fuel h (JNum height)).

(** ** The resolver and the flattener *)

Local Open Scope string_scope.

Inductive callback_fn : Type :=
| cb_PlatformColor
| cb_pixelScale
| cb_fontScale
| cb_getPixelSizeForLayoutSize
| cb_rgb.

Record CreateRuntimeFunctionOptions : Type := {
  wrap : bool;
  shouldParseFloat : bool;
  joinArguments : bool;
  spreadCallbackArguments : bool;
  callback : option callback_fn
}.

(** What [extractValue] returns: a value, or one of the closures the
    source builds, represented by what the closure captures.  A closure
    also refers to the accumulator, its metadata, the context and the
    options; those are handed to [invoke] when the closure is called, as
    the closure reads them in the state they have by then. *)
Inductive getterOrValue : Type :=
| Value (v : jsval)
| Getter (g : getter)

with getter : Type :=
| VarGetter (variable : jsval)
| EmGetter (multiplier : jsval)
| ChGetter (multiplier : jsval)
| CwGetter (multiplier : jsval)
| valueFn (name : string) (args : list getterOrValue)
          (o : CreateRuntimeFunctionOptions).

Definition is_function (g : getterOrValue) : bool :=
  match g with Getter _ => true | Value _ => false end.

(** A property of the accumulator: defined with a [get], or holding data,
    which for [transform], [textShadow] and [shadowOffset] is an array or
    an object with properties of its own. *)
Inductive property : Type :=
| Accessor (g : getterOrValue)
| DataValue (v : jsval)
| DataObject (o : list (string * property))
| DataArray (l : list (list (string * property))).

Definition Style : Type := JSObject.t property.

Record PseudoClassesQuery : Type := {
  hover : option bool;
  active : option bool;
  focus : option bool
}.

Inductive Specificity : Type :=
| Inline (inline : Z)
| CSSSpecificity (A B C I S O : Z).

Module ExtractedContainer.
(** [names] is [None] when the field is absent or [false]. *)
Record t : Type := {
  names : option (list string);
  type : option string
}.
End ExtractedContainer.

(** [StyleMeta].  In the record of a style fragment a variable is a value;
    in the record of the accumulator it is a property defined with a
    [get]: [X] is what [variables] holds. *)
Module StyleMeta.
Record t (X : Type) : Type := {
  alreadyProcessed : bool;
  media : option (list jsval);
  variables : option (JSObject.t X);
  pseudoClasses : option PseudoClassesQuery;
  animations : option (JSObject.t jsval);
  container : option ExtractedContainer.t;
  containerQuery : option (list jsval);
  transition : option (JSObject.t jsval);
  requiresLayout : bool;
  specificity : option Specificity
}.

Arguments alreadyProcessed {X} _.
Arguments media {X} _.
Arguments variables {X} _.
Arguments pseudoClasses {X} _.
Arguments animations {X} _.
Arguments container {X} _.
Arguments containerQuery {X} _.
Arguments transition {X} _.
Arguments requiresLayout {X} _.
Arguments specificity {X} _.

Section Updates.
Context {X : Type}.

Definition with_variables (v : option (JSObject.t X)) (m : t X) : t X :=
  {| alreadyProcessed := alreadyProcessed m; media := media m;
     variables := v; pseudoClasses := pseudoClasses m;
     animations := animations m; container := container m;
     containerQuery := containerQuery m; transition := transition m;
     requiresLayout := requiresLayout m; specificity := specificity m |}.

Definition with_pseudoClasses (p : option PseudoClassesQuery) (m : t X) : t X :=
  {| alreadyProcessed := alreadyProcessed m; media := media m;
     variables := variables m; pseudoClasses := p;
     animations := animations m; container := container m;
     containerQuery := containerQuery m; transition := transition m;
     requiresLayout := requiresLayout m; specificity := specificity m |}.

Definition with_animations (a : option (JSObject.t jsval)) (m : t X) : t X :=
  {| alreadyProcessed := alreadyProcessed m; media := media m;
     variables := variables m; pseudoClasses := pseudoClasses m;
     animations := a; container := container m;
     containerQuery := containerQuery m; transition := transition m;
     requiresLayout := requiresLayout m; specificity := specificity m |}.

Definition with_container (c : option ExtractedContainer.t) (m : t X) : t X :=
  {| alreadyProcessed := alreadyProcessed m; media := media m;
     variables := variables m; pseudoClasses := pseudoClasses m;
     animations := animations m; container := c;
     containerQuery := containerQuery m; transition := transition m;
     requiresLayout := requiresLayout m; specificity := specificity m |}.

Definition with_transition (a : option (JSObject.t jsval)) (m : t X) : t X :=
  {| alreadyProcessed := alreadyProcessed m; media := media m;
     variables := variables m; pseudoClasses := pseudoClasses m;
     animations := animations m; container := container m;
     containerQuery := containerQuery m; transition := a;
     requiresLayout := requiresLayout m; specificity := specificity m |}.

Definition with_requiresLayout (b : bool) (m : t X) : t X :=
  {| alreadyProcessed := alreadyProcessed m; media := media m;
     variables := variables m; pseudoClasses := pseudoClasses m;
     animations := animations m; container := container m;
     containerQuery := containerQuery m; transition := transition m;
     requiresLayout := b; specificity := specificity m |}.
End Updates.

(** [{ specificity: { inline: 1 } }] *)
Definition inline {X : Type} (processed : bool) : t X :=
  {| alreadyProcessed := processed; media := None; variables := None;
     pseudoClasses := None; animations := None; container := None;
     containerQuery := None; transition := None; requiresLayout := false;
     specificity := Some (Inline 1) |}.
End StyleMeta.

(** A style object with its entry in [styleMetaMap], and [StyleProp]. *)
Record StyleObject : Type := {
  declarations : JSObject.t jsval;
  styleMeta : option (StyleMeta.t jsval)
}.

Inductive StyleProp : Type :=
| Absent
| Single (style : StyleObject)
| Many (styles : list StyleProp).

(** The accumulator with its entry in [styleMetaMap]. *)
Record Flat : Type := {
  flatStyle : Style;
  flatStyleMeta : option (StyleMeta.t getterOrValue)
}.

Record FlattenStyleOptions : Type := {
  ch : option Q;
  cw : option Q
}.

(** The modules of the repository the flattener calls and that are not
    part of the sources at hand: the three tests of [conditions.ts] and the
    comparison of [specificity.ts]. *)
Class Cascade : Type := {
  testPseudoClasses : nat -> PseudoClassesQuery -> W bool;
  testMediaQuery : jsval -> W bool;
  testContainerQuery :
    option (list jsval) -> JSObject.t ContainerRuntime -> W bool;
  styleSpecificityCompareFn : StyleProp -> StyleProp -> Z
}.

Definition split_on (sep : Ascii.ascii) (s : string) : list string :=
  (fix go (s : string) (acc : string) : list string :=
     match s with
     | EmptyString => [acc]
     | String c s' =>
         if Ascii.eqb c sep then acc :: go s' EmptyString
         else go s' (acc ++ String c EmptyString)%string
     end) s EmptyString.

Definition in_cases (name : string) (cases : list string) : bool :=
  existsb (String.eqb name) cases.

Section Resolver.
Context `{Platform}.

(** [String(v)], with [Array.prototype.join] for an array. *)
Fixpoint ToString (v : jsval) : string :=
  match v with
  | JUndefined => "undefined"
  | JBool true => "true"
  | JBool false => "false"
  | JNum q => number_toString q
  | JNaN => "NaN"
  | JStr s => s
  | JRuntime _ _ | JObj _ => "[object Object]"
  | JArr l =>
      String.concat ","
        (map (fun e => match e with
                       | JUndefined => ""%string
                       | _ => ToString e
                       end) l)
  end.

Definition join (sep : string) (l : list jsval) : string :=
  String.concat sep
    (map (fun e => match e with
                   | JUndefined => ""%string
                   | _ => ToString e
                   end) l).

(** [specifics[key]]: reading a property of [undefined] raises. *)
Definition get_property (specifics : jsval) (key : string) : W jsval :=
  match specifics with
  | JUndefined => throw
  | JObj o => ret (match JSObject.lookup key o with
                   | Some v => v
                   | None => JUndefined
                   end)
  | JArr l =>
      ret (match find (fun iv => String.eqb (number_toString (inject_Z (Z.of_nat (fst iv)))) key)
                      (combine (seq 0 (List.length l)) l) with
           | Some iv => snd iv
           | None => JUndefined
           end)
  | JRuntime name arguments =>
      ret (if String.eqb key "type" then JStr "runtime"
           else if String.eqb key "name" then JStr name
           else if String.eqb key "arguments" then JArr arguments
           else JUndefined)
  | _ => ret JUndefined
  end.

(** [specifics[pixelRatio] ?? specifics["native"] ?? specifics["default"]] *)
Definition select (specifics : jsval) (pixelRatio : Q) : W jsval :=
  a <- get_property specifics (number_toString pixelRatio) ;;
  if nullish a then
    b <- get_property specifics "native" ;;
    if nullish b then get_property specifics "default" else ret b
  else ret a.

(** The callbacks handed to [createRuntimeFunction]. *)
Definition count_commas (s : string) : nat :=
  List.length (split_on ","%char s) - 1.

Definition apply_callback (f : callback_fn) (spread : bool) (result : jsval)
    : W jsval :=
  match f with
  | cb_PlatformColor =>
      match result with
      | JArr l => ret (PlatformColor (if spread then l else [result]))
      | _ => ret (PlatformColor [result])
      end
  | cb_pixelScale => ret (js_mul (JNum PixelRatio_get) result)
  | cb_fontScale => ret (js_mul (JNum PixelRatio_getFontScale) result)
  | cb_getPixelSizeForLayoutSize =>
      ret (PixelRatio_getPixelSizeForLayoutSize result)
  | cb_rgb =>
      match result with
      | JStr s =>
          let inner := substring 4 (String.length s - 5) s in
          if Nat.eqb (count_commas inner) 3
          then ret (JStr ("rgba(" ++ inner ++ ")")%string)
          else ret result
      | _ => throw
      end
  end.

(** The body of [valueFn], once its arguments are resolved. *)
Definition finish (name : string) (o : CreateRuntimeFunctionOptions)
    (resolved : list jsval) : W jsval :=
  let present := filter (fun a => negb (nullish a)) resolved in
  let joined := join ", " present in
  if joinArguments o && String.eqb joined "" then ret JUndefined
  else
    let dollar_args := if joinArguments o then JStr joined else JArr present in
    let result :=
      if wrap o then JStr (name ++ "(" ++ ToString dollar_args ++ ")")%string
      else dollar_args in
    let result :=
      if shouldParseFloat o then
        match parseFloat (ToString result), result with
        | JNum float, JStr r =>
            if String.eqb (number_toString float) r then JNum float else result
        | _, _ => result
        end
      else result in
    match callback o with
    | Some f => apply_callback f (spreadCallbackArguments o) result
    | None => ret result
    end.

Definition options_of (w p j s : bool) (c : option callback_fn)
    : CreateRuntimeFunctionOptions :=
  {| wrap := w; shouldParseFloat := p; joinArguments := j;
     spreadCallbackArguments := s; callback := c |}.

(** [extractValue], [createRuntimeFunction] and the call of a closure
    they return.  [fuel] bounds the depth of the calls: a variable may
    hold an expression that refers to a variable again.

    In the cases [ch] and [cw] the source has a third branch, which takes
    the height or width of [flatStyle] when the context has no layout
    signal.  The interaction proxy creates the signal on first access, so
    that the branch is never taken; it is left out. *)
Fixpoint extractValue (fuel : nat) (value : jsval) (flatStyle : Style)
    (flatStyleMeta : StyleMeta.t getterOrValue) (context : nat)
    (options : FlattenStyleOptions) {struct fuel} : W getterOrValue :=
  match fuel with
  | O => timeout
  | S fuel' =>
    match value with
    | JRuntime name arguments =>
      let argument0 := nth 0 arguments JUndefined in
      let runtime := createRuntimeFunction fuel' name arguments flatStyle
                       flatStyleMeta context options in
      if String.eqb name "var" then
        let name := ToString argument0 in
        declared <-
          match StyleMeta.variables flatStyleMeta with
          | Some vars =>
              match JSObject.lookup name vars with
              | Some (Getter g) =>
                  invoke fuel' g flatStyle flatStyleMeta context options
              | Some (Value v) => ret v
              | None => ret JUndefined
              end
          | None => ret JUndefined
          end ;;
        variable <-
          (if nullish declared then
             x <- variables_get fuel' context name ;;
             CSSVariableSignal_get x
           else
             match declared with
             | JObj o => if JSObject.has "get" o then throw else ret declared
             | _ => ret declared
             end) ;;
        ret (Getter (VarGetter variable))
      else if String.eqb name "vh" then
        v <- on_store (get vh) ;;
        ret (Value (round (js_mul (js_div100 v) argument0)))
      else if String.eqb name "vw" then
        v <- on_store (get vw) ;;
        ret (Value (round (js_mul (js_div100 v) argument0)))
      else if String.eqb name "rem" then
        v <- on_store (get rem) ;;
        ret (Value (round (js_mul v argument0)))
      else if String.eqb name "em" then
        ret (Getter (EmGetter argument0))
      else if String.eqb name "ch" then
        reference <-
          match ch options with
          | Some q => if Qeq_bool q 0 then
                        s <- interaction_get context "layoutHeight" ;;
                        on_store (get s)
                      else ret (JNum q)
          | None => s <- interaction_get context "layoutHeight" ;;
                    on_store (get s)
          end ;;
        if truthy reference then ret (Value (round (js_mul reference argument0)))
        else ret (Getter (ChGetter argument0))
      else if String.eqb name "cw" then
        reference <-
          match cw options with
          | Some q => if Qeq_bool q 0 then
                        s <- interaction_get context "layoutWidth" ;;
                        on_store (get s)
                      else ret (JNum q)
          | None => s <- interaction_get context "layoutWidth" ;;
                    on_store (get s)
          end ;;
        if truthy reference then ret (Value (round (js_mul reference argument0)))
        else ret (Getter (CwGetter argument0))
      else if in_cases name ["perspective"; "translateX"; "translateY";
                             "scaleX"; "scaleY"; "scale"] then
        runtime (options_of false true true false None)
      else if in_cases name ["rotate"; "rotateX"; "rotateY"; "rotateZ";
                             "skewX"; "skewY"] then
        runtime (options_of false false true false None)
      else if String.eqb name "hairlineWidth" then
        ret (Value (JNum hairlineWidth))
      else if String.eqb name "platformSelect" then
        createRuntimeFunction fuel' name [Platform_select argument0] flatStyle
          flatStyleMeta context options (options_of false true true false None)
      else if String.eqb name "fontScaleSelect" then
        match_ <- select argument0 PixelRatio_getFontScale ;;
        if nullish match_ then ret (Value JUndefined)
        else createRuntimeFunction fuel' name [match_] flatStyle flatStyleMeta
               context options (options_of false true true false None)
      else if String.eqb name "pixelScaleSelect" then
        match_ <- select argument0 PixelRatio_get ;;
        if nullish match_ then ret (Value JUndefined)
        else createRuntimeFunction fuel' name [match_] flatStyle flatStyleMeta
               context options (options_of false true true false None)
      else if String.eqb name "platformColor" then
        runtime (options_of false true false true (Some cb_PlatformColor))
      else if String.eqb name "pixelScale" then
        runtime (options_of false true true false (Some cb_pixelScale))
      else if String.eqb name "fontScale" then
        runtime (options_of false true true false (Some cb_fontScale))
      else if String.eqb name "getPixelSizeForLayoutSize" then
        runtime (options_of false true true false
                   (Some cb_getPixelSizeForLayoutSize))
      else if String.eqb name "roundToNearestPixel" then
        createRuntimeFunction fuel' name
          [PixelRatio_roundToNearestPixel argument0] flatStyle flatStyleMeta
          context options (options_of false true true false None)
      else if String.eqb name "rgb" then
        runtime (options_of true true false false (Some cb_rgb))
      else
        runtime (options_of true true true false None)
    | _ => ret (Value value)
    end
  end

with createRuntimeFunction (fuel : nat) (name : string) (arguments : list jsval)
    (flatStyle : Style) (flatStyleMeta : StyleMeta.t getterOrValue)
    (context : nat) (options : FlattenStyleOptions)
    (o : CreateRuntimeFunctionOptions) {struct fuel} : W getterOrValue :=
  match fuel with
  | O => timeout
  | S fuel' =>
      args <-
        (fix each (l : list jsval) : W (list getterOrValue) :=
           match l with
           | [] => ret []
           | argument :: l' =>
               g <- extractValue fuel' argument flatStyle flatStyleMeta
                      context options ;;
               gs <- each l' ;;
               ret (g :: gs)
           end) arguments ;;
      if existsb is_function args
      then ret (Getter (valueFn name args o))
      else
        v <- invoke fuel' (valueFn name args o) flatStyle flatStyleMeta
               context options ;;
        ret (Value v)
  end

with invoke (fuel : nat) (g : getter) (flatStyle : Style)
    (flatStyleMeta : StyleMeta.t getterOrValue) (context : nat)
    (options : FlattenStyleOptions) {struct fuel} : W jsval :=
  match fuel with
  | O => timeout
  | S fuel' =>
    match g with
    | VarGetter variable =>
        resolvedValue <- extractValue fuel' variable flatStyle flatStyleMeta
                           context options ;;
        match resolvedValue with
        | Getter g' => invoke fuel' g' flatStyle flatStyleMeta context options
        | Value v => ret v
        end
    | EmGetter multiplier =>
        match JSObject.lookup "fontSize" flatStyle with
        | None => ret JUndefined
        | Some p =>
            fontSize <-
              match p with
              | Accessor (Getter g') =>
                  invoke fuel' g' flatStyle flatStyleMeta context options
              | Accessor (Value v) => ret v
              | DataValue v => ret v
              | DataObject _ => ret (JObj [])
              | DataArray _ => ret (JArr [])
              end ;;
            ret (round (js_mul (if truthy fontSize then fontSize else JNum 0)
                               multiplier))
        end
    | ChGetter multiplier =>
        s <- interaction_get context "layoutHeight" ;;
        reference <- on_store (get s) ;;
        ret (round (js_mul reference multiplier))
    | CwGetter multiplier =>
        s <- interaction_get context "layoutWidth" ;;
        reference <- on_store (get s) ;;
        ret (round (js_mul reference multiplier))
    | valueFn name args o =>
        resolved <-
          (fix each (l : list getterOrValue) : W (list jsval) :=
             match l with
             | [] => ret []
             | Getter a :: l' =>
                 v <- invoke fuel' a flatStyle flatStyleMeta context options ;;
                 vs <- each l' ;;
                 ret (v :: vs)
             | Value v :: l' =>
                 vs <- each l' ;;
                 ret (v :: vs)
             end) args ;;
        finish name o resolved
    end
  end.

(** Reading a property that was defined with
    [get() { return typeof getterOrValue === "function" ? getterOrValue() : getterOrValue }]. *)
Definition read (fuel : nat) (g : getterOrValue) (flatStyle : Style)
    (flatStyleMeta : StyleMeta.t getterOrValue) (context : nat)
    (options : FlattenStyleOptions) : W jsval :=
  match g with
  | Getter f => invoke fuel f flatStyle flatStyleMeta context options
  | Value v => ret v
  end.

End Resolver.

Section Flattener.
Context `{Platform} `{Cascade}.

(** The walk of [extractAndDefineProperty] along the tokens of the key:
    the last token is defined with a [get], the ones before name nested
    objects, created when absent.  [None] is a [TypeError]: a token on
    the way names a property that holds a primitive, or one that has a
    [get] and cannot be assigned.  (A property on the way that holds an
    object of the input is not followed by this model, and is counted
    with them.) *)
Fixpoint define_path (tokens : list string) (g : getterOrValue)
    (target : list (string * property)) : option (list (string * property)) :=
  match tokens with
  | [] => Some target
  | [token] => Some (JSObject.assign token (Accessor g) target)
  | token :: rest =>
      match JSObject.lookup token target with
      | None | Some (DataValue JUndefined) =>
          option_map (fun o => JSObject.assign token (DataObject o) target)
                     (define_path rest g [])
      | Some (DataObject o) =>
          option_map (fun o' => JSObject.assign token (DataObject o') target)
                     (define_path rest g o)
      | Some _ => None
      end
  end.

(** [extractAndDefineProperty(key, value, flatStyle, flatStyleMeta, context, options)] *)
Definition extractAndDefineProperty (fuel : nat) (key : string) (value : jsval)
    (flatStyle : Style) (flatStyleMeta : StyleMeta.t getterOrValue)
    (context : nat) (options : FlattenStyleOptions) : W Style :=
  getterOrValue <- extractValue fuel value flatStyle flatStyleMeta context options ;;
  match getterOrValue with
  | Value JUndefined => ret flatStyle
  | _ => lift_option (define_path (split_on "."%char key) getterOrValue flatStyle)
  end.

(** [value[i]] *)
Definition index (value : jsval) (i : nat) : W jsval :=
  match value with
  | JUndefined => throw
  | JArr l => ret (nth i l JUndefined)
  | JStr s => ret (match String.get i s with
                   | Some c => JStr (String c EmptyString)
                   | None => JUndefined
                   end)
  | JObj o => ret (match JSObject.lookup (number_toString (inject_Z (Z.of_nat i))) o with
                   | Some v => v
                   | None => JUndefined
                   end)
  | _ => ret JUndefined
  end.

(** [Object.entries] of an entry of [transform]. *)
Definition entries_of (transform : jsval) : list (string * jsval) :=
  match transform with
  | JObj o => o
  | JArr l => map (fun iv => (number_toString (inject_Z (Z.of_nat (fst iv))), snd iv))
                  (combine (seq 0 (List.length l)) l)
  | _ => []
  end.

(** ["type" in transform]; [None] when [transform] is not an object. *)
Definition has_type (transform : jsval) : option bool :=
  match transform with
  | JRuntime _ _ => Some true
  | JObj o => Some (JSObject.has "type" o)
  | JArr _ => Some false
  | _ => None
  end.

(** The [case "transform"] of the loop over the declarations. *)
Definition flatten_transform (fuel : nat) (value : jsval) (flatStyle : Style)
    (flatStyleMeta : StyleMeta.t getterOrValue) (context : nat)
    (options : FlattenStyleOptions) : W Style :=
  items <- match value with
           | JArr l => ret l
           | JStr EmptyString => ret []
           | _ => throw
           end ;;
  transforms <-
    (fix each (l : list jsval) (transforms : list (list (string * property)))
       : W (list (list (string * property))) :=
       match l with
       | [] => ret transforms
       | transform :: l' =>
           typed <- lift_option (has_type transform) ;;
           if typed : bool then
             getterOrValue <- extractValue fuel transform flatStyle
                                flatStyleMeta context options ;;
             match getterOrValue, transform with
             | Getter _, JRuntime name _ =>
                 each l' (transforms ++ [[(name, Accessor getterOrValue)]])%list
             | _, _ => each l' transforms
             end
           else
             pushed <-
               (fix entries (e : list (string * jsval))
                    (transforms : list (list (string * property)))
                  : W (list (list (string * property))) :=
                  match e with
                  | [] => ret transforms
                  | (tKey, tValue) :: e' =>
                      getterOrValue <- extractValue fuel tValue flatStyle
                                         flatStyleMeta context options ;;
                      entries e'
                        (transforms ++
                         [[(tKey, match getterOrValue with
                                  | Getter _ => Accessor getterOrValue
                                  | Value v => DataValue v
                                  end)]])%list
                  end) (entries_of transform) transforms ;;
             each l' pushed
       end) items [] ;;
  match JSObject.lookup "transform" flatStyle with
  | Some (Accessor _) => throw
  | _ => ret (JSObject.assign "transform" (DataArray transforms) flatStyle)
  end.

(** The loop over [Object.entries(style)]. *)
Fixpoint flatten_declarations (fuel : nat) (entries : list (string * jsval))
    (flatStyle : Style) (flatStyleMeta : StyleMeta.t getterOrValue)
    (context : nat) (options : FlattenStyleOptions) : W Style :=
  match entries with
  | [] => ret flatStyle
  | (key, value) :: entries' =>
      flatStyle' <-
        (if String.eqb key "transform" then
           flatten_transform fuel value flatStyle flatStyleMeta context options
         else if String.eqb key "textShadow" then
           v0 <- index value 0 ;;
           s1 <- extractAndDefineProperty fuel "textShadow.width" v0 flatStyle
                   flatStyleMeta context options ;;
           v1 <- index value 1 ;;
           extractAndDefineProperty fuel "textShadow.height" v1 s1
             flatStyleMeta context options
         else if String.eqb key "shadowOffset" then
           v0 <- index value 0 ;;
           s1 <- extractAndDefineProperty fuel "shadowOffset.width" v0 flatStyle
                   flatStyleMeta context options ;;
           v1 <- index value 1 ;;
           extractAndDefineProperty fuel "shadowOffset.height" v1 s1
             flatStyleMeta context options
         else
           extractAndDefineProperty fuel key value flatStyle flatStyleMeta
             context options) ;;
      flatten_declarations fuel entries' flatStyle' flatStyleMeta context options
  end.

(** The loop over [Object.entries(styleMeta.variables)]. *)
Fixpoint flatten_variables (fuel : nat) (entries : list (string * jsval))
    (flatStyle : Style) (flatStyleMeta : StyleMeta.t getterOrValue)
    (context : nat) (options : FlattenStyleOptions)
    : W (StyleMeta.t getterOrValue) :=
  match entries with
  | [] => ret flatStyleMeta
  | (key, value) :: entries' =>
      let declared := match StyleMeta.variables flatStyleMeta with
                      | Some vars => vars
                      | None => []
                      end in
      if JSObject.has key declared then
        flatten_variables fuel entries' flatStyle flatStyleMeta context options
      else
        getterOrValue <- extractValue fuel value flatStyle flatStyleMeta
                           context options ;;
        flatten_variables fuel entries' flatStyle
          (StyleMeta.with_variables
             (Some (JSObject.assign key getterOrValue declared)) flatStyleMeta)
          context options
  end.

(** [{ ...styleMeta.pseudoClasses, ...flatStyleMeta.pseudoClasses }] *)
Definition spread_pseudoClasses (a : PseudoClassesQuery)
    (b : option PseudoClassesQuery) : PseudoClassesQuery :=
  match b with
  | None => a
  | Some b =>
      {| hover := match hover b with Some x => Some x | None => hover a end;
         active := match active b with Some x => Some x | None => active a end;
         focus := match focus b with Some x => Some x | None => focus a end |}
  end.

Definition spread_onto (a : JSObject.t jsval) (b : option (JSObject.t jsval))
    : JSObject.t jsval :=
  match b with
  | None => a
  | Some b => JSObject.spread a b
  end.

(** [styleMeta.media.every((m) => testMediaQuery(m))] *)
Fixpoint every (media : list jsval) : W bool :=
  match media with
  | [] => ret true
  | m :: media' =>
      ok <- testMediaQuery m ;;
      if ok : bool then every media' else ret false
  end.

(** The conditions check: whether the style passes, and the metadata of
    the accumulator after it. *)
Definition conditions (styleMeta : StyleMeta.t jsval)
    (flatStyleMeta : StyleMeta.t getterOrValue) (context : nat)
    : W (bool * StyleMeta.t getterOrValue) :=
  checked <-
    match StyleMeta.pseudoClasses styleMeta with
    | Some pseudo =>
        let flatStyleMeta' :=
          StyleMeta.with_pseudoClasses
            (Some (spread_pseudoClasses pseudo
                     (StyleMeta.pseudoClasses flatStyleMeta)))
            flatStyleMeta in
        ok <- testPseudoClasses context pseudo ;;
        ret (ok, flatStyleMeta')
    | None => ret (true, flatStyleMeta)
    end ;;
  if negb (fst checked) then ret (false, snd checked)
  else
    ok <- match StyleMeta.media styleMeta with
          | Some media => every media
          | None => ret true
          end ;;
    if negb ok then ret (false, snd checked)
    else
      c <- component context ;;
      ok <- testContainerQuery (StyleMeta.containerQuery styleMeta)
              (containers c) ;;
      ret (ok, snd checked).

(** The metadata merged after the conditions check: animations,
    transition, container and requiresLayout. *)
Definition merge_container (c : ExtractedContainer.t)
    (flat : option ExtractedContainer.t) : ExtractedContainer.t :=
  let base := match flat with
              | Some f => f
              | None => {| ExtractedContainer.names := Some [];
                           ExtractedContainer.type := Some "normal" |}
              end in
  let named := match ExtractedContainer.names c with
               | Some n => {| ExtractedContainer.names := Some n;
                              ExtractedContainer.type := ExtractedContainer.type base |}
               | None => base
               end in
  match ExtractedContainer.type c with
  | Some t => if String.eqb t "" then named
              else {| ExtractedContainer.names := ExtractedContainer.names named;
                      ExtractedContainer.type := Some t |}
  | None => named
  end.

Definition merge_metadata (styleMeta : StyleMeta.t jsval)
    (flatStyleMeta : StyleMeta.t getterOrValue) : StyleMeta.t getterOrValue :=
  let m1 := match StyleMeta.animations styleMeta with
            | Some a => StyleMeta.with_animations
                          (Some (spread_onto a (StyleMeta.animations flatStyleMeta)))
                          flatStyleMeta
            | None => flatStyleMeta
            end in
  let m2 := match StyleMeta.transition styleMeta with
            | Some a => StyleMeta.with_transition
                          (Some (spread_onto a (StyleMeta.transition m1))) m1
            | None => m1
            end in
  let m3 := match StyleMeta.container styleMeta with
            | Some c => StyleMeta.with_container
                          (Some (merge_container c (StyleMeta.container m2))) m2
            | None => m2
            end in
  if StyleMeta.requiresLayout styleMeta
  then StyleMeta.with_requiresLayout true m3
  else m3.

(** [flattenStyle] at a style object. *)
Definition flatten_object (fuel : nat) (style : StyleObject) (context : nat)
    (options : FlattenStyleOptions) (flat : Flat) : W Flat :=
  let meta := match styleMeta style with
              | Some m => m
              | None => StyleMeta.inline false
              end in
  let flatMeta := match flatStyleMeta flat with
                  | Some m => m
                  | None => StyleMeta.inline true
                  end in
  checked <- conditions meta flatMeta context ;;
  if negb (fst checked) then
    ret {| flatStyle := flatStyle flat; flatStyleMeta := Some (snd checked) |}
  else
    let merged := merge_metadata meta (snd checked) in
    withVariables <-
      match StyleMeta.variables meta with
      | Some vars =>
          let merged' :=
            match StyleMeta.variables merged with
            | Some _ => merged
            | None => StyleMeta.with_variables (Some []) merged
            end in
          flatten_variables fuel vars (flatStyle flat) merged' context options
      | None => ret merged
      end ;;
    declared <- flatten_declarations fuel (declarations style) (flatStyle flat)
                  withVariables context options ;;
    ret {| flatStyle := declared; flatStyleMeta := Some withVariables |}.

(** [style.flat()] *)
Definition flat_once (styles : list StyleProp) : list StyleProp :=
  flat_map (fun s => match s with Many l => l | _ => [s] end) styles.

(** [Array.prototype.sort(styleSpecificityCompareFn)]: stable, and
    [undefined] entries last. *)
Fixpoint insert_sorted (x : StyleProp) (l : list StyleProp) : list StyleProp :=
  match l with
  | [] => [x]
  | y :: l' =>
      if (styleSpecificityCompareFn x y <=? 0)%Z then x :: y :: l'
      else y :: insert_sorted x l'
  end.

Definition is_absent (s : StyleProp) : bool :=
  match s with Absent => true | _ => false end.

Definition sort (styles : list StyleProp) : list StyleProp :=
  (fold_right insert_sorted [] (filter (fun s => negb (is_absent s)) styles)
   ++ filter is_absent styles)%list.

(** [flattenStyle(style, context, options, flatStyle)] *)
Fixpoint flattenStyle (fuel : nat) (style : StyleProp) (context : nat)
    (options : FlattenStyleOptions) (flat : Flat) {struct fuel} : W Flat :=
  match fuel with
  | O => timeout
  | S fuel' =>
      match style with
      | Absent => ret flat
      | Many styles =>
          (fix each (l : list StyleProp) (flat : Flat) : W Flat :=
             match l with
             | [] => ret flat
             | s :: l' =>
                 flat' <- flattenStyle fuel' s context options flat ;;
                 each l' flat'
             end) (sort (flat_once styles)) flat
      | Single s => flatten_object fuel' s context options flat
      end
  end.

End Flattener.

(** ** What is observed of a run *)

Section Observations.
Context {V : Type} `{JSValue V}.

(** How often the tracked function of [c] ran. *)
Definition executions (c : nat) (tr : list (event V)) : nat :=
  List.length (filter (fun e => match e with
                                | EvExecute d => Nat.eqb c d
                                | _ => false
                                end) tr).

(** [a] is the value [v], as far as [set] can tell: [set] stores [v]
    unless [Object.is] answers that the cell holds it already. *)
Definition current (a v : V) : Prop := a = v \/ Object_is a v = true.

(** In a history [tr], newest event first, every run of [c] comes after
    a run of each of [ds]. *)
Fixpoint runs_after (c : nat) (ds : list nat) (tr : list (event V)) : Prop :=
  match tr with
  | [] => True
  | e :: older =>
      (e = EvExecute c -> forall d, In d ds -> In (EvExecute d) older) /\
      runs_after c ds older
  end.

(** The edges of the graph: [c] is in the [subscriptions] of [s]; [s] is
    in the [dependencies] of [c]. *)
Definition subs_of (st : Store V) (s : nat) : JSSet.t subscriber :=
  match nth_error (cells st) s with
  | Some k => subscriptions k
  | None => []
  end.

Definition deps_of (st : Store V) (c : nat) : JSSet.t nat :=
  match nth_error (cells st) c with
  | Some k => match computation k with
              | Some comp => dependencies comp
              | None => []
              end
  | None => []
  end.

Definition subscribed (st : Store V) (c s : nat) : Prop :=
  In (Some (Observer c)) (subs_of st s).

Definition depends (st : Store V) (c s : nat) : Prop :=
  In (Some s) (deps_of st c).

(** The cells [c] read since its tracked function was last started. *)
Fixpoint last_reads (c : nat) (tr : list (event V)) : list nat :=
  match tr with
  | [] => []
  | EvExecute d :: older => if Nat.eqb c d then [] else last_reads c older
  | EvRead r s _ :: older =>
      if Nat.eqb c r then s :: last_reads c older else last_reads c older
  | _ :: older => last_reads c older
  end.

(** The edges of [c] are those of its last run, in both directions. *)
Definition edges_of_last_run (c : nat) (st : Store V) : Prop :=
  forall s, (depends st c s <-> In s (last_reads c (trace st))) /\
            (subscribed st c s <-> depends st c s).

(** What a tracked function returns and which cells it reads through
    [get], in order, when a cell [s] holds [look s]; and whether the
    cells it reads are among the first [n]. *)
Definition peek (st : Store V) (s : nat) : V :=
  match nth_error (cells st) s with
  | Some k => value k
  | None => undefined
  end.

Fixpoint returns (look : nat -> V) (p : tracked V) : V :=
  match p with
  | Return v => v
  | Get s k => returns look (k (look s))
  | Snapshot s k => returns look (k (look s))
  end.

Fixpoint reads (look : nat -> V) (p : tracked V) : list nat :=
  match p with
  | Return _ => []
  | Get s k => s :: reads look (k (look s))
  | Snapshot s k => reads look (k (look s))
  end.

Fixpoint in_scope (look : nat -> V) (n : nat) (p : tracked V) : Prop :=
  match p with
  | Return _ => True
  | Get s k => s < n /\ in_scope look n (k (look s))
  | Snapshot s k => s < n /\ in_scope look n (k (look s))
  end.

(** The dependency diamond: a root signal [R], computations [A] and [B]
    of it, in either order of creation, and a computation [C] of both,
    reading them in either order; a plain callback is subscribed to
    [C]. *)
Definition diamond (fuel : nat) (r0 : V) (fA fB : V -> V) (fC : V -> V -> V)
    (b_first c_reads_b_first : bool) : M (nat * nat * nat * nat) :=
  R <- createSignal r0 ;;
  AB <- (if b_first then
           B <- createComputation fuel (Get R (fun r => Return (fB r))) ;;
           A <- createComputation fuel (Get R (fun r => Return (fA r))) ;;
           ret (A, B)
         else
           A <- createComputation fuel (Get R (fun r => Return (fA r))) ;;
           B <- createComputation fuel (Get R (fun r => Return (fB r))) ;;
           ret (A, B)) ;;
  C <- createComputation fuel
         (if c_reads_b_first
          then Get (snd AB) (fun b => Get (fst AB) (fun a => Return (fC a b)))
          else Get (fst AB) (fun a => Get (snd AB) (fun b => Return (fC a b)))) ;;
  subscribe C 0 ;;;
  ret (R, fst AB, snd AB, C).

(** A signal with two computations of it and a plain callback. *)
Definition observed_signal (fuel : nat) (v0 : V) (f1 f2 : V -> V)
    : M (nat * nat * nat) :=
  s <- createSignal v0 ;;
  c1 <- createComputation fuel (Get s (fun r => Return (f1 r))) ;;
  subscribe s 7 ;;;
  c2 <- createComputation fuel (Get s (fun r => Return (f2 r))) ;;
  ret (s, c1, c2).

End Observations.

(** ** Reasoning about runs *)

Definition wp {S A : Type} (m : SM S A) (st : S) (Q : A -> S -> Prop) : Prop :=
  match m st with
  | Done a st' => Q a st'
  | _ => False
  end.

(** ** Stand-ins and scenarios

    The examples need a host and the tests of [conditions.ts].  The host
    below prints whole numbers only and parses none; it is a stand-in for
    the examples, and the properties that do not name it hold for every
    host. *)

Definition example_platform : Platform := {|
  number_toString := fun q => NilZero.string_of_int (Z.to_int (Qfloor q));
  parseFloat := fun _ => JNaN;
  hairlineWidth := 1 # 2;
  Platform_select := fun spec =>
    match spec with
    | JObj o => match JSObject.lookup "ios" o with
                | Some v => v
                | None => match JSObject.lookup "default" o with
                          | Some v => v
                          | None => JUndefined
                          end
                end
    | _ => JUndefined
    end;
  PixelRatio_get := 2;
  PixelRatio_getFontScale := 1;
  PixelRatio_getPixelSizeForLayoutSize := fun v => js_mul (JNum 2) v;
  PixelRatio_roundToNearestPixel := fun v => v;
  PlatformColor := fun names => JObj [("semantic", JArr names)]
|}.

(** Modelled from the spec: the pseudo-class test reads the interaction
    signal of each requested pseudo-class, and all of them must be true
    (section 4.3). *)
Definition requested (ctx : nat) (name : string) (wanted : option bool) : W bool :=
  match wanted with
  | Some true =>
      s <- interaction_get ctx name ;;
      v <- on_store (get s) ;;
      ret (truthy v)
  | _ => ret true
  end.

Definition example_testPseudoClasses (ctx : nat) (q : PseudoClassesQuery) : W bool :=
  h <- requested ctx "hover" (hover q) ;;
  a <- requested ctx "active" (active q) ;;
  f <- requested ctx "focus" (focus q) ;;
  ret (h && a && f).

(** A stand-in for the media and container tests: a media query passes
    when the viewport is at least as wide as the number it holds, and a
    container query when a container of the name it holds is known. *)
Definition example_cascade : Cascade := {|
  testPseudoClasses := example_testPseudoClasses;
  testMediaQuery := fun m =>
    w <- on_store (get vw) ;;
    ret (match m, w with
         | JNum least, JNum width => Qle_bool least width
         | _, _ => false
         end);
  testContainerQuery := fun q known =>
    ret (match q with
         | None => true
         | Some l => forallb (fun c => match c with
                                       | JStr name => JSObject.has name known
                                       | _ => false
                                       end) l
         end);
  styleSpecificityCompareFn := fun _ _ => 0%Z
|}.

Definition no_options : FlattenStyleOptions := {| ch := None; cw := None |}.

Definition empty_flat : Flat := {| flatStyle := []; flatStyleMeta := None |}.

(** A world with a light color scheme, a viewport of 400 by 800 and a
    root font size of 14. *)
Definition example_world : World := ambient "light" 400 800 14.

(** The scenario of the variable chain: the default scope holds [d] for
    [--gap] (nothing when [d] is [undefined]), a parent context holds [p],
    and a child of it that sets nothing reads the variable; then the
    parent is cleaned up and a fresh context with no parent reads it. *)
Definition gap_scenario (d p : jsval) : W (jsval * jsval) :=
  default <- defaultVariables_get "--gap" ;;
  ColorSchemeSignal_set 3 default d ;;;
  root <- createComponentContext None ;;
  parent <- createComponentContext (Some root) ;;
  parentGap <- variables_get 3 parent "--gap" ;;
  CSSVariableSignal_set 3 parentGap p ;;;
  child <- createComponentContext (Some parent) ;;
  childGap <- variables_get 3 child "--gap" ;;
  fromChild <- CSSVariableSignal_get childGap ;;
  ComponentContext_cleanup parent ;;;
  fresh <- createComponentContext None ;;
  freshGap <- variables_get 3 fresh "--gap" ;;
  fromFresh <- CSSVariableSignal_get freshGap ;;
  ret (fromChild, fromFresh).

(** The scenario of the element-relative unit: [cw(m)] is resolved with
    no [cw] option, what it resolves to is called, a layout event reports
    a width, and it is called again. *)
Definition cw_scenario (m width : Q) : W (getterOrValue * jsval * jsval) :=
  ctx <- createComponentContext None ;;
  g <- extractValue (H := example_platform) 2 (JRuntime "cw" [JNum m]) []
         (StyleMeta.inline true) ctx no_options ;;
  before <- read (H := example_platform) 2 g [] (StyleMeta.inline true) ctx
              no_options ;;
  onLayout 3 ctx width 0 ;;;
  after <- read (H := example_platform) 2 g [] (StyleMeta.inline true) ctx
             no_options ;;
  ret (g, before, after).

(** Style fragments of the examples. *)
Definition fragment (declarations : JSObject.t jsval) (meta : StyleMeta.t jsval)
    : StyleObject :=
  {| declarations := declarations; styleMeta := Some meta |}.

Definition with_media (media : list jsval) (m : StyleMeta.t jsval) : StyleMeta.t jsval :=
  {| StyleMeta.alreadyProcessed := StyleMeta.alreadyProcessed m;
     StyleMeta.media := Some media;
     StyleMeta.variables := StyleMeta.variables m;
     StyleMeta.pseudoClasses := StyleMeta.pseudoClasses m;
     StyleMeta.animations := StyleMeta.animations m;
     StyleMeta.container := StyleMeta.container m;
     StyleMeta.containerQuery := StyleMeta.containerQuery m;
     StyleMeta.transition := StyleMeta.transition m;
     StyleMeta.requiresLayout := StyleMeta.requiresLayout m;
     StyleMeta.specificity := StyleMeta.specificity m |}.

Definition css (B : Z) : StyleMeta.t jsval :=
  {| StyleMeta.alreadyProcessed := false; StyleMeta.media := None;
     StyleMeta.variables := None; StyleMeta.pseudoClasses := None;
     StyleMeta.animations := None; StyleMeta.container := None;
     StyleMeta.containerQuery := None; StyleMeta.transition := None;
     StyleMeta.requiresLayout := false;
     StyleMeta.specificity := Some (CSSSpecificity 0 B 0 0 0 0) |}.

(** A fragment whose media query asks for a viewport wider than the one
    of [example_world]. *)
Definition wide_only : StyleObject :=
  fragment [("color", JStr "red")] (with_media [JNum 1000] (css 1)).

(** Two fragments that each name a container, the second of higher
    specificity. *)
Definition named (name : string) (B : Z) : StyleObject :=
  fragment []
    (StyleMeta.with_container
       (Some {| ExtractedContainer.names := Some [name];
                ExtractedContainer.type := None |}) (css B)).

(** A fragment that refers to a variable nothing defines, and one whose
    [fontScaleSelect] has no argument. *)
Definition unresolved : StyleObject :=
  fragment [("color", JRuntime "var" [JStr "--missing"])] (css 1).

Definition malformed : StyleObject :=
  fragment [("fontSize", JRuntime "fontScaleSelect" [])] (css 1).

(** The accumulator records that a fragment had a condition of each kind
    the fragment has. *)
Definition records_conditions (fragmentMeta : StyleMeta.t jsval)
    (flatMeta : option (StyleMeta.t getterOrValue)) : Prop :=
  forall m, flatMeta = Some m ->
    (StyleMeta.pseudoClasses fragmentMeta <> None ->
     StyleMeta.pseudoClasses m <> None) /\
    (StyleMeta.media fragmentMeta <> None -> StyleMeta.media m <> None) /\
    (StyleMeta.containerQuery fragmentMeta <> None ->
     StyleMeta.containerQuery m <> None).

(** A field of an optional object. *)
Definition field {A : Type} (key : string) (o : option (JSObject.t A)) : option A :=
  match o with
  | Some x => JSObject.lookup key x
  | None => None
  end.

(** The metadata a fragment and an accumulator have in [styleMetaMap]. *)
Definition meta_of (style : StyleObject) : StyleMeta.t jsval :=
  match styleMeta style with
  | Some m => m
  | None => StyleMeta.inline false
  end.

Definition flat_meta_of (flat : Flat) : StyleMeta.t getterOrValue :=
  match flatStyleMeta flat with
  | Some m => m
  | None => StyleMeta.inline true
  end.

(** First writer wins: a key the accumulator has keeps its value, and a
    key it lacks takes the value of the fragment. *)
Definition first_wins {A : Type} (old fragment new : option (JSObject.t A)) : Prop :=
  match fragment with
  | None => new = old
  | Some _ =>
      forall key, field key new = match field key old with
                                  | Some v => Some v
                                  | None => field key fragment
                                  end
  end.

(** An object whose keys are distinct. *)
Definition distinct_keys {A : Type} (o : option (JSObject.t A)) : Prop :=
  match o with
  | Some x => NoDup (map fst x)
  | None => True
  end.

(** [example_world] with one component context, of index 0, and the
    accumulator after the fragment [named "a" 1] is flattened there. *)
Definition one_context : World :=
  Eval vm_compute in
    match createComponentContext None example_world with
    | Done _ w => w
    | _ => example_world
    end.

Definition flat_a : Flat :=
  Eval vm_compute in
    match flattenStyle (H := example_platform) (H0 := example_cascade) 1
            (Single (named "a" 1)) 0 no_options empty_flat one_context with
    | Done flat _ => flat
    | _ => empty_flat
    end.

Definition container_names (flat : Flat) : option (list string) :=
  match flatStyleMeta flat with
  | Some m => match StyleMeta.container m with
              | Some c => ExtractedContainer.names c
              | None => None
              end
  | None => None
  end.

Definition flat_ab : Flat :=
  Eval vm_compute in
    match flattenStyle (H := example_platform) (H0 := example_cascade) 1
            (Single (named "b" 2)) 0 no_options flat_a one_context with
    | Done flat _ => flat
    | _ => empty_flat
    end.

(** [v] is [round x]: for a number [x], a number of hundredths, the
    nearest to [x + EPSILON]; for what is no number, [NaN]. *)
Definition nearest_hundredth (x v : jsval) : Prop :=
  match x with
  | JNum q =>
      exists z : Z,
        v = JNum (Qred (z # 100)) /\
        ((z # 100) - (1 # 200) <= q + EPSILON)%Q /\
        (q + EPSILON < (z # 100) + (1 # 200))%Q
  | _ => v = JNaN
  end.

Definition rounded (v : jsval) : Prop :=
  exists x, v = round x /\ nearest_hundredth x v.

(** The unit conversions of the resolver. *)
Definition units : list string := ["vh"; "vw"; "rem"; "em"; "ch"; "cw"].

(** ** A small graph *)

(** A store with one signal, which holds 1; the computation that reads a
    cell and returns what it read; the store with that computation of the
    signal; and the same store after the computation ran again. *)
Definition one_signal : Store jsval :=
  Eval vm_compute in
    match createSignal (JNum 1) empty_store with
    | Done _ st => st
    | _ => empty_store
    end.

Definition identity_of (s : nat) : tracked jsval :=
  Get s (fun r => Return r).

Definition one_computation : Store jsval :=
  Eval vm_compute in
    match createComputation 3 (identity_of 0) one_signal with
    | Done _ st => st
    | _ => empty_store
    end.

Definition ran_again : Store jsval :=
  Eval vm_compute in
    match execute 4 1 one_computation with
    | Done _ st => st
    | _ => empty_store
    end.
(** ** Invariants of the graph *)

Unset Implicit Arguments.

Section Invariants.
Context {V : Type} `{JSValue V}.

Implicit Types st : Store V.

(** An update of a cell that leaves its edges alone. *)
Definition keeps_edges (f : Signal V -> Signal V) : Prop :=
  forall k, subscriptions (f k) = subscriptions k /\
            option_map (@dependencies V) (computation (f k)) =
            option_map (@dependencies V) (computation k).

(** Two stores with the same edges and the same reads of [c]. *)
Definition same_edges (c : nat) st st' : Prop :=
  (forall y, subs_of st' y = subs_of st y) /\
  (forall y, deps_of st' y = deps_of st y) /\
  last_reads c (trace st') = last_reads c (trace st).

(** A step that keeps the edges of [c] those of its last run. *)
Definition preserves (c : nat) {A : Type} (m : M A) : Prop :=
  forall st a st', m st = Done a st' ->
    edges_of_last_run c st -> edges_of_last_run c st'.

(** The store once [x] is deleted from the subscriptions of each of [l]. *)
Definition unsubscribe_all (x : subscriber) (l : list nat) st : Store V :=
  fold_left (fun st' dep =>
               update_cell dep (with_subscriptions
                 (JSSet.delete subscriber_eqb x)) st') l st.

(** The store while the tracked function of the new computation [c]
    runs: the cells that were there hold what they held, [c] is the last
    cell and on top of the tracking stack, nobody is subscribed to it,
    and the cells read so far are its edges. *)
Record running_first (st0 : Store V) (f : tracked V) (done : list nat)
    (st : Store V) : Prop := {
  rf_cells : exists pre k comp,
      cells st = (pre ++ [k])%list /\
      List.length pre = List.length (cells st0) /\
      map (@value V) pre = map (@value V) (cells st0) /\
      subscriptions k = [] /\
      computation k = Some comp /\
      fn comp = f /\
      (forall s, In s done ->
         In (Some (Observer (List.length (cells st0)))) (subs_of st s) /\
         In (Some s) (dependencies comp));
  rf_context : context st = List.length (cells st0) :: context st0;
  rf_immediate : immediate st = immediate st0;
  rf_trace : trace st =
    (rev (map (fun s => EvRead (List.length (cells st0)) s (peek st0 s)) done)
     ++ EvExecute (List.length (cells st0)) :: trace st0)%list
}.
End Invariants.

(** ** Plain callbacks *)

Section Subscribers.
Context {V : Type}.

(** A set of subscriptions that holds plain callbacks only. *)
Definition no_observers (l : JSSet.t subscriber) : Prop :=
  forall c, ~ In (Some (Observer c)) l.

(** The plain callbacks of a set of subscriptions, in the order of the
    set, and the calls a task of [setImmediate] makes of them, newest
    first, when the cell holds [v]. *)
Definition callbacks_of (l : JSSet.t subscriber) : list nat :=
  flat_map (fun o => match o with Some (Callback f) => [f] | _ => [] end) l.

Definition calls (l : JSSet.t subscriber) (v : V) : list (event V) :=
  rev (map (fun f => EvNotify f v) (callbacks_of l)).
End Subscribers.

(** A signal that holds 1, with the plain callback 7 subscribed. *)
Definition one_listener : Store jsval :=
  Eval vm_compute in
    match (s <- createSignal (JNum 1) ;; subscribe s 7) empty_store with
    | Done _ st => st
    | _ => empty_store
    end.

(** ** What a call leaves as it found it *)

(** When [m] starts in a store that satisfies [P] and returns, the result
    and the store then satisfy [Q]. *)
Definition triple {S A : Type} (P : S -> Prop) (m : SM S A)
    (Q : A -> S -> Prop) : Prop :=
  forall st a st', P st -> m st = Done a st' -> Q a st'.

Section GraphInvariants.
Context {V : Type}.

(** A property of stores that [get] and [cleanup] cannot break: it
    survives a change of the subscriptions or of the dependencies of a
    cell, and the recording of an event. *)
Definition stable (P : Store V -> Prop) : Prop :=
  (forall i g st, P st -> P (update_cell i (with_subscriptions g) st)) /\
  (forall i g st,
      P st -> P (update_cell i (with_computation (with_dependencies g)) st)) /\
  (forall e st, P st -> P (emit e st)).

(** The cell [c] is a computation; the cell [s] is a plain signal. *)
Definition is_computation (st : Store V) (c : nat) : Prop :=
  exists k comp, nth_error (cells st) c = Some k /\ computation k = Some comp.

Definition plain (st : Store V) (s : nat) : Prop :=
  exists k, nth_error (cells st) s = Some k /\ computation k = None.

(** The plain signals of [st0] are plain signals of [st] and hold what
    they held. *)
Definition plain_kept (st0 st : Store V) : Prop :=
  forall r k, nth_error (cells st0) r = Some k -> computation k = None ->
    exists k', nth_error (cells st) r = Some k' /\ value k' = value k /\
               computation k' = None.

(** No computation waits for a negative number of dependencies. *)
Definition waiting_nonnegative (st : Store V) : Prop :=
  forall c k comp, nth_error (cells st) c = Some k -> computation k = Some comp ->
    (0 <= waiting comp)%Z.

(** The two pulses of [stale]. *)
Definition pulse (change : Z) : Prop := change = 1%Z \/ change = (-1)%Z.

(** The tracking stack is [l]. *)
Definition tracking (l : list nat) (st : Store V) : Prop := context st = l.
End GraphInvariants.

(** [one_computation] after [set(2)] on its signal. *)
Definition after_set : Store jsval :=
  Eval vm_compute in
    match set 6 0 (JNum 2) one_computation with
    | Done _ st => st
    | _ => empty_store
    end.

(** A chain: a computation [A] of a root signal [R] and a computation [C]
    of [A]. *)
Definition chain {V : Type} `{JSValue V} (fuel : nat) (r0 : V) (fA fC : V -> V)
    : M (nat * nat * nat) :=
  R <- createSignal r0 ;;
  A <- createComputation fuel (Get R (fun r => Return (fA r))) ;;
  C <- createComputation fuel (Get A (fun a => Return (fC a))) ;;
  ret (R, A, C).

(** A computation that reads a signal through [snapshot]. *)
Definition untracked {V : Type} `{JSValue V} (fuel : nat) (r0 : V) (f : V -> V)
    : M (nat * nat) :=
  s <- createSignal r0 ;;
  c <- createComputation fuel (Snapshot s (fun r => Return (f r))) ;;
  ret (s, c).

(** [setLight: light.set] and [setDark: light.set] of the object
    [createColorSchemeSignal] returns. *)
Definition ColorSchemeSignal_setLight (fuel : nat) (c : ColorSchemeSignal)
    (nextValue : jsval) : W unit :=
  on_store (set fuel (light c) nextValue).

Definition ColorSchemeSignal_setDark (fuel : nat) (c : ColorSchemeSignal)
    (nextValue : jsval) : W unit :=
  on_store (set fuel (light c) nextValue).

(** The cell of the scheme that is not the current one. *)
Definition other_scheme (scheme : jsval) (c : ColorSchemeSignal) : nat :=
  if is_light scheme then dark c else light c.

(** A context with no parent whose variable [--gap] has a plain callback
    subscribed, and a child context of [one_context] whose variable
    [--gap] has one, subscribed to the parent's signal too. *)
Definition subscribed_variable (inheritedContext : option nat)
    : W CSSVariableSignal :=
  ctx <- createComponentContext inheritedContext ;;
  x <- variables_get 3 ctx "--gap" ;;
  on_store (subscribe (signal x) 7) ;;;
  match parentSignal x with
  | Some p => on_store (subscribe (signal p) 7)
  | None => ret tt
  end ;;;
  ret x.

Definition no_variable : CSSVariableSignal :=
  {| signal := 0; defaultSignal := {| light := 0; dark := 0 |};
     parentSignal := None |}.

Definition orphan_variable : CSSVariableSignal * World :=
  Eval vm_compute in
    match subscribed_variable None one_context with
    | Done x w => (x, w)
    | _ => (no_variable, one_context)
    end.

Definition child_variable : CSSVariableSignal * World :=
  Eval vm_compute in
    match subscribed_variable (Some 0) one_context with
    | Done x w => (x, w)
    | _ => (no_variable, one_context)
    end.

(** ** Declarations that hold plain values *)

Definition has_char (c : Ascii.ascii) (s : string) : bool :=
  existsb (Ascii.eqb c) (list_ascii_of_string s).

Definition is_runtime (v : jsval) : bool :=
  match v with JRuntime _ _ => true | _ => false end.

(** A key that [flattenStyle] hands to [extractAndDefineProperty] as it
    is, and that names one property. *)
Definition ordinary_key (key : string) : Prop :=
  key <> "transform" /\ key <> "textShadow" /\ key <> "shadowOffset" /\
  has_char "."%char key = false.

(** What a declaration of a plain value does to the accumulator. *)
Definition define (flatStyle : Style) (declaration : string * jsval) : Style :=
  match snd declaration with
  | JUndefined => flatStyle
  | v => JSObject.assign (fst declaration) (Accessor (Value v)) flatStyle
  end.

(** The runtime values [extractValue] has a case of its own for, short
    of those it hands to [createRuntimeFunction] as they are with joined
    arguments. *)
Definition own_case : list string :=
  ["var"; "vh"; "vw"; "rem"; "em"; "ch"; "cw"; "hairlineWidth";
   "platformSelect"; "fontScaleSelect"; "pixelScaleSelect"; "platformColor";
   "roundToNearestPixel"; "rgb"].

(** The functions of a transform that [extractValue] knows. *)
Definition transform_functions : list string :=
  ["perspective"; "translateX"; "translateY"; "scaleX"; "scaleY"; "scale";
   "rotate"; "rotateX"; "rotateY"; "rotateZ"; "skewX"; "skewY"].

(** An entry of [transform] that is a plain object of plain values. *)
Definition plain_transform (transform : jsval) : Prop :=
  exists o, transform = JObj o /\ JSObject.has "type" o = false /\
            Forall (fun kv => is_runtime (snd kv) = false) o.

(** One entry of the flattened [transform] for each key of each entry. *)
Definition split_transforms `{Platform} (items : list jsval)
    : list (list (string * property)) :=
  flat_map (fun transform =>
              map (fun kv => [(fst kv, DataValue (snd kv))])
                  (entries_of transform)) items.

(** [transform] can be assigned: the accumulator has no property of
    that name defined with a [get]. *)
Definition transform_is_data (flatStyle : Style) : Prop :=
  match JSObject.lookup "transform" flatStyle with
  | Some (Accessor _) => False
  | _ => True
  end.

(** A value a variable may hold that is neither a runtime value, nor
    [undefined], nor an object with a [get]. *)
Definition plain_data (v : jsval) : Prop :=
  is_runtime v = false /\ nullish v = false /\
  match v with
  | JObj o => JSObject.has "get" o = false
  | _ => True
  end.

(** The metadata of a fragment that gives [--gap] the value 8. *)
Definition gap_is_8 : StyleMeta.t jsval :=
  StyleMeta.with_variables (Some [("--gap", JNum 8)]) (StyleMeta.inline false).

(** ** The normalised options of a component ([prop-mapping.ts]) *)

Module PropMapping.

(** A value of [nativeStyleToProp]: [true] or the name of a prop. *)
Inductive NativeProp : Type :=
| PropTrue
| PropName (prop : string).

Definition NativeStyleToProp : Type := JSObject.t NativeProp.

(** [options.target]: a boolean, a string, or something else (the type
    allows only the first two; the code has a branch for the rest). *)
Inductive Target : Type :=
| TargetBoolean (b : bool)
| TargetString (s : string)
| TargetOther.

(** [CSSInteropClassNamePropConfig<P>] *)
Inductive CSSInteropClassNamePropConfig : Type :=
| ConfigUndefined
| ConfigBoolean (b : bool)
| ConfigString (s : string)
| ConfigObject (target : Target) (nativeStyleToProp : option NativeStyleToProp).

(** [Object.entries(mapping)] *)
Definition EnableCssInteropOptions : Type :=
  list (string * CSSInteropClassNamePropConfig).

(** A value of the map [config]. *)
Record StyleConfig : Type := {
  config_sources : list string;
  config_nativeStyleToProp : option NativeStyleToProp
}.

Record NormalizedOptions : Type := {
  config : JSObject.t StyleConfig;
  sources : list string;
  dependencies : list string
}.

(** The three collections of the loop: the map [config], kept in the
    order of insertion, and the sets [dependencies] and [sources]. *)
Record Collected : Type := {
  the_config : JSObject.t StyleConfig;
  the_dependencies : JSSet.t string;
  the_sources : JSSet.t string
}.

(** What the chain of tests makes of one entry: it is passed over
    ([continue]), it raises, or it has a target and maybe a
    [nativeStyleToProp]. *)
Inductive Resolved : Type :=
| Skipped
| Raised
| Resolves (target : string) (nativeStyleToProp : option NativeStyleToProp).

Definition resolve (key : string) (options : CSSInteropClassNamePropConfig)
    : Resolved :=
  match options with
  | ConfigUndefined => Skipped
  | ConfigBoolean false => Skipped
  | ConfigString EmptyString => Skipped
  | ConfigBoolean true => Resolves key None
  | ConfigString s => Resolves s None
  | ConfigObject (TargetBoolean _) nativeStyleToProp =>
      Resolves key nativeStyleToProp
  | ConfigObject (TargetString s) nativeStyleToProp =>
      Resolves s nativeStyleToProp
  | ConfigObject TargetOther _ => Raised
  end.

(** The rest of the body of the loop.  [existing] is the object the map
    holds for [target] from [config.set] on, so that the [push] and the
    assignment to [existing.nativeStyleToProp] change the value in the
    map. *)
Definition collect (key target : string)
    (nativeStyleToProp : option NativeStyleToProp) (c : Collected)
    : Collected :=
  let existing := match JSObject.lookup target (the_config c) with
                  | Some e => e
                  | None => {| config_sources := [];
                               config_nativeStyleToProp := None |}
                  end in
  let config := if Nat.eqb (List.length (config_sources existing)) 0
                then JSObject.assign target existing (the_config c)
                else the_config c in
  let pushed := {| config_sources := (config_sources existing ++ [key])%list;
                   config_nativeStyleToProp :=
                     config_nativeStyleToProp existing |} in
  let merged :=
    match nativeStyleToProp with
    | Some n =>
        {| config_sources := config_sources pushed;
           config_nativeStyleToProp :=
             Some (JSObject.spread
                     (match config_nativeStyleToProp pushed with
                      | Some e => e
                      | None => []
                      end) n) |}
    | None => pushed
    end in
  {| the_config := JSObject.assign target merged config;
     the_dependencies :=
       JSSet.add String.eqb key
         (JSSet.add String.eqb target (the_dependencies c));
     the_sources := JSSet.add String.eqb key (the_sources c) |}.

(** The loop over [Object.entries(mapping)]; [None] when it raises. *)
Fixpoint entries (mapping : EnableCssInteropOptions) (c : Collected)
    : option Collected :=
  match mapping with
  | [] => Some c
  | (key, options) :: mapping' =>
      match resolve key options with
      | Skipped => entries mapping' c
      | Raised => None
      | Resolves target nativeStyleToProp =>
          entries mapping' (collect key target nativeStyleToProp c)
      end
  end.

(** [getNormalizeConfig(mapping)] *)
Definition getNormalizeConfig (mapping : EnableCssInteropOptions)
    : option NormalizedOptions :=
  match entries mapping {| the_config := []; the_dependencies := [];
                           the_sources := [] |} with
  | Some c =>
      Some {| config := the_config c;
              dependencies := JSSet.elements (the_dependencies c);
              sources := JSSet.elements (the_sources c) |}
  | None => None
  end.

(** The target of an entry that is not passed over. *)
Definition target_of (entry : string * CSSInteropClassNamePropConfig)
    : option string :=
  match resolve (fst entry) (snd entry) with
  | Resolves target _ => Some target
  | _ => None
  end.

Definition enabled (entry : string * CSSInteropClassNamePropConfig) : bool :=
  match target_of entry with Some _ => true | None => false end.

(** The keys of the entries of [mapping] that have the target [target]. *)
Definition keys_of (target : string) (mapping : EnableCssInteropOptions)
    : list string :=
  map fst (filter (fun entry => match target_of entry with
                                | Some t => String.eqb t target
                                | None => false
                                end) mapping).

(** The [nativeStyleToProp] of an entry. *)
Definition native_of (entry : string * CSSInteropClassNamePropConfig)
    : option NativeStyleToProp :=
  match resolve (fst entry) (snd entry) with
  | Resolves _ n => n
  | _ => None
  end.

(** The keys [config] lists for [target]; none when it has no entry. *)
Definition sources_under (target : string) (config : JSObject.t StyleConfig)
    : list string :=
  match JSObject.lookup target config with
  | Some e => config_sources e
  | None => []
  end.

(** The prop [config] gives for the style [style] under [target]. *)
Definition native_under (target style : string)
    (config : JSObject.t StyleConfig) : option NativeProp :=
  match JSObject.lookup target config with
  | Some e =>
      match config_nativeStyleToProp e with
      | Some n => JSObject.lookup style n
      | None => None
      end
  | None => None
  end.

(** The objects [nativeStyleToProp] of [mapping] name each style once. *)
Definition distinct_styles (mapping : EnableCssInteropOptions) : Prop :=
  Forall (fun entry => match native_of entry with
                       | Some n => NoDup (map fst n)
                       | None => True
                       end) mapping.

(** The mapping of [TextInput] in [core-components.ts]. *)
Definition TextInput : EnableCssInteropOptions :=
  [("className",
    ConfigObject (TargetString "style") (Some [("textAlign", PropTrue)]));
   ("placeholderClassName",
    ConfigObject (TargetBoolean false)
      (Some [("color", PropName "placeholderTextColor")]));
   ("selectionClassName",
    ConfigObject (TargetBoolean false)
      (Some [("color", PropName "selectionColor")]))].

(** The mapping of [ScrollView], with a prop that is switched off and a
    second class name for [style]. *)
Definition two_for_style : EnableCssInteropOptions :=
  [("className",
    ConfigObject (TargetString "style") (Some [("color", PropTrue)]));
   ("contentContainerClassName", ConfigString "contentContainerStyle");
   ("indicatorClassName", ConfigBoolean false);
   ("textClassName",
    ConfigObject (TargetString "style") (Some [("color", PropName "tint")]))].

End PropMapping.

(** ** Inline variables ([vars]) *)

(** The name [vars] gives the variable of key [key]. *)
Definition variable_name (key : string) : string :=
  if String.prefix "--" key then key else "--" ++ key.

(** [$variables] at the end of the loop of [vars]. *)
Definition vars_variables (variables : JSObject.t jsval) : JSObject.t jsval :=
  fold_left (fun o kv => JSObject.assign (variable_name (fst kv)) (snd kv) o)
            variables [].

(** [vars(variables)]: the style the token it returns stands for, with
    its entry in [styleMetaMap]. *)
Definition vars (variables : JSObject.t jsval) : StyleProp :=
  Single {| declarations := [];
            styleMeta :=
              Some {| StyleMeta.alreadyProcessed := false;
                      StyleMeta.media := None;
                      StyleMeta.variables := Some (vars_variables variables);
                      StyleMeta.pseudoClasses := None;
                      StyleMeta.animations := None;
                      StyleMeta.container := None;
                      StyleMeta.containerQuery := None;
                      StyleMeta.transition := None;
                      StyleMeta.requiresLayout := false;
                      StyleMeta.specificity := None |} |}.

(** The variables a style prop of one style carries. *)
Definition variables_of (style : StyleProp) : JSObject.t jsval :=
  match style with
  | Single s => match styleMeta s with
                | Some m => match StyleMeta.variables m with
                            | Some o => o
                            | None => []
                            end
                | None => []
                end
  | _ => []
  end.

(** * Properties *)


Lemma wp_bind {S A B : Type} (m : SM S A) (k : A -> SM S B) st Q :
  wp m st (fun a st' => wp (k a) st' Q) -> wp (bind m k) st Q.
Proof. unfold wp, bind. destruct (m st); auto. Qed.

Lemma wp_eval {S A : Type} (m : SM S A) st (Q : A -> S -> Prop) a st' :
  m st = Done a st' -> Q a st' -> wp m st Q.
Proof. unfold wp. intros ->. auto. Qed.

Lemma wp_done {S A : Type} (m : SM S A) st (Q : A -> S -> Prop) :
  wp m st Q -> exists a st', m st = Done a st' /\ Q a st'.
Proof. unfold wp. destruct (m st); try contradiction. eauto. Qed.

Lemma bind_done {S A B : Type} (m : SM S A) (k : A -> SM S B) st b st' :
  bind m k st = Done b st' ->
  exists a st1, m st = Done a st1 /\ k a st1 = Done b st'.
Proof. unfold bind. destruct (m st); try discriminate. eauto. Qed.

Section Unfolding.
Context {V : Type} `{JSValue V}.

Lemma stale_from_S fuel s i change fr :
  stale_from (S fuel) s i change fr =
    (k <- cell s ;;
      match nth_error (subscriptions k) i with
      | None => ret tt
      | Some (Some (Observer c)) =>
          Computation_stale fuel c change fr ;;;
          stale_from fuel s (S i) change fr
      | Some _ => stale_from fuel s (S i) change fr
      end).
Proof. reflexivity. Qed.

Lemma Computation_stale_S fuel c change fr :
  Computation_stale (S fuel) c change fr =
    (modify (emit (EvStale c change fr)) ;;;
      k <- the_computation c ;;
      if (waiting k =? 0)%Z && (change <? 0)%Z then ret tt
      else
        (if (waiting k =? 0)%Z && (0 <? change)%Z
         then stale_from fuel c 0 1%Z false else ret tt) ;;;
        k1 <- the_computation c ;;
        modify (update_cell c (with_computation
                  (with_waiting (waiting k1 + change)%Z))) ;;;
        k2 <- the_computation c ;;
        modify (update_cell c (with_computation
                  (with_fresh (fresh k2 || fr)))) ;;;
        k3 <- the_computation c ;;
        if (waiting k3 =? 0)%Z then
          modify (update_cell c (with_computation (with_waiting 0%Z))) ;;;
          (if fresh k3 then execute fuel c else ret tt) ;;;
          stale_from fuel c 0 (-1)%Z false
        else ret tt).
Proof. reflexivity. Qed.

Lemma execute_S fuel c :
  execute (S fuel) c =
    (modify (emit (EvExecute c)) ;;;
      cleanup c ;;;
      modify (with_context (cons c)) ;;;
      modify (update_cell c (with_computation (with_waiting 0%Z))) ;;;
      modify (update_cell c (with_computation (with_fresh false))) ;;;
      k <- the_computation c ;;
      v <- run (fn k) ;;
      set fuel c v ;;;
      modify (with_context (@tl nat))).
Proof. reflexivity. Qed.

Lemma set_S fuel s nextValue :
  set (S fuel) s nextValue =
    (k <- cell s ;;
      if Object_is (value k) nextValue then ret tt
      else
        modify (update_cell s (with_value nextValue)) ;;;
        stale_from fuel s 0 1%Z true ;;;
        stale_from fuel s 0 (-1)%Z true ;;;
        modify (with_immediate (fun q => q ++ [s])%list)).
Proof. reflexivity. Qed.
End Unfolding.

(** Running a program on a store that is known: the program is taken a
    step at a time, and a comparison by [Object.is] of values that are not
    known splits the run in two. *)
Ltac wp_head :=
  lazymatch goal with
  | |- wp ?m ?st ?Q =>
      let m' := eval lazy head beta iota zeta delta
                  -[bind ret throw timeout modify gets lift_option cell
                    the_computation get snapshot cleanup run createSignal
                    subscribe unsubscribe Signal_cleanup notify run_tasks
                    run_immediate Object_is set stale_from Computation_stale
                    execute] in m in
      change (wp m' st Q)
  end.

Ltac wp_prim :=
  lazymatch goal with
  | |- wp ?m ?st ?Q =>
      let r := eval vm_compute in (m st) in
      lazymatch r with
      | Done ?a ?st' =>
          apply (@wp_eval _ _ m st Q a st');
          [vm_cast_no_check (eq_refl r) | cbv beta iota]
      end
  end.

Ltac wp_step :=
  wp_head;
  lazymatch goal with
  | |- wp (bind _ _) _ _ => apply wp_bind
  | |- wp (set (S _) _ _) _ _ => rewrite set_S
  | |- wp (stale_from (S _) _ _ _ _) _ _ => rewrite stale_from_S
  | |- wp (Computation_stale (S _) _ _ _) _ _ => rewrite Computation_stale_S
  | |- wp (execute (S _) _) _ _ => rewrite execute_S
  | |- wp (if @Object_is ?T ?I ?a ?b then _ else _) _ _ =>
      let a' := eval vm_compute in a in
      let b' := eval vm_compute in b in
      change (@Object_is T I a b) with (@Object_is T I a' b');
      first [ match goal with E : @Object_is T I a' b' = _ |- _ => rewrite E end
            | let E := fresh "E" in destruct (@Object_is T I a' b') eqn:E ]
  | |- wp _ _ _ => wp_prim
  end.

Ltac wp_run := repeat wp_step.

(** Membership in a history that is known. *)
Ltac in_history :=
  repeat match goal with
         | H : In _ (_ :: _) |- _ => destruct H as [H | H]
         | H : In _ [] |- _ => destruct H
         | H : @eq (event _) _ _ |- _ =>
             first [discriminate H | injection H; clear H; intros | clear H]
         | H : @eq nat ?a ?b |- _ =>
             first [subst a | subst b | discriminate H | clear H]
         | H : ?a = ?b |- _ => is_var b; subst b
         end.

(** ** Lists and sets *)

Lemma nth_error_list_update {A : Type} (f : A -> A) (l : list A) (i j : nat) :
  nth_error (list_update i f l) j =
    if Nat.eqb j i then option_map f (nth_error l i) else nth_error l j.
Proof.
  revert i j. induction l as [| x l IH]; intros i j.
  - destruct i, j; simpl; try reflexivity. 
    + destruct (Nat.eqb j i); reflexivity.
  - destruct i, j; simpl; try reflexivity. apply IH.
Qed.

Lemma length_list_update {A : Type} (f : A -> A) (l : list A) (i : nat) :
  List.length (list_update i f l) = List.length l.
Proof.
  revert i. induction l as [| x l IH]; intros [| i]; simpl; auto.
Qed.

Lemma subscriber_eqb_eq (a b : subscriber) : subscriber_eqb a b = true <-> a = b.
Proof.
  destruct a, b; simpl; rewrite ?Nat.eqb_eq; split; intros E;
    try discriminate; try congruence.
Qed.

Section SetFacts.
Context {A : Type} (eqb : A -> A -> bool).
Hypothesis eqb_eq : forall a b, eqb a b = true <-> a = b.

Lemma has_In (x : A) (s : JSSet.t A) : JSSet.has eqb x s = true <-> In (Some x) s.
Proof.
  unfold JSSet.has. rewrite existsb_exists. split.
  - intros ([y |] & Hin & E); try discriminate. apply eqb_eq in E. subst. auto.
  - intros Hin. exists (Some x). split; auto. apply eqb_eq. reflexivity.
Qed.

Lemma In_add (x y : A) (s : JSSet.t A) :
  In (Some y) (JSSet.add eqb x s) <-> y = x \/ In (Some y) s.
Proof.
  unfold JSSet.add. destruct (JSSet.has eqb x s) eqn:E.
  - apply has_In in E. split; auto. intros [-> | Hin]; auto.
  - rewrite in_app_iff. simpl. split.
    + intros [Hin | [Hin | []]]; auto. left. congruence.
    + intros [-> | Hin]; auto.
Qed.

Lemma In_delete (x y : A) (s : JSSet.t A) :
  In (Some y) (JSSet.delete eqb x s) <-> y <> x /\ In (Some y) s.
Proof.
  unfold JSSet.delete. rewrite in_map_iff. split.
  - intros ([z |] & E & Hin); try discriminate.
    destruct (eqb x z) eqn:Ez; try discriminate.
    injection E as E. subst z. split; auto. intros Exy. subst x.
    assert (eqb y y = true) by (apply eqb_eq; reflexivity). congruence.
  - intros (Hne & Hin). exists (Some y). split; auto.
    destruct (eqb x y) eqn:Ez; auto. apply eqb_eq in Ez. congruence.
Qed.

Lemma In_clear (y : A) (s : JSSet.t A) : ~ In (Some y) (JSSet.clear s).
Proof.
  unfold JSSet.clear. rewrite in_map_iff. intros (z & E & _). discriminate.
Qed.

Lemma In_elements (y : A) (s : JSSet.t A) : In y (JSSet.elements s) <-> In (Some y) s.
Proof.
  unfold JSSet.elements. rewrite in_flat_map. split.
  - intros ([z |] & Hin & Hy); simpl in Hy; try contradiction.
    destruct Hy as [-> | []]. assumption.
  - intros Hin. exists (Some y). simpl. auto.
Qed.
End SetFacts.

(** ** The edges of a computation are those of its last run *)

Section Edges.
Context {V : Type} `{JSValue V}.

Implicit Types st : Store V.

Lemma subs_of_update_cell i (f : Signal V -> Signal V) st y :
  subs_of (update_cell i f st) y =
    if Nat.eqb y i
    then match nth_error (cells st) i with
         | Some k => subscriptions (f k)
         | None => []
         end
    else subs_of st y.
Proof.
  unfold subs_of, update_cell, with_cells. simpl.
  rewrite nth_error_list_update. destruct (Nat.eqb y i) eqn:E; auto.
  destruct (nth_error (cells st) i); reflexivity.
Qed.

Lemma deps_of_update_cell i (f : Signal V -> Signal V) st y :
  deps_of (update_cell i f st) y =
    if Nat.eqb y i
    then match nth_error (cells st) i with
         | Some k => match computation (f k) with
                     | Some comp => dependencies comp
                     | None => []
                     end
         | None => []
         end
    else deps_of st y.
Proof.
  unfold deps_of, update_cell, with_cells. simpl.
  rewrite nth_error_list_update. destruct (Nat.eqb y i) eqn:E; auto.
  destruct (nth_error (cells st) i); reflexivity.
Qed.


Lemma keeps_edges_subs i f st y :
  keeps_edges f -> subs_of (update_cell i f st) y = subs_of st y.
Proof.
  intros Hf. rewrite subs_of_update_cell.
  destruct (Nat.eqb y i) eqn:E; auto. apply Nat.eqb_eq in E. subst.
  unfold subs_of. destruct (nth_error (cells st) i); auto. apply Hf.
Qed.

Lemma keeps_edges_deps i f st y :
  keeps_edges f -> deps_of (update_cell i f st) y = deps_of st y.
Proof.
  intros Hf. rewrite deps_of_update_cell.
  destruct (Nat.eqb y i) eqn:E; auto. apply Nat.eqb_eq in E. subst.
  unfold deps_of. destruct (nth_error (cells st) i) as [k |]; auto.
  destruct (Hf k) as [_ Hd].
  destruct (computation (f k)), (computation k); simpl in Hd; congruence.
Qed.

Lemma keeps_edges_value (v : V) : keeps_edges (with_value v).
Proof. intros k. split; reflexivity. Qed.

Lemma keeps_edges_waiting w :
  keeps_edges (V := V) (with_computation (with_waiting w)).
Proof. intros k. split; auto. simpl. destruct (computation k); reflexivity. Qed.

Lemma keeps_edges_fresh b :
  keeps_edges (V := V) (with_computation (with_fresh b)).
Proof. intros k. split; auto. simpl. destruct (computation k); reflexivity. Qed.


Lemma same_edges_preserves c st st' :
  same_edges c st st' -> edges_of_last_run c st -> edges_of_last_run c st'.
Proof.
  intros (Hs & Hd & Hr) Hinv s. unfold subscribed, depends.
  rewrite Hs, Hd, Hr. apply Hinv.
Qed.

Lemma same_edges_update c i f st :
  keeps_edges f -> same_edges c st (update_cell i f st).
Proof.
  intros Hf. repeat split; intros.
  - apply keeps_edges_subs; assumption.
  - apply keeps_edges_deps; assumption.
Qed.

Lemma same_edges_context c g st : same_edges c st (with_context g st).
Proof. repeat split. Qed.

Lemma same_edges_immediate c g st : same_edges c st (with_immediate g st).
Proof. repeat split. Qed.

Lemma same_edges_stale c d change fr st :
  same_edges c st (emit (EvStale d change fr) st).
Proof. repeat split. Qed.

(** A step that does not change the store. *)
Lemma cell_done s st k st' : cell s st = Done k st' ->
  st' = st /\ nth_error (cells st) s = Some k.
Proof.
  unfold cell, lift_option. destruct (nth_error (cells st) s); simpl;
    intros E; inversion E; auto.
Qed.

Lemma the_computation_done c st comp st' :
  the_computation c st = Done comp st' ->
  st' = st /\ exists k, nth_error (cells st) c = Some k /\ computation k = Some comp.
Proof.
  unfold the_computation. intros E. apply bind_done in E.
  destruct E as (k & st1 & Ek & E). apply cell_done in Ek. destruct Ek as [-> Ek].
  unfold lift_option in E. destruct (computation k) eqn:Ec; inversion E; subst.
  eauto.
Qed.

Lemma modify_done (g : Store V -> Store V) st u st' :
  modify g st = Done u st' -> st' = g st.
Proof. unfold modify. intros E. inversion E. reflexivity. Qed.

Lemma ret_done {A : Type} (a b : A) st st' : ret a st = Done b st' -> b = a /\ st' = st.
Proof. unfold ret. intros E. inversion E. auto. Qed.

(** [get] *)
Lemma get_done s st v st' :
  get s st = Done v st' ->
  exists k, nth_error (cells st) s = Some k /\ v = value k /\
    match context st with
    | [] => st' = st
    | running :: _ =>
        (exists kr comp, nth_error (cells st) running = Some kr /\
                         computation kr = Some comp) /\
        st' = emit (EvRead running s (value k))
                (update_cell running
                   (with_computation (with_dependencies (JSSet.add Nat.eqb s)))
                   (update_cell s
                      (with_subscriptions
                         (JSSet.add subscriber_eqb (Observer running))) st))
    end.
Proof.
  unfold get. intros E. apply bind_done in E. destruct E as (k & st1 & Ek & E).
  apply cell_done in Ek. destruct Ek as [-> Ek]. exists k. split; auto.
  unfold bind, gets in E. destruct (context st) as [| running rest] eqn:Ectx.
  - inversion E. auto.
  - destruct (the_computation running st) as [comp st2 | |] eqn:Er;
      try discriminate.
    apply the_computation_done in Er. destruct Er as [-> (kr & Ekr & Ecomp)].
    unfold modify, ret in E. inversion E. split; auto. split; eauto.
Qed.

Lemma subs_of_emit e st y : subs_of (emit e st) y = subs_of st y.
Proof. reflexivity. Qed.

Lemma deps_of_emit e st y : deps_of (emit e st) y = deps_of st y.
Proof. reflexivity. Qed.

Lemma deps_of_add_dependency r s st kr comp :
  nth_error (cells st) r = Some kr -> computation kr = Some comp ->
  forall y,
    deps_of (update_cell r (with_computation
               (with_dependencies (JSSet.add Nat.eqb s))) st) y =
    if Nat.eqb y r then JSSet.add Nat.eqb s (deps_of st r) else deps_of st y.
Proof.
  intros Ekr Ecomp y. rewrite deps_of_update_cell.
  destruct (Nat.eqb y r); auto. unfold deps_of. rewrite Ekr. simpl.
  rewrite Ecomp. reflexivity.
Qed.

Lemma subs_of_add_subscriber r s st k :
  nth_error (cells st) s = Some k ->
  forall y,
    subs_of (update_cell s (with_subscriptions
               (JSSet.add subscriber_eqb (Observer r))) st) y =
    if Nat.eqb y s
    then JSSet.add subscriber_eqb (Observer r) (subs_of st s)
    else subs_of st y.
Proof.
  intros Ek y. rewrite subs_of_update_cell.
  destruct (Nat.eqb y s); auto. unfold subs_of. rewrite Ek. reflexivity.
Qed.

Lemma keeps_edges_dependencies_subs g :
  forall k : Signal V,
    subscriptions (with_computation (with_dependencies g) k) = subscriptions k.
Proof. reflexivity. Qed.

Lemma keeps_edges_subscriptions_deps g i st y :
  deps_of (update_cell i (with_subscriptions g) st) y = deps_of st y.
Proof.
  rewrite deps_of_update_cell. destruct (Nat.eqb y i) eqn:E; auto.
  apply Nat.eqb_eq in E. subst. unfold deps_of.
  destruct (nth_error (cells st) i); reflexivity.
Qed.

Lemma subs_of_update_dependencies g i st y :
  subs_of (update_cell i (with_computation (with_dependencies g)) st) y =
  subs_of st y.
Proof.
  rewrite subs_of_update_cell. destruct (Nat.eqb y i) eqn:E; auto.
  apply Nat.eqb_eq in E. subst. unfold subs_of.
  destruct (nth_error (cells st) i); reflexivity.
Qed.

Lemma update_cell_keeps_computation i g st r kr comp :
  nth_error (cells st) r = Some kr -> computation kr = Some comp ->
  exists kr', nth_error (cells (update_cell i (with_subscriptions g) st)) r = Some kr' /\
              computation kr' = Some comp.
Proof.
  intros Ekr Ecomp. unfold update_cell, with_cells. simpl.
  rewrite nth_error_list_update. destruct (Nat.eqb r i) eqn:E.
  - apply Nat.eqb_eq in E. subst. rewrite Ekr. simpl. eauto.
  - eauto.
Qed.

Lemma get_preserves c s st v st' :
  get s st = Done v st' -> edges_of_last_run c st -> edges_of_last_run c st'.
Proof.
  intros E Hinv. apply get_done in E. destruct E as (k & Ek & -> & E).
  destruct (context st) as [| r rest]; [subst; assumption |].
  destruct E as [(kr & comp & Ekr & Ecomp) ->].
  destruct (update_cell_keeps_computation s
              (JSSet.add subscriber_eqb (Observer r)) st r kr comp Ekr Ecomp)
    as (kr' & Ekr' & Ecomp').
  intros y. unfold subscribed, depends.
  rewrite subs_of_emit, deps_of_emit.
  rewrite subs_of_update_dependencies.
  rewrite (deps_of_add_dependency r s _ _ _ Ekr' Ecomp').
  rewrite (subs_of_add_subscriber r s st k Ek).
  rewrite !keeps_edges_subscriptions_deps.
  change (trace (emit (EvRead r s (value k)) _)) with (EvRead r s (value k) :: trace st).
  cbn [last_reads].
  destruct (Hinv y) as [Hd Hs]. unfold subscribed, depends in Hd, Hs.
  destruct (Nat.eqb c r) eqn:Ecr.
  - apply Nat.eqb_eq in Ecr. subst r.
    rewrite (In_add Nat.eqb Nat.eqb_eq). simpl.
    destruct (Nat.eqb y s) eqn:Eys.
    + apply Nat.eqb_eq in Eys. subst y.
      rewrite (In_add subscriber_eqb subscriber_eqb_eq). intuition.
    + apply Nat.eqb_neq in Eys. intuition congruence.
  - apply Nat.eqb_neq in Ecr.
    destruct (Nat.eqb y s) eqn:Eys.
    + apply Nat.eqb_eq in Eys. subst y.
      rewrite (In_add subscriber_eqb subscriber_eqb_eq).
      split; [exact Hd |]. split.
      * intros [E | Hin]; [congruence | apply Hs; assumption].
      * intros Hin. right. apply Hs. assumption.
    + split; assumption.
Qed.

Lemma snapshot_done s st v st' : snapshot s st = Done v st' -> st' = st.
Proof.
  unfold snapshot. intros E. apply bind_done in E. destruct E as (k & st1 & Ek & E).
  apply cell_done in Ek. destruct Ek as [-> _]. inversion E. reflexivity.
Qed.

Lemma run_preserves c p : forall st v st',
  run p st = Done v st' -> edges_of_last_run c st -> edges_of_last_run c st'.
Proof.
  induction p as [v0 | s k IH | s k IH]; intros st v st' E Hinv; simpl in E.
  - inversion E. subst. assumption.
  - apply bind_done in E. destruct E as (a & st1 & Eg & E).
    eapply IH; eauto. eapply get_preserves; eauto.
  - apply bind_done in E. destruct E as (a & st1 & Eg & E).
    apply snapshot_done in Eg. subst. eapply IH; eauto.
Qed.
End Edges.

Section EdgesOfRuns.
Context {V : Type} `{JSValue V}.
Variable c : nat.

Implicit Types st : Store V.

Local Abbreviation preserves := (preserves (V := V) c).


Lemma preserves_bind {A B : Type} (m : M A) (k : A -> M B) :
  preserves m -> (forall a, preserves (k a)) -> preserves (bind m k).
Proof.
  intros Hm Hk st b st' E Hinv. apply bind_done in E.
  destruct E as (a & st1 & Em & Ek). eapply Hk; eauto.
Qed.

Lemma preserves_ret {A : Type} (a : A) : preserves (ret a).
Proof. intros st b st' E Hinv. inversion E. subst. assumption. Qed.

Lemma preserves_timeout {A : Type} : preserves (@timeout (Store V) A).
Proof. intros st b st' E. discriminate. Qed.

Lemma preserves_cell s : preserves (cell s).
Proof. intros st k st' E Hinv. apply cell_done in E. destruct E as [-> _]. auto. Qed.

Lemma preserves_the_computation s : preserves (the_computation s).
Proof.
  intros st k st' E Hinv. apply the_computation_done in E.
  destruct E as [-> _]. auto.
Qed.

Lemma preserves_modify (g : Store V -> Store V) :
  (forall st, same_edges c st (g st)) -> preserves (modify g).
Proof.
  intros Hg st u st' E Hinv. apply modify_done in E. subst.
  eapply same_edges_preserves; eauto.
Qed.

Lemma preserves_run p : preserves (run p).
Proof. intros st v st' E. eapply run_preserves; eauto. Qed.

Lemma preserves_if {A : Type} (b : bool) (m1 m2 : M A) :
  preserves m1 -> preserves m2 -> preserves (if b then m1 else m2).
Proof. destruct b; auto. Qed.

(** [cleanup] *)
Lemma subs_of_delete d x st y :
  subs_of (update_cell d (with_subscriptions (JSSet.delete subscriber_eqb x)) st) y =
    if Nat.eqb y d then JSSet.delete subscriber_eqb x (subs_of st y)
    else subs_of st y.
Proof.
  rewrite subs_of_update_cell. destruct (Nat.eqb y d) eqn:E; auto.
  apply Nat.eqb_eq in E. subst. unfold subs_of.
  destruct (nth_error (cells st) d); reflexivity.
Qed.


Lemma subs_of_unsubscribe_all x l : forall st y z,
  In (Some z) (subs_of (unsubscribe_all x l st) y) <->
  In (Some z) (subs_of st y) /\ (In y l -> z <> x).
Proof.
  induction l as [| d l IH]; intros st y z; simpl.
  - tauto.
  - unfold unsubscribe_all in *. simpl. rewrite IH. rewrite subs_of_delete.
    destruct (Nat.eqb y d) eqn:E.
    + apply Nat.eqb_eq in E. subst.
      rewrite (In_delete subscriber_eqb subscriber_eqb_eq). intuition.
    + apply Nat.eqb_neq in E. intuition congruence.
Qed.

Lemma deps_of_unsubscribe_all x l : forall st y,
  deps_of (unsubscribe_all x l st) y = deps_of st y.
Proof.
  induction l as [| d l IH]; intros st y; simpl; auto.
  unfold unsubscribe_all in *. simpl. rewrite IH.
  apply keeps_edges_subscriptions_deps.
Qed.

Lemma trace_unsubscribe_all x l : forall st,
  trace (unsubscribe_all x l st) = trace st.
Proof.
  induction l as [| d l IH]; intros st; simpl; auto.
  unfold unsubscribe_all in *. simpl. rewrite IH. reflexivity.
Qed.

Lemma computation_unsubscribe_all x l r : forall st kr comp,
  nth_error (cells st) r = Some kr -> computation kr = Some comp ->
  exists kr', nth_error (cells (unsubscribe_all x l st)) r = Some kr' /\
              computation kr' = Some comp.
Proof.
  induction l as [| d l IH]; intros st kr comp Ekr Ecomp; simpl; eauto.
  destruct (update_cell_keeps_computation d (JSSet.delete subscriber_eqb x)
              st r kr comp Ekr Ecomp) as (kr1 & Ekr1 & Ecomp1).
  eapply IH; eauto.
Qed.

Lemma cleanup_done r st u st' :
  cleanup r st = Done u st' ->
  exists kr comp, nth_error (cells st) r = Some kr /\ computation kr = Some comp /\
    st' = update_cell r (with_computation (with_dependencies (@JSSet.clear nat)))
            (unsubscribe_all (Observer r) (JSSet.elements (dependencies comp)) st).
Proof.
  unfold cleanup. intros E. apply bind_done in E.
  destruct E as (comp & st1 & Ec & E). apply the_computation_done in Ec.
  destruct Ec as [-> (kr & Ekr & Ecomp)]. exists kr, comp.
  repeat split; auto. unfold bind, modify in E. inversion E. reflexivity.
Qed.

(** The start of [execute]: the edges of the computation are removed. *)
Lemma cleanup_edges r st u st' :
  cleanup r (emit (EvExecute r) st) = Done u st' ->
  (forall s, subscribed st c s -> depends st c s) ->
  (r <> c -> edges_of_last_run c st) ->
  edges_of_last_run c st'.
Proof.
  intros E Hsub Hinv. apply cleanup_done in E.
  destruct E as (kr & comp & Ekr & Ecomp & ->).
  change (cells (emit (EvExecute r) st)) with (cells st) in Ekr.
  set (l := JSSet.elements (dependencies comp)).
  set (st0 := emit (EvExecute r) st).
  destruct (computation_unsubscribe_all (Observer r) l r st0 kr comp Ekr Ecomp)
    as (kr' & Ekr' & Ecomp').
  intros y. unfold subscribed, depends.
  rewrite subs_of_update_dependencies, deps_of_update_cell.
  rewrite subs_of_unsubscribe_all.
  change (trace (update_cell r _ (unsubscribe_all (Observer r) l st0)))
    with (trace (unsubscribe_all (Observer r) l st0)).
  rewrite trace_unsubscribe_all. unfold st0 at 3. cbn [emit trace last_reads].
  rewrite Ekr'. cbn [with_computation computation option_map]. rewrite Ecomp'.
  cbn [with_dependencies dependencies].
  rewrite deps_of_unsubscribe_all.
  change (subs_of st0 y) with (subs_of st y).
  change (deps_of st0 c) with (deps_of st c).
  destruct (Nat.eqb c r) eqn:Ecr.
  - apply Nat.eqb_eq in Ecr. subst r. split.
    + split; [intros Hin; apply In_clear in Hin; contradiction | intros []].
    + split.
      * intros [Hin Hne]. exfalso. apply Hne; auto.
        apply Hsub in Hin. unfold depends, deps_of in Hin.
        rewrite Ekr, Ecomp in Hin. unfold l. apply In_elements. assumption.
      * intros Hin. apply In_clear in Hin. contradiction.
  - apply Nat.eqb_neq in Ecr. destruct (Hinv (not_eq_sym Ecr) y) as [Hd Hs].
    unfold subscribed, depends in Hd, Hs. split; auto. split.
    + intros [Hin _]. apply Hs. assumption.
    + intros Hin. split; [apply Hs; assumption | intros _ E; congruence].
Qed.

Lemma preserves_start r :
  preserves (modify (emit (EvExecute r)) ;;; cleanup r).
Proof.
  intros st u st' E Hinv. apply bind_done in E. destruct E as (u0 & st1 & E1 & E).
  apply modify_done in E1. subst st1.
  eapply cleanup_edges; eauto. intros s. apply Hinv.
Qed.

(** The four functions that call each other. *)
Lemma calls_preserve (fuel : nat) :
  (forall s i change fr, preserves (stale_from fuel s i change fr)) /\
  (forall r change fr, preserves (Computation_stale fuel r change fr)) /\
  (forall r, preserves (execute fuel r)) /\
  (forall s v, preserves (set fuel s v)).
Proof.
  induction fuel as [| fuel (IHstale & IHcomp & IHexec & IHset)].
  - split; [| split; [| split]]; intros; apply preserves_timeout.
  - split; [| split; [| split]].
    + intros s i change fr. rewrite stale_from_S.
      apply preserves_bind; [apply preserves_cell | intros k].
      destruct (nth_error (subscriptions k) i) as [[[r | f] |] |];
        try apply preserves_ret; auto.
      apply preserves_bind; auto.
    + intros r change fr. rewrite Computation_stale_S.
      apply preserves_bind;
        [apply preserves_modify; intros; apply same_edges_stale | intros _].
      apply preserves_bind; [apply preserves_the_computation | intros k].
      apply preserves_if; [apply preserves_ret |].
      apply preserves_bind;
        [apply preserves_if; [auto | apply preserves_ret] | intros _].
      apply preserves_bind; [apply preserves_the_computation | intros k1].
      apply preserves_bind;
        [apply preserves_modify; intros; apply same_edges_update,
           keeps_edges_waiting | intros _].
      apply preserves_bind; [apply preserves_the_computation | intros k2].
      apply preserves_bind;
        [apply preserves_modify; intros; apply same_edges_update,
           keeps_edges_fresh | intros _].
      apply preserves_bind; [apply preserves_the_computation | intros k3].
      apply preserves_if; [| apply preserves_ret].
      apply preserves_bind;
        [apply preserves_modify; intros; apply same_edges_update,
           keeps_edges_waiting | intros _].
      apply preserves_bind;
        [apply preserves_if; [auto | apply preserves_ret] | intros _].
      auto.
    + intros r. rewrite execute_S.
      intros st u st' E. apply bind_done in E. destruct E as (u0 & st1 & E1 & E).
      apply bind_done in E. destruct E as (u1 & st2 & E2 & E).
      intros Hinv.
      assert (Hinv2 : edges_of_last_run c st2).
      { eapply (preserves_start r); eauto. unfold bind. rewrite E1. exact E2. }
      clear E2. revert st2 u st' E Hinv2.
      change (preserves
        (modify (with_context (cons r)) ;;;
         modify (update_cell r (with_computation (with_waiting 0%Z))) ;;;
         modify (update_cell r (with_computation (with_fresh false))) ;;;
         k <- the_computation r ;;
         v <- run (fn k) ;;
         set fuel r v ;;;
         modify (with_context (@tl nat)))).
      apply preserves_bind;
        [apply preserves_modify; intros; apply same_edges_context | intros _].
      apply preserves_bind;
        [apply preserves_modify; intros; apply same_edges_update,
           keeps_edges_waiting | intros _].
      apply preserves_bind;
        [apply preserves_modify; intros; apply same_edges_update,
           keeps_edges_fresh | intros _].
      apply preserves_bind; [apply preserves_the_computation | intros k].
      apply preserves_bind; [apply preserves_run | intros v].
      apply preserves_bind; [auto | intros _].
      apply preserves_modify; intros; apply same_edges_context.
    + intros s v. rewrite set_S.
      apply preserves_bind; [apply preserves_cell | intros k].
      apply preserves_if; [apply preserves_ret |].
      apply preserves_bind;
        [apply preserves_modify; intros; apply same_edges_update,
           keeps_edges_value | intros _].
      apply preserves_bind; [auto | intros _].
      apply preserves_bind; [auto | intros _].
      apply preserves_modify; intros; apply same_edges_immediate.
Qed.
End EdgesOfRuns.



(** ** Creating a computation *)

Lemma list_update_app_last {A : Type} (f : A -> A) (pre : list A) (x : A) :
  list_update (List.length pre) f (pre ++ [x]) = (pre ++ [f x])%list.
Proof. induction pre as [| y pre IH]; simpl; congruence. Qed.

Lemma list_update_app_front {A : Type} (f : A -> A) (pre : list A) (x : A) (i : nat) :
  i < List.length pre ->
  list_update i f (pre ++ [x]) = (list_update i f pre ++ [x])%list.
Proof.
  revert i. induction pre as [| y pre IH]; intros i Hi; simpl in *; [lia |].
  destruct i; simpl; auto. rewrite IH by lia. reflexivity.
Qed.

Lemma nth_error_app_last {A : Type} (pre : list A) (x : A) :
  nth_error (pre ++ [x]) (List.length pre) = Some x.
Proof. induction pre; simpl; auto. Qed.

Lemma nth_error_app_front {A : Type} (pre : list A) (x : A) (i : nat) :
  i < List.length pre -> nth_error (pre ++ [x]) i = nth_error pre i.
Proof.
  revert i. induction pre as [| y pre IH]; intros i Hi; simpl in *; [lia |].
  destruct i; simpl; auto. apply IH. lia.
Qed.

Section Creation.
Context {V : Type} `{JSValue V}.

Implicit Types st : Store V.


Lemma peek_pre st0 pre s :
  map (@value V) pre = map (@value V) (cells st0) ->
  s < List.length pre ->
  exists k, nth_error pre s = Some k /\ value k = peek st0 s.
Proof.
  intros Hmap Hs. destruct (nth_error pre s) as [k |] eqn:Ek.
  - exists k. split; auto. unfold peek.
    assert (E : nth_error (map (@value V) pre) s = Some (value k))
      by (rewrite nth_error_map, Ek; reflexivity).
    rewrite Hmap, nth_error_map in E.
    destruct (nth_error (cells st0) s); simpl in E; congruence.
  - apply nth_error_None in Ek. lia.
Qed.

Lemma map_value_add_subscriber (pre : list (Signal V)) s g :
  map (@value V) (list_update s (with_subscriptions g) pre) = map (@value V) pre.
Proof.
  revert s. induction pre as [| k pre IH]; intros [| s]; simpl; auto.
  rewrite IH. reflexivity.
Qed.

Lemma run_first st0 f p : forall done st,
  running_first st0 f done st ->
  in_scope (peek st0) (List.length (cells st0)) p ->
  exists st', run p st = Done (returns (peek st0) p) st' /\
              running_first st0 f (done ++ reads (peek st0) p) st'.
Proof.
  set (c := List.length (cells st0)).
  induction p as [v | s k IH | s k IH]; intros done st Hst Hscope; simpl.
  - exists st. rewrite app_nil_r. auto.
  - destruct Hscope as [Hs Hscope].
    destruct Hst as [(pre & kc & comp & Ecells & Elen & Evals & Esubs & Ecomp
                      & Efn & Hedges) Ectx Eimm Etr].
    destruct (peek_pre st0 pre s Evals) as (ks & Eks & Evalue);
      [unfold c in Hs; lia |].
    assert (Ecell_s : nth_error (cells st) s = Some ks)
      by (rewrite Ecells, nth_error_app_front by (unfold c in Hs; lia); auto).
    assert (Ecell_c : nth_error (cells st) c = Some kc)
      by (rewrite Ecells; unfold c; rewrite <- Elen; apply nth_error_app_last).
    assert (Eget : get s st = Done (peek st0 s)
              (emit (EvRead c s (peek st0 s))
                 (update_cell c
                    (with_computation (with_dependencies (JSSet.add Nat.eqb s)))
                    (update_cell s
                       (with_subscriptions
                          (JSSet.add subscriber_eqb (Observer c))) st)))).
    { unfold get, bind, cell, gets, the_computation, bind, cell, lift_option.
      rewrite Ecell_s. simpl. rewrite Ectx. fold c. rewrite Ecell_c. simpl.
      rewrite Ecomp. simpl. rewrite Evalue. reflexivity. }
    unfold bind. rewrite Eget.
    match goal with |- context [run _ ?st1] => set (st' := st1) end.
    destruct (IH (peek st0 s) (done ++ [s])%list st') as (st2 & Erun & Hst2);
      auto.
    + assert (Ecells' : cells st' =
                (list_update s (with_subscriptions
                     (JSSet.add subscriber_eqb (Observer c))) pre
                 ++ [with_computation
                       (with_dependencies (JSSet.add Nat.eqb s)) kc])%list).
      { unfold st', emit, update_cell, with_cells. simpl. rewrite Ecells.
        rewrite list_update_app_front by (unfold c in Hs; lia).
        replace c with (List.length (list_update s
          (with_subscriptions (JSSet.add subscriber_eqb (Observer c))) pre))
          at 1 by (rewrite length_list_update; exact Elen).
        apply list_update_app_last. }
      constructor.
      * exists (list_update s (with_subscriptions
                  (JSSet.add subscriber_eqb (Observer c))) pre),
          (with_computation (with_dependencies (JSSet.add Nat.eqb s)) kc),
          (with_dependencies (JSSet.add Nat.eqb s) comp).
        split; [exact Ecells' |].
        split; [rewrite length_list_update; exact Elen |].
        split; [rewrite map_value_add_subscriber; exact Evals |].
        split; [exact Esubs |].
        split; [simpl; rewrite Ecomp; reflexivity |].
        split; [exact Efn |].
        intros y Hy. fold c. apply in_app_iff in Hy.
        unfold st'. rewrite subs_of_emit, subs_of_update_dependencies.
        rewrite (subs_of_add_subscriber c s st ks Ecell_s). simpl.
        rewrite (In_add Nat.eqb Nat.eqb_eq).
        destruct (Nat.eqb y s) eqn:Eys.
        -- apply Nat.eqb_eq in Eys. subst y.
           rewrite (In_add subscriber_eqb subscriber_eqb_eq). auto.
        -- apply Nat.eqb_neq in Eys. destruct Hy as [Hy | [Hy | []]];
             [| congruence]. destruct (Hedges y Hy). auto.
      * exact Ectx.
      * exact Eimm.
      * unfold st'. cbn [trace emit update_cell with_cells].
        rewrite Etr, map_app, rev_app_distr. reflexivity.
    + exists st2. split; auto. rewrite <- app_assoc in Hst2. exact Hst2.
  - destruct Hscope as [Hs Hscope].
    assert (Hst' := Hst).
    destruct Hst' as [(pre & kc & comp & Ecells & Elen & Evals & _) _ _ _].
    destruct (peek_pre st0 pre s Evals) as (ks & Eks & Evalue); [lia |].
    assert (Ecell_s : nth_error (cells st) s = Some ks)
      by (rewrite Ecells, nth_error_app_front by lia; auto).
    unfold bind, snapshot, bind, cell, lift_option. rewrite Ecell_s. simpl.
    rewrite Evalue. apply IH; auto.
Qed.
Lemma bind_modify {A : Type} (g : Store V -> Store V) (k : unit -> M A) st :
  bind (modify g) k st = k tt (g st).
Proof. reflexivity. Qed.

Lemma bind_eval {A B : Type} (m : M A) (k : A -> M B) st a st' :
  m st = Done a st' -> bind m k st = k a st'.
Proof. unfold bind. intros ->. reflexivity. Qed.

Lemma cell_eval s st k :
  nth_error (cells st) s = Some k -> cell s st = Done k st.
Proof. unfold cell, lift_option. intros ->. reflexivity. Qed.

Lemma the_computation_eval c st k comp :
  nth_error (cells st) c = Some k -> computation k = Some comp ->
  the_computation c st = Done comp st.
Proof.
  intros Ek Ec. unfold the_computation.
  rewrite (bind_eval _ _ _ _ _ (cell_eval _ _ _ Ek)).
  unfold lift_option. rewrite Ec. reflexivity.
Qed.
End Creation.

(** C9.  [createComputation(fn)] runs [fn] once, with the new computation
    on top of the tracking stack: the history gains the start of that one
    run and the reads of [fn], in order; [snapshot] then answers what [fn]
    returned (or a value [Object.is] identifies with it, when that is
    [undefined] itself); and every cell [fn] read has the computation
    among its subscribers and is among its dependencies.  (Asked of [fn]:
    it reads cells that exist.) *)
Theorem createComputation_runs_once {V : Type} (I : JSValue V)
    (fuel : nat) (f : tracked V) (st : Store V) :
  in_scope (peek st) (List.length (cells st)) f ->
  exists st',
    createComputation (3 + fuel) f st = Done (List.length (cells st)) st' /\
    trace st' =
      (rev (EvExecute (List.length (cells st))
            :: map (fun s => EvRead (List.length (cells st)) s (peek st s))
                   (reads (peek st) f))
       ++ trace st)%list /\
    (exists a, snapshot (List.length (cells st)) st' = Done a st' /\
               current a (returns (peek st) f)) /\
    (forall s, In s (reads (peek st) f) ->
               subscribed st' (List.length (cells st)) s /\
               depends st' (List.length (cells st)) s) /\
    context st' = context st.
Proof.
  intros Hscope. set (c := List.length (cells st)).
  set (comp0 := {| fn := f; waiting := 0%Z; fresh := false;
                   dependencies := [] |} : Computation V).
  set (k0 := {| value := undefined; subscriptions := [];
                computation := Some comp0 |} : Signal V).
  set (st0 := {| cells := (cells st ++ [k0])%list; context := context st;
                 immediate := immediate st; trace := trace st |}).
  set (st1 := {| cells := (cells st ++ [k0])%list; context := c :: context st;
                 immediate := immediate st;
                 trace := EvExecute c :: trace st |}).
  assert (Hst1 : running_first st f [] st1).
  { constructor; try reflexivity.
    exists (cells st), k0, comp0. repeat split; auto; contradiction. }
  destruct (run_first st f f [] st1 Hst1 Hscope) as (st2 & Erun & Hst2).
  simpl in Hst2.
  destruct Hst2 as [(pre & kc & comp & Ecells & Elen & Evals & Esubs & Ecomp
                     & Efn & Hedges) Ectx Eimm Etr].
  fold c in Elen, Hedges, Ectx, Etr.
  assert (Ecell_c : nth_error (cells st2) c = Some kc)
    by (rewrite Ecells, <- Elen; apply nth_error_app_last).
  assert (Ek0 : nth_error (cells st0) c = Some k0) by apply nth_error_app_last.
  assert (Ecreate : createComputation (3 + fuel) f st =
                    (execute (3 + fuel) c ;;; ret c) st0).
  { unfold createComputation.
    rewrite (bind_eval _ _ st c
               (with_cells (fun l => (l ++ [{| value := undefined;
                                               subscriptions := [];
                                               computation := None |}])%list) st))
      by reflexivity.
    rewrite bind_modify. f_equal.
    unfold update_cell, with_cells, st0. cbn [cells context immediate trace].
    f_equal. apply list_update_app_last. }
  assert (Eupd : forall g : Computation V -> Computation V,
            g comp0 = comp0 ->
            forall ctx tr,
              update_cell c (with_computation g)
                {| cells := (cells st ++ [k0])%list; context := ctx;
                   immediate := immediate st; trace := tr |} =
              {| cells := (cells st ++ [k0])%list; context := ctx;
                 immediate := immediate st; trace := tr |}).
  { intros g Hg ctx tr. unfold update_cell, with_cells.
    cbn [cells context immediate trace]. f_equal.
    unfold c. rewrite list_update_app_last. unfold k0, with_computation. simpl.
    rewrite Hg. reflexivity. }
  assert (Estart : execute (3 + fuel) c st0 =
            (v <- run f ;; set (2 + fuel) c v ;;;
             modify (with_context (@tl nat))) st1).
  { simpl plus. rewrite execute_S. rewrite bind_modify.
    assert (Eclean : cleanup c (emit (EvExecute c) st0) =
                     Done tt (emit (EvExecute c) st0)).
    { unfold cleanup.
      rewrite (bind_eval _ _ _ _ _
                 (the_computation_eval c (emit (EvExecute c) st0) k0 comp0
                    Ek0 eq_refl)).
      rewrite bind_modify. unfold modify. f_equal.
      unfold comp0 at 1. cbn [dependencies JSSet.elements flat_map fold_left].
      unfold emit, st0. cbn [cells context immediate trace].
      apply Eupd. reflexivity. }
    rewrite (bind_eval _ _ _ _ _ Eclean). rewrite !bind_modify.
    unfold emit, with_context, st0. cbn [cells context immediate trace].
    rewrite !Eupd by reflexivity.
    fold st1.
    rewrite (bind_eval _ _ _ _ _
               (the_computation_eval c st1 k0 comp0 Ek0 eq_refl)).
    reflexivity. }
  assert (Hset : exists st3,
            set (2 + fuel) c (returns (peek st) f) st2 = Done tt st3 /\
            trace st3 = trace st2 /\ context st3 = context st2 /\
            (forall y, subs_of st3 y = subs_of st2 y) /\
            (forall y, deps_of st3 y = deps_of st2 y) /\
            exists a, snapshot c st3 = Done a st3 /\
                      current a (returns (peek st) f)).
  { simpl plus. rewrite set_S.
    rewrite (bind_eval _ _ _ _ _ (cell_eval c st2 kc Ecell_c)).
    destruct (Object_is (value kc) (returns (peek st) f)) eqn:Eis.
    - exists st2. repeat split; auto. exists (value kc). split.
      + unfold snapshot.
        rewrite (bind_eval _ _ _ _ _ (cell_eval c _ kc Ecell_c)). reflexivity.
      + right. exact Eis.
    - set (st2' := update_cell c (with_value (returns (peek st) f)) st2).
      assert (Ecell_c' : nth_error (cells st2') c
                         = Some (with_value (returns (peek st) f) kc)).
      { unfold st2', update_cell, with_cells. simpl.
        rewrite nth_error_list_update. rewrite Nat.eqb_refl, Ecell_c. reflexivity. }
      assert (Estale : forall change fr,
                stale_from (S fuel) c 0 change fr st2' = Done tt st2').
      { intros change fr. rewrite stale_from_S.
        rewrite (bind_eval _ _ _ _ _ (cell_eval c _ _ Ecell_c')).
        cbn [with_value subscriptions]. rewrite Esubs. reflexivity. }
      rewrite bind_modify. fold st2'.
      rewrite (bind_eval _ _ _ _ _ (Estale _ _)).
      rewrite (bind_eval _ _ _ _ _ (Estale _ _)).
      exists (with_immediate (fun q => (q ++ [c])%list) st2').
      split; [reflexivity |].
      split; [reflexivity |]. split; [reflexivity |].
      split; [intros y;
              change (subs_of (with_immediate _ ?x) y) with (subs_of x y);
              apply keeps_edges_subs, keeps_edges_value |].
      split; [intros y;
              change (deps_of (with_immediate _ ?x) y) with (deps_of x y);
              apply keeps_edges_deps, keeps_edges_value |].
      exists (returns (peek st) f). split; [| left; reflexivity].
      unfold snapshot, bind, cell, lift_option. cbn [cells with_immediate].
      rewrite Ecell_c'. reflexivity. }
  destruct Hset as (st3 & Eset & Etr3 & Ectx3 & Hsubs3 & Hdeps3 & a & Esnap & Ha).
  assert (Eexec : execute (3 + fuel) c st0 = Done tt (with_context (@tl nat) st3)).
  { rewrite Estart. rewrite (bind_eval _ _ _ _ _ Erun).
    rewrite (bind_eval _ _ _ _ _ Eset). reflexivity. }
  exists (with_context (@tl nat) st3).
  split; [rewrite Ecreate, (bind_eval _ _ _ _ _ Eexec); reflexivity |].
  split.
  { change (trace (with_context (@tl nat) st3)) with (trace st3).
    rewrite Etr3, Etr. simpl. rewrite <- app_assoc. reflexivity. }
  split.
  { exists a. split; auto. unfold snapshot in *.
    unfold bind, cell in *. cbn [cells with_context].
    destruct (lift_option (nth_error (cells st3) c) st3) as [k st4 | |] eqn:E;
      try discriminate.
    unfold lift_option in E. destruct (nth_error (cells st3) c); inversion E.
    subst. simpl. unfold ret in *. inversion Esnap. reflexivity. }
  split.
  { intros s Hs. destruct (Hedges s Hs) as [Hsub Hdep]. split.
    - unfold subscribed.
      change (subs_of (with_context _ st3) s) with (subs_of st3 s).
      rewrite Hsubs3. exact Hsub.
    - unfold depends.
      change (deps_of (with_context _ st3) c) with (deps_of st3 c).
      rewrite Hdeps3. unfold deps_of. rewrite Ecell_c, Ecomp. exact Hdep. }
  change (context (with_context (@tl nat) st3)) with (tl (context st3)).
  rewrite Ectx3, Ectx. reflexivity.
Qed.

(** The theorem on a signal that holds 1 and the computation that reads
    it. *)
Lemma createComputation_runs_once_witness :
  in_scope (peek one_signal) 1 (identity_of 0) /\
  exists st',
    createComputation 3 (identity_of 0) one_signal = Done 1 st' /\
    trace st' = [EvRead 1 0 (JNum 1); EvExecute 1].
Proof.
  assert (Hscope : in_scope (peek one_signal) (List.length (cells one_signal))
                     (identity_of 0))
    by (simpl; lia).
  split; [exact Hscope |].
  destruct (createComputation_runs_once jsval_JSValue 0 (identity_of 0)
              one_signal Hscope) as (st' & Hc & Htr & _).
  exists st'. split; [exact Hc | exact Htr].
Defined.

(** Leaves of a run: the facts asked of a history that is known. *)
Ltac new_events :=
  lazymatch goal with
  | |- exists new, trace ?st' = (new ++ trace ?st)%list /\ _ =>
      let n := eval vm_compute in
                 (firstn (List.length (trace st') - List.length (trace st))
                         (trace st')) in
      exists n; split; [vm_compute; reflexivity | ]
  end.

Ltac is_member :=
  simpl; repeat first [left; reflexivity | right].

Ltac is_current :=
  first [ left; reflexivity | right; assumption ].





(** ** The flattener: conditions *)

Section Conditions.
Context `{Platform} `{Cascade}.

(** The conditions check changes [pseudoClasses] only, and does so
    before any test runs. *)
Lemma conditions_metadata styleMeta flatMeta ctx w ok m' w' :
  conditions styleMeta flatMeta ctx w = Done (ok, m') w' ->
  m' = match StyleMeta.pseudoClasses styleMeta with
       | Some pseudo =>
           StyleMeta.with_pseudoClasses
             (Some (spread_pseudoClasses pseudo
                      (StyleMeta.pseudoClasses flatMeta))) flatMeta
       | None => flatMeta
       end.
Proof.
  unfold conditions. intros E. apply bind_done in E.
  destruct E as ([ok1 m1] & w1 & E1 & E).
  assert (Em1 : m1 = match StyleMeta.pseudoClasses styleMeta with
                     | Some pseudo =>
                         StyleMeta.with_pseudoClasses
                           (Some (spread_pseudoClasses pseudo
                                    (StyleMeta.pseudoClasses flatMeta))) flatMeta
                     | None => flatMeta
                     end).
  { destruct (StyleMeta.pseudoClasses styleMeta).
    - apply bind_done in E1. destruct E1 as (b & w2 & _ & E1).
      inversion E1. reflexivity.
    - inversion E1. reflexivity. }
  rewrite <- Em1. clear Em1 E1. simpl in E.
  destruct (negb ok1); [inversion E; reflexivity |].
  apply bind_done in E. destruct E as (ok2 & w2 & _ & E).
  destruct (negb ok2); [inversion E; reflexivity |].
  apply bind_done in E. destruct E as (c & w3 & _ & E).
  apply bind_done in E. destruct E as (ok3 & w4 & _ & E).
  inversion E. reflexivity.
Qed.
End Conditions.




(** ** The flattener: metadata *)

Section Objects.
Context {A : Type}.

Lemma lookup_assign (key k : string) (v : A) (o : JSObject.t A) :
  JSObject.lookup key (JSObject.assign k v o) =
    if String.eqb key k then Some v else JSObject.lookup key o.
Proof.
  induction o as [| [k' v'] o IH]; simpl.
  - destruct (String.eqb key k); reflexivity.
  - destruct (String.eqb k k') eqn:Ek; simpl.
    + apply String.eqb_eq in Ek. subst k'.
      destruct (String.eqb key k); reflexivity.
    + rewrite IH. destruct (String.eqb key k) eqn:E; auto.
      apply String.eqb_eq in E. subst key. rewrite Ek. reflexivity.
Qed.

Lemma lookup_not_in (key : string) (o : JSObject.t A) :
  ~ In key (map fst o) -> JSObject.lookup key o = None.
Proof.
  induction o as [| [k v] o IH]; simpl; auto. intros Hnin.
  destruct (String.eqb key k) eqn:E.
  - apply String.eqb_eq in E. subst. exfalso. auto.
  - apply IH. auto.
Qed.

Lemma lookup_spread (key : string) (b : JSObject.t A) : forall a,
  NoDup (map fst b) ->
  JSObject.lookup key (JSObject.spread a b) =
    match JSObject.lookup key b with
    | Some v => Some v
    | None => JSObject.lookup key a
    end.
Proof.
  unfold JSObject.spread.
  induction b as [| [k v] b IH]; intros a Hnd; simpl; auto.
  inversion Hnd as [| ? ? Hnin Hnd']; subst.
  rewrite IH by assumption. rewrite lookup_assign.
  destruct (String.eqb key k) eqn:E; auto.
  apply String.eqb_eq in E. subst key.
  rewrite (lookup_not_in k b Hnin). reflexivity.
Qed.
End Objects.

Section Metadata.
Context `{Platform} `{Cascade}.

Lemma spread_onto_first_wins (a : JSObject.t jsval)
    (old : option (JSObject.t jsval)) :
  distinct_keys old ->
  first_wins old (Some a) (Some (spread_onto a old)).
Proof.
  intros Hnd key. destruct old as [b |]; simpl.
  - apply lookup_spread. assumption.
  - reflexivity.
Qed.

Lemma with_variables_twice {X : Type} (a b : option (JSObject.t X))
    (m : StyleMeta.t X) :
  StyleMeta.with_variables a (StyleMeta.with_variables b m) =
  StyleMeta.with_variables a m.
Proof. reflexivity. Qed.

Lemma with_variables_same {X : Type} (m : StyleMeta.t X) :
  StyleMeta.with_variables (StyleMeta.variables m) m = m.
Proof. destruct m. reflexivity. Qed.

(** The loop over the variables of a fragment defines the names the
    accumulator lacks and leaves the others, and the rest of the
    metadata, as they were. *)
Lemma flatten_variables_keeps fuel entries flatStyle ctx options :
  forall meta w meta' w',
    flatten_variables fuel entries flatStyle meta ctx options w = Done meta' w' ->
    meta' = StyleMeta.with_variables (StyleMeta.variables meta') meta /\
    (forall key g, field key (StyleMeta.variables meta) = Some g ->
                   field key (StyleMeta.variables meta') = Some g).
Proof.
  induction entries as [| [k v] entries IH]; intros meta w meta' w' E; simpl in E.
  - inversion E. subst. split; auto. symmetry. apply with_variables_same.
  - destruct (JSObject.has k match StyleMeta.variables meta with
                              | Some vars => vars
                              | None => []
                              end) eqn:Ehas.
    + eapply IH; eauto.
    + apply bind_done in E. destruct E as (g1 & w1 & _ & E).
      apply IH in E. destruct E as [Emeta Hkeep]. split.
      * rewrite Emeta at 1. apply with_variables_twice.
      * intros key g Hkey. apply Hkeep. simpl. rewrite lookup_assign.
        destruct (String.eqb key k) eqn:Ek.
        -- apply String.eqb_eq in Ek. subst key. unfold JSObject.has in Ehas.
           unfold field in Hkey. destruct (StyleMeta.variables meta);
             [rewrite Hkey in Ehas |]; discriminate.
        -- unfold field in Hkey. destruct (StyleMeta.variables meta);
             [exact Hkey | discriminate].
Qed.

Lemma merge_container_names c old :
  ExtractedContainer.names (merge_container c old) =
    match ExtractedContainer.names c with
    | Some n => Some n
    | None => match old with
              | Some f => ExtractedContainer.names f
              | None => Some []
              end
    end.
Proof.
  unfold merge_container.
  destruct (ExtractedContainer.names c), (ExtractedContainer.type c) as [t |],
    old; simpl; try destruct (String.eqb t ""); reflexivity.
Qed.
End Metadata.




(** ** The variable chain *)

(** C6, as amended.  With a value [d] in the default scope and a value
    [p] in the parent context, a child context that sets nothing reads
    [d]: the default scope is asked before the parent.  With nothing in
    the default scope the child reads the parent's [p].  After the parent
    is cleaned up, a fresh context with no parent reads the default
    scope. *)
Theorem variable_falls_back_to_default_then_parent (d p : Q) :
  (exists w, gap_scenario (JNum d) (JNum p) example_world
             = Done (JNum d, JNum d) w) /\
  (exists w, gap_scenario JUndefined (JNum p) example_world
             = Done (JNum p, JUndefined) w).
Proof.
  split; eexists; vm_compute; reflexivity.
Qed.

(** C6, as stated, fails: with 4 in the default scope and 8 in the
    parent, the child reads 4. *)
Lemma child_reads_default_scope :
  exists w, gap_scenario (JNum 4) (JNum 8) example_world = Done (JNum 4, JNum 4) w /\
            JNum 4 <> JNum 8.
Proof.
  eexists. split; [vm_compute; reflexivity | discriminate].
Qed.

(** ** The resolver *)

Section ResolverFacts.
Context `{Platform}.

Lemma extractValue_var fuel arguments flatStyle flatStyleMeta context options :
  extractValue (S fuel) (JRuntime "var" arguments) flatStyle flatStyleMeta
    context options =
  (let name := ToString (nth 0 arguments JUndefined) in
   declared <-
     match StyleMeta.variables flatStyleMeta with
     | Some vars =>
         match JSObject.lookup name vars with
         | Some (Getter g) =>
             invoke fuel g flatStyle flatStyleMeta context options
         | Some (Value v) => ret v
         | None => ret JUndefined
         end
     | None => ret JUndefined
     end ;;
   variable <-
     (if nullish declared then
        x <- variables_get fuel context name ;;
        CSSVariableSignal_get x
      else
        match declared with
        | JObj o => if JSObject.has "get" o then throw else ret declared
        | _ => ret declared
        end) ;;
   ret (Getter (VarGetter variable))).
Proof. reflexivity. Qed.

Lemma extractValue_vh fuel arguments flatStyle flatStyleMeta context options :
  extractValue (S fuel) (JRuntime "vh" arguments) flatStyle flatStyleMeta
    context options =
  (v <- on_store (get vh) ;;
   ret (Value (round (js_mul (js_div100 v) (nth 0 arguments JUndefined))))).
Proof. reflexivity. Qed.

Lemma extractValue_vw fuel arguments flatStyle flatStyleMeta context options :
  extractValue (S fuel) (JRuntime "vw" arguments) flatStyle flatStyleMeta
    context options =
  (v <- on_store (get vw) ;;
   ret (Value (round (js_mul (js_div100 v) (nth 0 arguments JUndefined))))).
Proof. reflexivity. Qed.

Lemma extractValue_rem fuel arguments flatStyle flatStyleMeta context options :
  extractValue (S fuel) (JRuntime "rem" arguments) flatStyle flatStyleMeta
    context options =
  (v <- on_store (get rem) ;;
   ret (Value (round (js_mul v (nth 0 arguments JUndefined))))).
Proof. reflexivity. Qed.

Lemma extractValue_em fuel arguments flatStyle flatStyleMeta context options :
  extractValue (S fuel) (JRuntime "em" arguments) flatStyle flatStyleMeta
    context options =
  ret (Getter (EmGetter (nth 0 arguments JUndefined))).
Proof. reflexivity. Qed.

Lemma extractValue_ch fuel arguments flatStyle flatStyleMeta context options :
  extractValue (S fuel) (JRuntime "ch" arguments) flatStyle flatStyleMeta
    context options =
  (reference <-
     match ch options with
     | Some q => if Qeq_bool q 0 then
                   s <- interaction_get context "layoutHeight" ;;
                   on_store (get s)
                 else ret (JNum q)
     | None => s <- interaction_get context "layoutHeight" ;;
               on_store (get s)
     end ;;
   if truthy reference
   then ret (Value (round (js_mul reference (nth 0 arguments JUndefined))))
   else ret (Getter (ChGetter (nth 0 arguments JUndefined)))).
Proof. reflexivity. Qed.

Lemma extractValue_cw fuel arguments flatStyle flatStyleMeta context options :
  extractValue (S fuel) (JRuntime "cw" arguments) flatStyle flatStyleMeta
    context options =
  (reference <-
     match cw options with
     | Some q => if Qeq_bool q 0 then
                   s <- interaction_get context "layoutWidth" ;;
                   on_store (get s)
                 else ret (JNum q)
     | None => s <- interaction_get context "layoutWidth" ;;
               on_store (get s)
     end ;;
   if truthy reference
   then ret (Value (round (js_mul reference (nth 0 arguments JUndefined))))
   else ret (Getter (CwGetter (nth 0 arguments JUndefined)))).
Proof. reflexivity. Qed.

Lemma invoke_S fuel g flatStyle flatStyleMeta context options :
  invoke (S fuel) g flatStyle flatStyleMeta context options =
  match g with
  | VarGetter variable =>
      resolvedValue <- extractValue fuel variable flatStyle flatStyleMeta
                         context options ;;
      match resolvedValue with
      | Getter g' => invoke fuel g' flatStyle flatStyleMeta context options
      | Value v => ret v
      end
  | EmGetter multiplier =>
      match JSObject.lookup "fontSize" flatStyle with
      | None => ret JUndefined
      | Some p =>
          fontSize <-
            match p with
            | Accessor (Getter g') =>
                invoke fuel g' flatStyle flatStyleMeta context options
            | Accessor (Value v) => ret v
            | DataValue v => ret v
            | DataObject _ => ret (JObj [])
            | DataArray _ => ret (JArr [])
            end ;;
          ret (round (js_mul (if truthy fontSize then fontSize else JNum 0)
                             multiplier))
      end
  | ChGetter multiplier =>
      s <- interaction_get context "layoutHeight" ;;
      reference <- on_store (get s) ;;
      ret (round (js_mul reference multiplier))
  | CwGetter multiplier =>
      s <- interaction_get context "layoutWidth" ;;
      reference <- on_store (get s) ;;
      ret (round (js_mul reference multiplier))
  | valueFn name args o =>
      resolved <-
        (fix each (l : list getterOrValue) : W (list jsval) :=
           match l with
           | [] => ret []
           | Getter a :: l' =>
               v <- invoke fuel a flatStyle flatStyleMeta context options ;;
               vs <- each l' ;;
               ret (v :: vs)
           | Value v :: l' =>
               vs <- each l' ;;
               ret (v :: vs)
           end) args ;;
      finish name o resolved
  end.
Proof. reflexivity. Qed.
End ResolverFacts.



Lemma hundredth_of (z : Z) : (inject_Z z / 100 == z # 100)%Q.
Proof. unfold Qeq, Qdiv, Qmult, Qinv, inject_Z. simpl. lia. Qed.

Lemma round_nearest (x : jsval) : nearest_hundredth x (round x).
Proof.
  destruct x as [| b | q | | s | name arguments | l | o]; try reflexivity.
  unfold nearest_hundredth, round, Math_round.
  exists (Qfloor ((q + EPSILON) * 100 + (1 # 2))).
  split.
  - f_equal. apply Qred_complete. apply hundredth_of.
  - pose proof (Qfloor_le ((q + EPSILON) * 100 + (1 # 2))) as Hle.
    pose proof (Qlt_floor ((q + EPSILON) * 100 + (1 # 2))) as Hlt.
    set (z := Qfloor ((q + EPSILON) * 100 + (1 # 2))) in *.
    rewrite inject_Z_plus in Hlt.
    assert (Ez : (z # 100 == inject_Z z * (1 # 100))%Q)
      by (unfold Qeq, Qmult, inject_Z; simpl; lia).
    rewrite Ez. change (inject_Z 1) with 1%Q in Hlt.
    split; lra.
Qed.

Lemma round_rounded (x : jsval) : rounded (round x).
Proof. exists x. split; [reflexivity | apply round_nearest]. Qed.

Section Units.
Context `{Platform}.

(** Calling the accessor of a unit conversion. *)
Lemma invoke_unit fuel h flatStyle flatStyleMeta context options w v w' :
  (exists m, h = EmGetter m \/ h = ChGetter m \/ h = CwGetter m) ->
  invoke fuel h flatStyle flatStyleMeta context options w = Done v w' ->
  v = JUndefined \/ rounded v.
Proof.
  intros (m & Hh) E. destruct fuel as [| fuel]; [discriminate |].
  rewrite invoke_S in E. destruct Hh as [-> | [-> | ->]].
  - destruct (JSObject.lookup "fontSize" flatStyle) as [p |].
    + apply bind_done in E. destruct E as (fontSize & w1 & _ & E).
      inversion E. right. apply round_rounded.
    + inversion E. left. reflexivity.
  - apply bind_done in E. destruct E as (s & w1 & _ & E).
    apply bind_done in E. destruct E as (reference & w2 & _ & E).
    inversion E. right. apply round_rounded.
  - apply bind_done in E. destruct E as (s & w1 & _ & E).
    apply bind_done in E. destruct E as (reference & w2 & _ & E).
    inversion E. right. apply round_rounded.
Qed.
End Units.



(** ** Omitted properties *)




(** A [fontScaleSelect] with no argument reads a property of [undefined]:
    the flatten pass raises. *)
Remark fontScaleSelect_without_argument_raises :
  flattenStyle (H := example_platform) (H0 := example_cascade) 3
    (Single malformed) 0 no_options empty_flat one_context = Throws.
Proof. vm_compute. reflexivity. Qed.

(** ** Signals with plain callbacks *)

Section Callbacks.
Context {V : Type} `{JSValue V}.

Implicit Types st : Store V.

Lemma stale_from_skips_callbacks fuel : forall s i change fr st k,
  nth_error (cells st) s = Some k ->
  no_observers (subscriptions k) ->
  List.length (subscriptions k) - i < fuel ->
  stale_from fuel s i change fr st = Done tt st.
Proof.
  induction fuel as [| fuel IH]; intros s i change fr st k Ek Hno Hlen; [lia |].
  rewrite stale_from_S. rewrite (bind_eval _ _ _ _ _ (cell_eval s st k Ek)).
  destruct (nth_error (subscriptions k) i) as [[[c | f] |] |] eqn:Ei.
  - exfalso. apply (Hno c). eapply nth_error_In; eauto.
  - apply (IH s (S i) change fr st k Ek Hno).
    assert (i < List.length (subscriptions k)) by (apply nth_error_Some; congruence).
    lia.
  - apply (IH s (S i) change fr st k Ek Hno).
    assert (i < List.length (subscriptions k)) by (apply nth_error_Some; congruence).
    lia.
  - reflexivity.
Qed.

Lemma cell_after_with_value s v st k :
  nth_error (cells st) s = Some k ->
  nth_error (cells (update_cell s (with_value v) st)) s = Some (with_value v k).
Proof.
  intros Ek. unfold update_cell, with_cells. simpl.
  rewrite nth_error_list_update, Nat.eqb_refl, Ek. reflexivity.
Qed.

(** [set] on a cell that only plain callbacks subscribe to: the value is
    stored and a task is queued. *)
Lemma set_without_observers fuel s v st k :
  nth_error (cells st) s = Some k ->
  no_observers (subscriptions k) ->
  List.length (subscriptions k) < fuel ->
  set (S fuel) s v st =
    if Object_is (value k) v then Done tt st
    else Done tt (with_immediate (fun q => q ++ [s])%list
                    (update_cell s (with_value v) st)).
Proof.
  intros Ek Hno Hlen. rewrite set_S.
  rewrite (bind_eval _ _ _ _ _ (cell_eval s st k Ek)).
  destruct (Object_is (value k) v); [reflexivity |].
  rewrite bind_modify.
  pose proof (cell_after_with_value s v st k Ek) as Ek'.
  assert (Hstale : forall change,
             stale_from fuel s 0 change true (update_cell s (with_value v) st)
             = Done tt (update_cell s (with_value v) st)).
  { intros change.
    apply (stale_from_skips_callbacks fuel s 0 change true _ _ Ek'); simpl; auto.
    lia. }
  rewrite (bind_eval _ _ _ _ _ (Hstale 1%Z)).
  rewrite (bind_eval _ _ _ _ _ (Hstale (-1)%Z)).
  reflexivity.
Qed.

Lemma notify_emits : forall (l : list subscriber) (v : V) st,
  fold_left (fun st' x => match x with
                          | Callback f => emit (EvNotify f v) st'
                          | Observer _ => st'
                          end) l st
  = {| cells := cells st; context := context st; immediate := immediate st;
       trace := (rev (map (fun f => EvNotify f v)
                        (flat_map (fun x => match x with
                                            | Callback f => [f]
                                            | Observer _ => []
                                            end) l))
                 ++ trace st)%list |}.
Proof.
  induction l as [| [c | f] l IH]; intros v st; simpl.
  - destruct st; reflexivity.
  - apply IH.
  - rewrite IH. simpl. rewrite <- app_assoc. reflexivity.
Qed.

Lemma callbacks_of_elements (l : JSSet.t subscriber) :
  flat_map (fun x => match x with Callback f => [f] | Observer _ => [] end)
           (JSSet.elements l)
  = callbacks_of l.
Proof.
  unfold callbacks_of, JSSet.elements.
  induction l as [| [[c | f] |] l IH]; simpl; auto. rewrite IH. reflexivity.
Qed.

Lemma notify_calls s st k :
  nth_error (cells st) s = Some k ->
  notify s st =
    Done tt {| cells := cells st; context := context st;
               immediate := immediate st;
               trace := (calls (subscriptions k) (value k) ++ trace st)%list |}.
Proof.
  intros Ek. unfold notify.
  rewrite (bind_eval _ _ _ _ _ (cell_eval s st k Ek)).
  unfold modify. rewrite notify_emits, callbacks_of_elements. reflexivity.
Qed.
End Callbacks.

(** X1.  On a signal that only plain callbacks subscribe to, [set] calls
    nobody: it stores the value and queues a task.  The task reads the
    value when it runs, not when it was queued: after [set(v1)] and
    [set(v2)] the two queued tasks call every callback with [v2], in the
    order of subscription, and the queue is empty again. *)
Theorem deferred_callbacks_read_the_latest_value {V : Type} (I : JSValue V)
    (fuel s : nat) (st : Store V) (k : Signal V) (v1 v2 : V) :
  nth_error (cells st) s = Some k ->
  no_observers (subscriptions k) ->
  List.length (subscriptions k) < fuel ->
  immediate st = [] ->
  Object_is (value k) v1 = false ->
  Object_is v1 v2 = false ->
  exists st1 st2 st3,
    set (S fuel) s v1 st = Done tt st1 /\ trace st1 = trace st /\
    set (S fuel) s v2 st1 = Done tt st2 /\ trace st2 = trace st /\
    run_immediate st2 = Done tt st3 /\
    trace st3 = (calls (subscriptions k) v2 ++ calls (subscriptions k) v2
                 ++ trace st)%list /\
    immediate st3 = [] /\
    peek st3 s = v2.
Proof.
  intros Ek Hno Hlen Hq E1 E2.
  pose proof (set_without_observers fuel s v1 st k Ek Hno Hlen) as S1.
  rewrite E1 in S1.
  set (st1 := with_immediate (fun q => (q ++ [s])%list)
                (update_cell s (with_value v1) st)) in *.
  assert (Ek1 : nth_error (cells st1) s = Some (with_value v1 k))
    by (apply cell_after_with_value; assumption).
  pose proof (set_without_observers fuel s v2 st1 (with_value v1 k) Ek1 Hno Hlen)
    as S2.
  simpl in S2. rewrite E2 in S2.
  set (st2 := with_immediate (fun q => (q ++ [s])%list)
                (update_cell s (with_value v2) st1)) in *.
  assert (Ek2 : nth_error (cells st2) s = Some (with_value v2 (with_value v1 k)))
    by (apply cell_after_with_value; assumption).
  assert (Hq2 : immediate st2 = [s; s]) by (simpl; rewrite Hq; reflexivity).
  set (st2' := with_immediate (fun _ => []) st2).
  assert (Ek2' : nth_error (cells st2') s = Some (with_value v2 (with_value v1 k)))
    by exact Ek2.
  pose proof (notify_calls s st2' _ Ek2') as N1. simpl in N1.
  match type of N1 with _ = Done tt ?x => set (st3' := x) in * end.
  assert (Ek3' : nth_error (cells st3') s = Some (with_value v2 (with_value v1 k)))
    by exact Ek2.
  pose proof (notify_calls s st3' _ Ek3') as N2. simpl in N2.
  match type of N2 with _ = Done tt ?x => set (st3 := x) in * end.
  exists st1, st2, st3.
  split; [exact S1 |]. split; [reflexivity |].
  split; [exact S2 |]. split; [reflexivity |].
  split.
  - unfold run_immediate, bind, gets, modify. rewrite Hq2. simpl.
    fold st2'. unfold bind. rewrite N1, N2. reflexivity.
  - split; [| split].
    + simpl. reflexivity.
    + reflexivity.
    + unfold peek. change (cells st3) with (cells st2). rewrite Ek2. reflexivity.
Qed.

(** The theorem on a signal that holds 1 and has one callback: after
    [set(2)] and [set(3)] the callback is called twice with 3. *)
Lemma deferred_callbacks_read_the_latest_value_witness :
  exists st1 st2 st3,
    set 3 0 (JNum 2) one_listener = Done tt st1 /\
    set 3 0 (JNum 3) st1 = Done tt st2 /\
    run_immediate st2 = Done tt st3 /\
    trace st3 = [EvNotify 7 (JNum 3); EvNotify 7 (JNum 3)].
Proof.
  destruct (deferred_callbacks_read_the_latest_value jsval_JSValue 2 0
              one_listener
              {| value := JNum 1; subscriptions := [Some (Callback 7)];
                 computation := None |}
              (JNum 2) (JNum 3))
    as (st1 & st2 & st3 & S1 & _ & S2 & _ & R & T & _).
  - reflexivity.
  - intros c [E | []]. discriminate E.
  - simpl. lia.
  - reflexivity.
  - reflexivity.
  - reflexivity.
  - exists st1, st2, st3. split; [exact S1 |]. split; [exact S2 |].
    split; [exact R | exact T].
Defined.

Section Subscriptions.
Context {V : Type} `{JSValue V}.

Implicit Types st : Store V.

Lemma subs_of_cell st s k :
  nth_error (cells st) s = Some k -> subs_of st s = subscriptions k.
Proof. intros Ek. unfold subs_of. rewrite Ek. reflexivity. Qed.

Lemma cell_after_with_subscriptions s g st k :
  nth_error (cells st) s = Some k ->
  nth_error (cells (update_cell s (with_subscriptions g) st)) s
  = Some (with_subscriptions g k).
Proof.
  intros Ek. unfold update_cell, with_cells. simpl.
  rewrite nth_error_list_update, Nat.eqb_refl, Ek. reflexivity.
Qed.

Lemma update_cell_same s (f : Signal V -> Signal V) st k :
  nth_error (cells st) s = Some k -> f k = k -> update_cell s f st = st.
Proof.
  intros Ek Ef. unfold update_cell, with_cells. destruct st as [l ctx q tr].
  simpl in *. f_equal. revert s Ek.
  induction l as [| x l IH]; intros [| s] Ek; simpl in *; try discriminate.
  - inversion Ek. subst. rewrite Ef. reflexivity.
  - rewrite (IH s Ek). reflexivity.
Qed.

Lemma elements_delete_absent (x : subscriber) (l : JSSet.t subscriber) :
  ~ In (Some x) l ->
  JSSet.delete subscriber_eqb x l = l.
Proof.
  induction l as [| [y |] l IH]; intros Hx; simpl; auto.
  - destruct (subscriber_eqb x y) eqn:E.
    + apply subscriber_eqb_eq in E. subst. exfalso. apply Hx. left. reflexivity.
    + rewrite IH; auto. intros Hin. apply Hx. right. assumption.
  - rewrite IH; auto. intros Hin. apply Hx. right. assumption.
Qed.

Lemma delete_app (x : subscriber) (l1 l2 : JSSet.t subscriber) :
  JSSet.delete subscriber_eqb x (l1 ++ l2)%list
  = (JSSet.delete subscriber_eqb x l1 ++ JSSet.delete subscriber_eqb x l2)%list.
Proof. unfold JSSet.delete. apply map_app. Qed.

Lemma elements_app {A : Type} (l1 l2 : JSSet.t A) :
  JSSet.elements (l1 ++ l2)%list = (JSSet.elements l1 ++ JSSet.elements l2)%list.
Proof. unfold JSSet.elements. apply flat_map_app. Qed.

Lemma callbacks_of_app (l1 l2 : JSSet.t subscriber) :
  callbacks_of (l1 ++ l2)%list = (callbacks_of l1 ++ callbacks_of l2)%list.
Proof. unfold callbacks_of. apply flat_map_app. Qed.
End Subscriptions.

(** X2.  [subscribe(callback)] puts a callback that is not subscribed
    last in the order of calls; subscribing it again changes nothing; and
    the function [subscribe] returns, [unsubscribe] at that callback,
    leaves the subscribers as they were before. *)
Theorem unsubscribe_undoes_subscribe {V : Type} (I : JSValue V)
    (s f : nat) (st : Store V) (k : Signal V) :
  nth_error (cells st) s = Some k ->
  ~ In (Some (Callback f)) (subscriptions k) ->
  exists st1 st2,
    subscribe s f st = Done tt st1 /\
    callbacks_of (subs_of st1 s) = (callbacks_of (subscriptions k) ++ [f])%list /\
    subscribe s f st1 = Done tt st1 /\
    unsubscribe s (Callback f) st1 = Done tt st2 /\
    JSSet.elements (subs_of st2 s) = JSSet.elements (subscriptions k) /\
    ~ In (Some (Callback f)) (subs_of st2 s).
Proof.
  intros Ek Hf.
  assert (Hhas : JSSet.has subscriber_eqb (Callback f) (subscriptions k) = false).
  { destruct (JSSet.has subscriber_eqb (Callback f) (subscriptions k)) eqn:E; auto.
    apply (has_In subscriber_eqb subscriber_eqb_eq) in E. contradiction. }
  set (g := JSSet.add subscriber_eqb (Callback f)).
  set (st1 := update_cell s (with_subscriptions g) st).
  assert (Ek1 : nth_error (cells st1) s = Some (with_subscriptions g k))
    by (apply cell_after_with_subscriptions; assumption).
  assert (Eg : g (subscriptions k) = (subscriptions k ++ [Some (Callback f)])%list).
  { unfold g, JSSet.add. rewrite Hhas. reflexivity. }
  set (d := JSSet.delete subscriber_eqb (Callback f)).
  set (st2 := update_cell s (with_subscriptions d) st1).
  assert (Ek2 : nth_error (cells st2) s
                = Some (with_subscriptions d (with_subscriptions g k)))
    by (apply cell_after_with_subscriptions; assumption).
  assert (Ed : d (g (subscriptions k)) = (subscriptions k ++ [None])%list).
  { rewrite Eg. unfold d. rewrite delete_app, elements_delete_absent by assumption.
    simpl. rewrite Nat.eqb_refl. reflexivity. }
  exists st1, st2.
  split; [| split; [| split; [| split; [| split]]]].
  - unfold subscribe. rewrite (bind_eval _ _ _ _ _ (cell_eval s st k Ek)).
    reflexivity.
  - rewrite (subs_of_cell st1 s _ Ek1). simpl. rewrite Eg, callbacks_of_app.
    reflexivity.
  - unfold subscribe. rewrite (bind_eval _ _ _ _ _ (cell_eval s st1 _ Ek1)).
    unfold modify. f_equal. apply (update_cell_same s _ st1 _ Ek1).
    unfold with_subscriptions. simpl. fold g.
    assert (Eg2 : g (g (subscriptions k)) = g (subscriptions k)).
    { unfold g at 1. unfold JSSet.add.
      assert (Hin : JSSet.has subscriber_eqb (Callback f) (g (subscriptions k)) = true).
      { apply (has_In subscriber_eqb subscriber_eqb_eq). rewrite Eg.
        apply in_or_app. right. left. reflexivity. }
      rewrite Hin. reflexivity. }
    rewrite Eg2. reflexivity.
  - unfold unsubscribe. rewrite (bind_eval _ _ _ _ _ (cell_eval s st1 _ Ek1)).
    reflexivity.
  - rewrite (subs_of_cell st2 s _ Ek2). simpl. fold g d. rewrite Ed, elements_app.
    simpl. apply app_nil_r.
  - rewrite (subs_of_cell st2 s _ Ek2). simpl. fold g d. rewrite Ed.
    intros Hin. apply in_app_or in Hin. destruct Hin as [Hin | [E | []]];
      [contradiction | discriminate E].
Qed.

(** The theorem on a signal nobody subscribed to. *)
Lemma unsubscribe_undoes_subscribe_witness :
  exists st1 st2,
    subscribe 0 7 one_signal = Done tt st1 /\
    callbacks_of (subs_of st1 0) = [7] /\
    unsubscribe 0 (Callback 7) st1 = Done tt st2 /\
    JSSet.elements (subs_of st2 0) = [].
Proof.
  destruct (unsubscribe_undoes_subscribe jsval_JSValue 0 7 one_signal
              {| value := JNum 1; subscriptions := []; computation := None |})
    as (st1 & st2 & S1 & C1 & _ & U & E & _).
  - reflexivity.
  - simpl. tauto.
  - exists st1, st2. split; [exact S1 |]. split; [exact C1 |].
    split; [exact U | exact E].
Defined.

(** ** Invariants of the calls *)

Section Triples.
Context {S : Type}.

Lemma triple_bind {A B : Type} (P : S -> Prop) (m : SM S A) (Q : A -> S -> Prop)
    (k : A -> SM S B) (R : B -> S -> Prop) :
  triple P m Q -> (forall a, triple (Q a) (k a) R) -> triple P (bind m k) R.
Proof.
  intros Hm Hk st b st' HP E. unfold bind in E.
  destruct (m st) as [a st1 | |] eqn:Em; try discriminate.
  exact (Hk a st1 b st' (Hm st a st1 HP Em) E).
Qed.

Lemma triple_ret {A : Type} (P : S -> Prop) (a : A) (Q : A -> S -> Prop) :
  (forall st, P st -> Q a st) -> triple P (ret a) Q.
Proof. intros HQ st b st' HP E. inversion E. subst. auto. Qed.

Lemma triple_timeout {A : Type} (P : S -> Prop) (Q : A -> S -> Prop) :
  triple P (@timeout S A) Q.
Proof. intros st b st' HP E. discriminate E. Qed.

Lemma triple_modify (P : S -> Prop) (g : S -> S) (Q : unit -> S -> Prop) :
  (forall st, P st -> Q tt (g st)) -> triple P (modify g) Q.
Proof. intros HQ st [] st' HP E. inversion E. subst. auto. Qed.

Lemma keep_modify (P : S -> Prop) (g : S -> S) :
  (forall st, P st -> P (g st)) -> triple P (modify g) (fun _ => P).
Proof. intros Hg. apply (triple_modify P g (fun _ => P) Hg). Qed.

Lemma keep_ret {A : Type} (P : S -> Prop) (a : A) : triple P (ret a) (fun _ => P).
Proof. apply triple_ret. auto. Qed.

Lemma triple_if {A : Type} (P : S -> Prop) (b : bool) (m1 m2 : SM S A)
    (Q : A -> S -> Prop) :
  triple P m1 Q -> triple P m2 Q -> triple P (if b then m1 else m2) Q.
Proof. destruct b; auto. Qed.

Lemma triple_weaken {A : Type} (P P' : S -> Prop) (m : SM S A)
    (Q Q' : A -> S -> Prop) :
  (forall st, P' st -> P st) -> (forall a st, Q a st -> Q' a st) ->
  triple P m Q -> triple P' m Q'.
Proof. intros HP HQ Hm st a st' H' E. apply HQ. eapply Hm; eauto. Qed.
End Triples.

Section GraphTriples.
Context {V : Type} `{JSValue V}.

Implicit Types st : Store V.

Lemma triple_cell (P : Store V -> Prop) s :
  triple P (cell s)
    (fun k st => P st /\ nth_error (cells st) s = Some k).
Proof.
  intros st k st' HP E. apply cell_done in E. destruct E as [-> Ek]. auto.
Qed.

Lemma triple_the_computation (P : Store V -> Prop) c :
  triple P (the_computation c)
    (fun comp st => P st /\ exists k, nth_error (cells st) c = Some k /\
                                      computation k = Some comp).
Proof.
  intros st comp st' HP E. apply the_computation_done in E.
  destruct E as [-> Hk]. auto.
Qed.

Lemma keep_cell (P : Store V -> Prop) s : triple P (cell s) (fun _ => P).
Proof.
  eapply triple_weaken; [| | apply triple_cell]; simpl; [eauto | tauto].
Qed.

Lemma keep_the_computation (P : Store V -> Prop) c :
  triple P (the_computation c) (fun _ => P).
Proof.
  eapply triple_weaken; [| | apply triple_the_computation]; simpl; [eauto | tauto].
Qed.

Lemma stable_unsubscribe_all (P : Store V -> Prop) x l :
  stable P -> forall st, P st -> P (unsubscribe_all x l st).
Proof.
  intros (Hs & _ & _). induction l as [| d l IH]; intros st HP; simpl;
    [assumption | apply IH, Hs; assumption].
Qed.

Lemma stable_get (P : Store V -> Prop) s :
  stable P -> triple P (get s) (fun _ => P).
Proof.
  intros HS st v st' HP E. apply get_done in E.
  destruct E as (k & _ & _ & E). destruct (context st) as [| running rest].
  - subst. assumption.
  - destruct E as [_ ->]. destruct HS as (Hs & Hd & He).
    apply He, Hd, Hs. assumption.
Qed.

Lemma stable_cleanup (P : Store V -> Prop) r :
  stable P -> triple P (cleanup r) (fun _ => P).
Proof.
  intros HS st u st' HP E. apply cleanup_done in E.
  destruct E as (kr & comp & _ & _ & ->).
  destruct HS as (Hs & Hd & He) eqn:EHS. apply Hd.
  apply stable_unsubscribe_all; auto.
Qed.

Lemma stable_run (P : Store V -> Prop) p :
  stable P -> triple P (run p) (fun _ => P).
Proof.
  intros HS. induction p as [v | s k IH | s k IH]; simpl.
  - apply triple_ret. auto.
  - eapply triple_bind; [apply stable_get; assumption | intros a; apply IH].
  - eapply triple_bind; [| intros a; apply IH].
    intros st v st' HP E. apply snapshot_done in E. subst. assumption.
Qed.

Lemma stable_and (P Q : Store V -> Prop) :
  stable P -> stable Q -> stable (fun st => P st /\ Q st).
Proof.
  intros (Ps & Pd & Pe) (Qs & Qd & Qe).
  split; [| split]; intros; split; intuition auto.
Qed.
End GraphTriples.

(** *** The tracking stack *)

Section TrackingStack.
Context {V : Type} `{JSValue V}.

Implicit Types st : Store V.

Local Abbreviation tracking := (@tracking V).

Lemma stable_tracking l : stable (tracking l).
Proof. split; [| split]; intros; assumption. Qed.

Lemma calls_restore_tracking (fuel : nat) :
  forall l,
    (forall s i change fr,
        triple (tracking l) (stale_from fuel s i change fr) (fun _ => tracking l)) /\
    (forall c change fr,
        triple (tracking l) (Computation_stale fuel c change fr)
          (fun _ => tracking l)) /\
    (forall c, triple (tracking l) (execute fuel c) (fun _ => tracking l)) /\
    (forall s v, triple (tracking l) (set fuel s v) (fun _ => tracking l)).
Proof.
  induction fuel as [| fuel IH]; intros l.
  - split; [| split; [| split]]; intros; apply triple_timeout.
  - destruct (IH l) as (IHstale & IHcomp & IHexec & IHset).
    assert (Hmod : forall i (f : Signal V -> Signal V),
               triple (tracking l) (modify (update_cell i f)) (fun _ => tracking l))
      by (intros; apply keep_modify; auto).
    split; [| split; [| split]].
    + intros s i change fr. rewrite stale_from_S.
      eapply triple_bind; [apply keep_cell | intros k; cbv beta].
      destruct (nth_error (subscriptions k) i) as [[[c | f] |] |]; auto.
      * eapply triple_bind; [apply IHcomp | intros ?; apply IHstale].
      * apply keep_ret.
    + intros c change fr. rewrite Computation_stale_S.
      eapply triple_bind; [apply keep_modify; auto | intros ?; cbv beta].
      eapply triple_bind; [apply keep_the_computation | intros k; cbv beta].
      apply triple_if; [apply keep_ret |].
      eapply triple_bind;
        [apply triple_if; [apply IHstale | apply keep_ret]
        | intros ?; cbv beta].
      eapply triple_bind; [apply keep_the_computation | intros k1; cbv beta].
      eapply triple_bind; [apply Hmod | intros ?; cbv beta].
      eapply triple_bind; [apply keep_the_computation | intros k2; cbv beta].
      eapply triple_bind; [apply Hmod | intros ?; cbv beta].
      eapply triple_bind; [apply keep_the_computation | intros k3; cbv beta].
      apply triple_if; [| apply keep_ret].
      eapply triple_bind; [apply Hmod | intros ?; cbv beta].
      eapply triple_bind;
        [apply triple_if; [apply IHexec | apply keep_ret]
        | intros ?; cbv beta].
      apply IHstale.
    + intros c. rewrite execute_S.
      destruct (IH (c :: l)) as (_ & _ & _ & IHset').
      eapply triple_bind; [apply keep_modify; auto | intros ?; cbv beta].
      eapply triple_bind;
        [apply stable_cleanup, stable_tracking | intros ?; cbv beta].
      eapply triple_bind with (Q := fun _ => tracking (c :: l)).
      { apply triple_modify. intros st E. hnf in E |- *. simpl. rewrite E.
        reflexivity. }
      intros ?. cbv beta.
      eapply triple_bind; [apply keep_modify; auto | intros ?; cbv beta].
      eapply triple_bind; [apply keep_modify; auto | intros ?; cbv beta].
      eapply triple_bind; [apply keep_the_computation | intros k; cbv beta].
      eapply triple_bind;
        [apply stable_run, stable_tracking | intros v; cbv beta].
      eapply triple_bind; [apply IHset' | intros ?; cbv beta].
      apply triple_modify. intros st E. hnf in E |- *. simpl. rewrite E.
      reflexivity.
    + intros s v. rewrite set_S.
      eapply triple_bind; [apply keep_cell | intros k; cbv beta].
      apply triple_if; [apply keep_ret |].
      eapply triple_bind; [apply Hmod | intros ?; cbv beta].
      eapply triple_bind; [apply IHstale | intros ?; cbv beta].
      eapply triple_bind; [apply IHstale | intros ?; cbv beta].
      apply keep_modify. auto.
Qed.
End TrackingStack.

(** X3.  [set], [stale] and [execute] return with the tracking stack as
    they found it, however far the change spreads: [execute] pushes the
    computation before it runs the tracked function and pops it after the
    value is stored, and nothing in between leaves the stack changed. *)
Theorem calls_restore_the_tracking_stack {V : Type} (I : JSValue V)
    (fuel : nat) (st st' : Store V) :
  (exists s v, set fuel s v st = Done tt st') \/
  (exists s change fr, stale fuel s change fr st = Done tt st') \/
  (exists c, execute fuel c st = Done tt st') ->
  context st' = context st.
Proof.
  destruct (calls_restore_tracking fuel (context st))
    as (Hstale & _ & Hexec & Hset).
  intros [(s & v & E) | [(s & change & fr & E) | (c & E)]].
  - exact (Hset s v st tt st' eq_refl E).
  - exact (Hstale s 0 change fr st tt st' eq_refl E).
  - exact (Hexec c st tt st' eq_refl E).
Qed.

(** The theorem on the computation of one signal, run while the tracking
    stack is not empty. *)
Lemma calls_restore_the_tracking_stack_witness :
  execute 4 1 (with_context (cons 1) one_computation)
  = Done tt (with_context (cons 1) ran_again) /\
  context (with_context (cons 1) ran_again)
  = context (with_context (cons 1) one_computation).
Proof.
  assert (E : execute 4 1 (with_context (cons 1) one_computation)
              = Done tt (with_context (cons 1) ran_again))
    by (vm_compute; reflexivity).
  split; [exact E |].
  apply (calls_restore_the_tracking_stack jsval_JSValue 4
           (with_context (cons 1) one_computation)
           (with_context (cons 1) ran_again)).
  right. right. exists 1. exact E.
Defined.

(** *** Plain signals keep their values *)

Section PlainSignals.
Context {V : Type} `{JSValue V}.

Implicit Types st : Store V.

Local Abbreviation plain_kept := (@plain_kept V).
Local Abbreviation is_computation := (@is_computation V).

Lemma plain_kept_refl st : plain_kept st st.
Proof. intros r k Ek Ec. exists k. auto. Qed.

(** An update that leaves plain signals alone. *)
Lemma plain_kept_update st0 i (f : Signal V -> Signal V) st :
  (forall k, computation k = None ->
             value (f k) = value k /\ computation (f k) = None) ->
  plain_kept st0 st -> plain_kept st0 (update_cell i f st).
Proof.
  intros Hf Hinv r k Ek Ec. destruct (Hinv r k Ek Ec) as (k' & Ek' & Ev & Ec').
  unfold update_cell, with_cells. simpl. rewrite nth_error_list_update.
  destruct (Nat.eqb r i) eqn:E.
  - apply Nat.eqb_eq in E. subst i. rewrite Ek'. simpl. exists (f k').
    destruct (Hf k' Ec') as [Hv Hc]. split; auto. split; congruence.
  - exists k'. auto.
Qed.

(** An update of a computation. *)
Lemma plain_kept_update_computation st0 c (f : Signal V -> Signal V) st :
  is_computation st c -> plain_kept st0 st -> plain_kept st0 (update_cell c f st).
Proof.
  intros (kc & comp & Ekc & Ecomp) Hinv r k Ek Ec.
  destruct (Hinv r k Ek Ec) as (k' & Ek' & Ev & Ec').
  unfold update_cell, with_cells. simpl. rewrite nth_error_list_update.
  destruct (Nat.eqb r c) eqn:E.
  - apply Nat.eqb_eq in E. subst r. congruence.
  - exists k'. auto.
Qed.

Lemma plain_kept_with_computation st0 i g st :
  plain_kept st0 st -> plain_kept st0 (update_cell i (with_computation g) st).
Proof.
  apply plain_kept_update. intros k Ec. simpl. rewrite Ec. auto.
Qed.

Lemma stable_plain_kept st0 : stable (plain_kept st0).
Proof.
  split; [| split].
  - intros i g st. apply plain_kept_update. intros k Ec. auto.
  - intros i g st. apply plain_kept_with_computation.
  - intros e st Hinv. exact Hinv.
Qed.

Lemma is_computation_update st c i (f : Signal V -> Signal V) :
  (forall k comp, computation k = Some comp -> exists comp', computation (f k) = Some comp') ->
  is_computation st c -> is_computation (update_cell i f st) c.
Proof.
  intros Hf (k & comp & Ek & Ec). hnf. unfold update_cell, with_cells.
  simpl. rewrite nth_error_list_update. destruct (Nat.eqb c i) eqn:E.
  - apply Nat.eqb_eq in E. subst i. rewrite Ek. simpl.
    destruct (Hf k comp Ec) as (comp' & Ec'). eauto.
  - eauto.
Qed.

Lemma stable_is_computation c : stable (fun st => is_computation st c).
Proof.
  split; [| split].
  - intros i g st. apply is_computation_update. intros k comp Ec. simpl. eauto.
  - intros i g st. apply is_computation_update. intros k comp Ec. simpl.
    rewrite Ec. simpl. eauto.
  - intros e st Hc. exact Hc.
Qed.

Lemma calls_keep_plain (fuel : nat) :
  forall st0,
    (forall s i change fr,
        triple (plain_kept st0) (stale_from fuel s i change fr)
          (fun _ => plain_kept st0)) /\
    (forall c change fr,
        triple (plain_kept st0) (Computation_stale fuel c change fr)
          (fun _ => plain_kept st0)) /\
    (forall c, triple (plain_kept st0) (execute fuel c) (fun _ => plain_kept st0)) /\
    (forall s v,
        triple (fun st => plain_kept st0 st /\ is_computation st s)
          (set fuel s v) (fun _ => plain_kept st0)).
Proof.
  induction fuel as [| fuel IH]; intros st0.
  - split; [| split; [| split]]; intros; apply triple_timeout.
  - destruct (IH st0) as (IHstale & IHcomp & IHexec & IHset).
    assert (Hmod : forall i g,
               triple (plain_kept st0) (modify (update_cell i (with_computation g)))
                 (fun _ => plain_kept st0))
      by (intros; apply keep_modify; intros; apply plain_kept_with_computation;
          assumption).
    split; [| split; [| split]].
    + intros s i change fr. rewrite stale_from_S.
      eapply triple_bind; [apply keep_cell | intros k; cbv beta].
      destruct (nth_error (subscriptions k) i) as [[[c | f] |] |]; auto.
      * eapply triple_bind; [apply IHcomp | intros ?; apply IHstale].
      * apply keep_ret.
    + intros c change fr. rewrite Computation_stale_S.
      eapply triple_bind; [apply keep_modify; auto | intros ?; cbv beta].
      eapply triple_bind; [apply keep_the_computation | intros k; cbv beta].
      apply triple_if; [apply keep_ret |].
      eapply triple_bind;
        [apply triple_if; [apply IHstale | apply keep_ret]
        | intros ?; cbv beta].
      eapply triple_bind; [apply keep_the_computation | intros k1; cbv beta].
      eapply triple_bind; [apply Hmod | intros ?; cbv beta].
      eapply triple_bind; [apply keep_the_computation | intros k2; cbv beta].
      eapply triple_bind; [apply Hmod | intros ?; cbv beta].
      eapply triple_bind; [apply keep_the_computation | intros k3; cbv beta].
      apply triple_if; [| apply keep_ret].
      eapply triple_bind; [apply Hmod | intros ?; cbv beta].
      eapply triple_bind;
        [apply triple_if; [apply IHexec | apply keep_ret]
        | intros ?; cbv beta].
      apply IHstale.
    + intros c. rewrite execute_S.
      eapply triple_bind; [apply keep_modify; auto | intros ?; cbv beta].
      eapply triple_bind;
        [apply stable_cleanup, stable_plain_kept | intros ?; cbv beta].
      eapply triple_bind; [apply keep_modify; auto | intros ?; cbv beta].
      eapply triple_bind; [apply Hmod | intros ?; cbv beta].
      eapply triple_bind; [apply Hmod | intros ?; cbv beta].
      eapply triple_bind with
        (Q := fun _ st => plain_kept st0 st /\ is_computation st c).
      { eapply triple_weaken; [| | apply triple_the_computation]; simpl; eauto.
        intros comp st (Hinv & k & Ek & Ec). split; auto. exists k, comp. auto. }
      intros k. cbv beta.
      eapply triple_bind;
        [apply stable_run, stable_and;
           [apply stable_plain_kept | apply stable_is_computation]
        | intros v; cbv beta].
      eapply triple_bind; [apply IHset | intros ?; cbv beta].
      apply keep_modify. auto.
    + intros s v. rewrite set_S.
      eapply triple_bind; [apply keep_cell | intros k; cbv beta].
      apply triple_if.
      { apply triple_ret. tauto. }
      eapply triple_bind with (Q := fun _ => plain_kept st0).
      { apply triple_modify. intros st (Hinv & Hc).
        apply plain_kept_update_computation; assumption. }
      intros ?. cbv beta.
      eapply triple_bind; [apply IHstale | intros ?; cbv beta].
      eapply triple_bind; [apply IHstale | intros ?; cbv beta].
      apply keep_modify. auto.
Qed.
End PlainSignals.

(** X4.  [set(v)] on a plain signal: when it returns, the signal holds
    [v] (or held a value [Object.is] identifies with [v], and still holds
    it), and every other plain signal holds what it held.  The change
    spreads to computations only: nothing on the way writes to a signal
    that is no computation. *)
Theorem set_writes_one_plain_signal {V : Type} (I : JSValue V)
    (fuel s : nat) (v : V) (st st' : Store V) :
  plain st s ->
  set fuel s v st = Done tt st' ->
  (exists a, snapshot s st' = Done a st' /\ current a v) /\
  (forall r, r <> s -> plain st r -> plain st' r /\ peek st' r = peek st r).
Proof.
  intros (k & Ek & Ec) E. destruct fuel as [| fuel]; [discriminate |].
  rewrite set_S in E. rewrite (bind_eval _ _ _ _ _ (cell_eval s st k Ek)) in E.
  destruct (Object_is (value k) v) eqn:Eis.
  - inversion E. subst st'. split.
    + exists (value k). split; [| right; assumption].
      unfold snapshot. rewrite (bind_eval _ _ _ _ _ (cell_eval s st k Ek)).
      reflexivity.
    + intros r _ Hr. auto.
  - rewrite bind_modify in E.
    set (st1 := update_cell s (with_value v) st) in *.
    assert (Ek1 : nth_error (cells st1) s = Some (with_value v k))
      by (apply cell_after_with_value; assumption).
    destruct (calls_keep_plain fuel st1) as (Hstale & _ & _ & _).
    assert (Hkept : plain_kept st1 st').
    { apply bind_done in E. destruct E as ([] & st3 & E3 & E).
      apply bind_done in E. destruct E as ([] & st4 & E4 & E).
      inversion E. subst st'.
      pose proof (Hstale s 0 1%Z true st1 tt st3 (plain_kept_refl st1) E3) as H3.
      pose proof (Hstale s 0 (-1)%Z true st3 tt st4 H3 E4) as H4.
      exact H4. }
    split.
    + destruct (Hkept s _ Ek1 Ec) as (k' & Ek' & Ev & _). exists (value k').
      split; [| left; exact Ev].
      unfold snapshot. rewrite (bind_eval _ _ _ _ _ (cell_eval s st' k' Ek')).
      reflexivity.
    + intros r Hrs (kr & Ekr & Ecr).
      assert (Ekr1 : nth_error (cells st1) r = Some kr).
      { unfold st1, update_cell, with_cells. simpl. rewrite nth_error_list_update.
        destruct (Nat.eqb r s) eqn:Ers; auto.
        apply Nat.eqb_eq in Ers. contradiction. }
      destruct (Hkept r kr Ekr1 Ecr) as (k' & Ek' & Ev & Ec').
      split; [exists k'; auto |]. unfold peek. rewrite Ek', Ekr. exact Ev.
Qed.

(** The theorem on the signal of [one_computation]. *)
Lemma set_writes_one_plain_signal_witness :
  plain one_computation 0 /\
  set 6 0 (JNum 2) one_computation = Done tt after_set /\
  exists a, snapshot 0 after_set = Done a after_set /\ current a (JNum 2).
Proof.
  assert (Hp : plain one_computation 0).
  { eexists. split; reflexivity. }
  assert (E : set 6 0 (JNum 2) one_computation = Done tt after_set)
    by (vm_compute; reflexivity).
  split; [exact Hp |]. split; [exact E |].
  exact (proj1 (set_writes_one_plain_signal jsval_JSValue 6 0 (JNum 2)
                  one_computation after_set Hp E)).
Defined.

(** *** Waiting counters *)

Section WaitingCounters.
Context {V : Type} `{JSValue V}.

Implicit Types st : Store V.

Local Abbreviation waiting_nonnegative := (@waiting_nonnegative V).

(** An update under which no computation gets a negative counter. *)
Lemma waiting_update i (f : Signal V -> Signal V) st :
  (forall k comp', nth_error (cells st) i = Some k ->
     computation (f k) = Some comp' ->
     (0 <= waiting comp')%Z) ->
  waiting_nonnegative st -> waiting_nonnegative (update_cell i f st).
Proof.
  intros Hf Hinv c k comp. unfold update_cell, with_cells. simpl.
  rewrite nth_error_list_update. destruct (Nat.eqb c i) eqn:E.
  - apply Nat.eqb_eq in E. subst i.
    destruct (nth_error (cells st) c) as [k0 |] eqn:Ek0; simpl; try discriminate.
    intros Ek Ec. inversion Ek. subst k. eapply Hf; eauto.
  - apply Hinv.
Qed.

Lemma waiting_update_same i (f : Signal V -> Signal V) st :
  (forall k, option_map (@waiting V) (computation (f k))
             = option_map (@waiting V) (computation k)) ->
  waiting_nonnegative st -> waiting_nonnegative (update_cell i f st).
Proof.
  intros Hf Hinv. apply waiting_update; auto. intros k comp' Ek Ec.
  specialize (Hf k). rewrite Ec in Hf. simpl in Hf.
  destruct (computation k) as [comp |] eqn:Ecomp; simpl in Hf; try discriminate.
  inversion Hf as [Hw]. rewrite Hw. eapply Hinv; eauto.
Qed.

Lemma waiting_set_counter i w st :
  (0 <= w)%Z -> waiting_nonnegative st ->
  waiting_nonnegative (update_cell i (with_computation (with_waiting w)) st).
Proof.
  intros Hw. apply waiting_update. intros k comp' _ Ec. simpl in Ec.
  destruct (computation k); simpl in Ec; try discriminate.
  inversion Ec. subst comp'. exact Hw.
Qed.

Lemma stable_waiting : stable waiting_nonnegative.
Proof.
  split; [| split].
  - intros i g st. apply waiting_update_same. reflexivity.
  - intros i g st. apply waiting_update_same. intros k. simpl.
    destruct (computation k); reflexivity.
  - intros e st Hinv. exact Hinv.
Qed.

Lemma calls_keep_waiting (fuel : nat) :
  (forall s i change fr, pulse change ->
      triple waiting_nonnegative (stale_from fuel s i change fr)
        (fun _ => waiting_nonnegative)) /\
  (forall c change fr, pulse change ->
      triple waiting_nonnegative (Computation_stale fuel c change fr)
        (fun _ => waiting_nonnegative)) /\
  (forall c, triple waiting_nonnegative (execute fuel c)
               (fun _ => waiting_nonnegative)) /\
  (forall s v, triple waiting_nonnegative (set fuel s v)
                 (fun _ => waiting_nonnegative)).
Proof.
  induction fuel as [| fuel (IHstale & IHcomp & IHexec & IHset)].
  - split; [| split; [| split]]; intros; apply triple_timeout.
  - assert (Hfresh : forall i b,
               triple waiting_nonnegative
                 (modify (update_cell i (with_computation (with_fresh b))))
                 (fun _ => waiting_nonnegative)).
    { intros. apply keep_modify. intros st. apply waiting_update_same.
      intros k. simpl. destruct (computation k); reflexivity. }
    assert (Hzero : forall i,
               triple waiting_nonnegative
                 (modify (update_cell i (with_computation (with_waiting 0%Z))))
                 (fun _ => waiting_nonnegative)).
    { intros. apply keep_modify. intros st. apply waiting_set_counter. lia. }
    split; [| split; [| split]].
    + intros s i change fr Hch. rewrite stale_from_S.
      eapply triple_bind; [apply keep_cell | intros k; cbv beta].
      destruct (nth_error (subscriptions k) i) as [[[c | f] |] |]; auto.
      * eapply triple_bind; [apply IHcomp; assumption | intros ?; auto].
      * apply keep_ret.
    + intros c change fr Hch. rewrite Computation_stale_S.
      intros st u st' Hinv E.
      apply bind_done in E. destruct E as ([] & st1 & E1 & E).
      apply modify_done in E1. subst st1.
      apply bind_done in E. destruct E as (k & st1 & Ek & E).
      apply the_computation_done in Ek. destruct Ek as [-> (kc & Ekc & Ecomp)].
      assert (Hk : (0 <= waiting k)%Z) by (eapply Hinv; eauto).
      destruct ((waiting k =? 0)%Z && (change <? 0)%Z) eqn:G1.
      { inversion E. subst st'. exact Hinv. }
      apply bind_done in E. destruct E as ([] & st2 & E2 & E).
      assert (H2 : waiting_nonnegative st2 /\
                   forall k2 comp2, nth_error (cells st2) c = Some k2 ->
                     computation k2 = Some comp2 ->
                     (0 <= waiting comp2 + change)%Z).
      { destruct ((waiting k =? 0)%Z && (0 <? change)%Z) eqn:G2.
        - assert (Hinv2 : waiting_nonnegative st2).
          { eapply (IHstale c 0 1%Z false); [left; reflexivity | | exact E2].
            exact Hinv. }
          split; auto. intros k2 comp2 Ek2 Ec2.
          pose proof (Hinv2 c k2 comp2 Ek2 Ec2).
          apply andb_true_iff in G2. destruct G2 as [_ G2].
          apply Z.ltb_lt in G2. lia.
        - inversion E2. subst st2. split; auto. intros k2 comp2 Ek2 Ec2.
          simpl in Ek2, Ekc. rewrite Ekc in Ek2. inversion Ek2. subst k2.
          rewrite Ecomp in Ec2. inversion Ec2. subst comp2.
          destruct Hch as [-> | ->]; [lia |].
          apply andb_false_iff in G1. destruct G1 as [G1 | G1].
          + apply Z.eqb_neq in G1. lia.
          + discriminate G1. }
      destruct H2 as [Hinv2 Hc2]. clear E2.
      apply bind_done in E. destruct E as (k1 & st3 & Ek1 & E).
      apply the_computation_done in Ek1. destruct Ek1 as [-> (kc1 & Ekc1 & Ecomp1)].
      apply bind_done in E. destruct E as ([] & st3 & E3 & E).
      apply modify_done in E3.
      assert (Hinv3 : waiting_nonnegative st3).
      { subst st3. apply waiting_set_counter; auto. eapply Hc2; eauto. }
      clear E3. revert E. generalize Hinv3.
      match goal with
      | |- _ -> ?m st3 = _ -> _ =>
          change (forall _ : waiting_nonnegative st3, m st3 = Done u st' ->
                  waiting_nonnegative st')
      end.
      revert st3 st' u Hinv3.
      match goal with
      | |- forall st3 st' u, _ -> _ -> ?m st3 = _ -> _ =>
          assert (T : triple waiting_nonnegative m (fun _ => waiting_nonnegative))
      end.
      { eapply triple_bind; [apply keep_the_computation | intros k2; cbv beta].
        eapply triple_bind; [apply Hfresh | intros ?; cbv beta].
        eapply triple_bind; [apply keep_the_computation | intros k3; cbv beta].
        apply triple_if; [| apply keep_ret].
        eapply triple_bind; [apply Hzero | intros ?; cbv beta].
        eapply triple_bind;
          [apply triple_if; [apply IHexec | apply keep_ret]
          | intros ?; cbv beta].
        apply IHstale. right. reflexivity. }
      intros st3 st'' u' _ Hinv3 E. exact (T st3 u' st'' Hinv3 E).
    + intros c. rewrite execute_S.
      eapply triple_bind; [apply keep_modify; auto | intros ?; cbv beta].
      eapply triple_bind;
        [apply stable_cleanup, stable_waiting | intros ?; cbv beta].
      eapply triple_bind; [apply keep_modify; auto | intros ?; cbv beta].
      eapply triple_bind; [apply Hzero | intros ?; cbv beta].
      eapply triple_bind; [apply Hfresh | intros ?; cbv beta].
      eapply triple_bind; [apply keep_the_computation | intros k; cbv beta].
      eapply triple_bind;
        [apply stable_run, stable_waiting | intros v; cbv beta].
      eapply triple_bind; [apply IHset | intros ?; cbv beta].
      apply keep_modify. auto.
    + intros s v. rewrite set_S.
      eapply triple_bind; [apply keep_cell | intros k; cbv beta].
      apply triple_if; [apply keep_ret |].
      eapply triple_bind.
      { apply keep_modify. intros st. apply waiting_update_same. reflexivity. }
      intros ?. cbv beta.
      eapply triple_bind; [apply IHstale; left; reflexivity | intros ?; cbv beta].
      eapply triple_bind; [apply IHstale; right; reflexivity | intros ?; cbv beta].
      apply keep_modify. auto.
Qed.
End WaitingCounters.

(** X5.  The counter of pending changes of a computation never goes
    below zero: [stale] ignores a decrement that arrives at a counter
    that is already zero, and [execute] resets the counter to zero
    before it runs.  Whatever [set] and [execute] reach, every counter
    that was at least zero before is at least zero after. *)
Theorem waiting_is_never_negative {V : Type} (I : JSValue V)
    (fuel : nat) (st st' : Store V) :
  waiting_nonnegative st ->
  (exists s v, set fuel s v st = Done tt st') \/
  (exists c, execute fuel c st = Done tt st') ->
  waiting_nonnegative st'.
Proof.
  destruct (calls_keep_waiting fuel) as (_ & _ & Hexec & Hset).
  intros Hinv [(s & v & E) | (c & E)].
  - exact (Hset s v st tt st' Hinv E).
  - exact (Hexec c st tt st' Hinv E).
Qed.

(** The theorem on the computation of one signal. *)
Lemma waiting_is_never_negative_witness :
  waiting_nonnegative one_computation /\
  set 6 0 (JNum 2) one_computation = Done tt after_set /\
  waiting_nonnegative after_set.
Proof.
  assert (Hinv : waiting_nonnegative one_computation).
  { intros c k comp Ek Ec.
    destruct c as [| [| [| c]]]; simpl in Ek; inversion Ek; subst k;
      simpl in Ec; inversion Ec; subst comp; simpl; lia. }
  assert (E : set 6 0 (JNum 2) one_computation = Done tt after_set)
    by (vm_compute; reflexivity).
  split; [exact Hinv |]. split; [exact E |].
  apply (waiting_is_never_negative jsval_JSValue 6 one_computation after_set Hinv).
  left. exists 0, (JNum 2). exact E.
Defined.

(** *** Changes that do not spread *)

(** X6.  A computation whose tracked function returns what it returned
    before stops the change: in the chain of [R], [A] and [C], when
    [set(x)] changes [R] and [A] computes the value it holds, [A] runs
    once and [C] not at all.  [C] is told to wait and is released by the
    closing pulse, with [fresh] false. *)
Theorem unchanged_value_stops_the_change {V : Type} (I : JSValue V)
    (fA fC : V -> V) (r0 x : V) :
  Object_is r0 x = false ->
  Object_is undefined (fA r0) = false ->
  Object_is (fA r0) (fA x) = true ->
  exists R A C st st',
    chain 6 r0 fA fC empty_store = Done (R, A, C) st /\
    set 12 R x st = Done tt st' /\
    trace st' =
      (rev [EvStale A 1 true; EvStale C 1 false;
            EvStale A (-1) true; EvExecute A; EvRead A R x;
            EvStale C (-1) false; EvStale A (-1) true]
       ++ trace st)%list /\
    peek st' A = peek st A /\
    peek st' C = peek st C.
Proof.
  intros Hx HA Hsame.
  assert (Hw : wp (chain 6 r0 fA fC) empty_store
                 (fun d st =>
                    let '(R, A, C) := d in
                    wp (set 12 R x) st
                       (fun _ st' =>
                          trace st' =
                            (rev [EvStale A 1 true; EvStale C 1 false;
                                  EvStale A (-1) true; EvExecute A; EvRead A R x;
                                  EvStale C (-1) false; EvStale A (-1) true]
                             ++ trace st)%list /\
                          peek st' A = peek st A /\
                          peek st' C = peek st C))).
  { destruct I as [u is_]. cbn [undefined] in HA. unfold chain.
    wp_run.
    all: split; [vm_compute; reflexivity |].
    all: split; vm_compute; reflexivity. }
  apply wp_done in Hw. destruct Hw as ([[R A] C] & st & Hd & Hw).
  apply wp_done in Hw. destruct Hw as ([] & st' & Hs & Ht & HpA & HpC).
  exists R, A, C, st, st'. auto.
Qed.

(** The theorem on numbers: [A] tells whether [R] is positive, and [R]
    goes from 1 to 2. *)
Lemma unchanged_value_stops_the_change_witness :
  exists R A C st st',
    chain 6 (JNum 1) (fun r => match r with
                               | JNum q => JBool (Qle_bool 0 q)
                               | _ => JBool false
                               end)
      (fun a => a) empty_store = Done (R, A, C) st /\
    set 12 R (JNum 2) st = Done tt st' /\
    peek st' C = peek st C.
Proof.
  destruct (unchanged_value_stops_the_change jsval_JSValue
              (fun r => match r with
                        | JNum q => JBool (Qle_bool 0 q)
                        | _ => JBool false
                        end)
              (fun a => a) (JNum 1) (JNum 2) eq_refl eq_refl eq_refl)
    as (R & A & C & st & st' & Hd & Hs & _ & _ & HC).
  exists R, A, C, st, st'. split; [exact Hd |]. split; [exact Hs | exact HC].
Defined.

(** X7.  [snapshot] reads without subscribing: a computation whose
    tracked function reads a signal through [snapshot] has no dependency,
    and [set] on that signal neither runs it nor tells it to wait; the
    computation keeps the value it computed from the old one. *)
Theorem snapshot_is_not_tracked {V : Type} (I : JSValue V)
    (f : V -> V) (r0 x : V) :
  Object_is r0 x = false ->
  exists s c st st',
    untracked 4 r0 f empty_store = Done (s, c) st /\
    deps_of st c = [] /\
    subs_of st s = [] /\
    set 6 s x st = Done tt st' /\
    trace st' = trace st /\
    peek st' s = x /\
    peek st' c = peek st c.
Proof.
  intros Hx.
  assert (Hw : wp (untracked 4 r0 f) empty_store
                 (fun d st =>
                    let '(s, c) := d in
                    deps_of st c = [] /\
                    subs_of st s = [] /\
                    wp (set 6 s x) st
                       (fun _ st' =>
                          trace st' = trace st /\
                          peek st' s = x /\
                          peek st' c = peek st c))).
  { destruct I as [u is_]. unfold untracked.
    wp_run.
    all: split; [vm_compute; reflexivity |].
    all: split; [vm_compute; reflexivity |].
    all: wp_run.
    all: split; [vm_compute; reflexivity |].
    all: split; vm_compute; reflexivity. }
  apply wp_done in Hw. destruct Hw as ([s c] & st & Hd & Hdeps & Hsubs & Hw).
  apply wp_done in Hw. destruct Hw as ([] & st' & Hs & Ht & Hps & Hpc).
  exists s, c, st, st'. auto 10.
Qed.

(** The theorem on a signal that goes from 1 to 2. *)
Lemma snapshot_is_not_tracked_witness :
  exists s c st st',
    untracked 4 (JNum 1) (fun r => r) empty_store = Done (s, c) st /\
    set 6 s (JNum 2) st = Done tt st' /\
    peek st' c = peek st c.
Proof.
  destruct (snapshot_is_not_tracked jsval_JSValue (fun r => r) (JNum 1) (JNum 2)
              eq_refl)
    as (s & c & st & st' & Hd & _ & _ & Hs & _ & _ & Hc).
  exists s, c, st, st'. split; [exact Hd |]. split; [exact Hs | exact Hc].
Defined.

(** ** The component context *)

Section Worlds.
Implicit Types w : World.

Lemma on_store_eval {A : Type} (m : M A) w a st :
  m (store w) = Done a st -> on_store m w = Done a (with_store (fun _ => st) w).
Proof. unfold on_store. intros ->. reflexivity. Qed.

Lemma on_store_done {A : Type} (m : M A) w a w' :
  on_store m w = Done a w' ->
  exists st, m (store w) = Done a st /\ w' = with_store (fun _ => st) w.
Proof.
  unfold on_store. destruct (m (store w)) as [b st | |]; try discriminate.
  intros E. inversion E. eauto.
Qed.

Lemma W_bind_eval {A B : Type} (m : W A) (k : A -> W B) w a w' :
  m w = Done a w' -> bind m k w = k a w'.
Proof. unfold bind. intros ->. reflexivity. Qed.

Lemma get_untracked (s : nat) (st : Store jsval) k :
  context st = [] -> nth_error (cells st) s = Some k ->
  get s st = Done (value k) st.
Proof.
  intros Hctx Ek. unfold get.
  rewrite (bind_eval _ _ _ _ _ (cell_eval s st k Ek)).
  unfold bind, gets. rewrite Hctx. reflexivity.
Qed.
End Worlds.

(** X8.  A color-scheme signal created with one value holds it for both
    schemes.  [set] writes the value of the current scheme only: [get]
    then yields the new value, and the value of the other scheme is the
    old one. *)
Theorem color_scheme_signal_holds_one_value_per_scheme
    (fuel : nat) (v0 v : jsval) (w : World) (k0 : Signal jsval) :
  context (store w) = [] ->
  nth_error (cells (store w)) colorScheme = Some k0 ->
  SameValue v0 v = false ->
  exists c w1 w2,
    createColorSchemeSignal v0 w = Done c w1 /\
    peek (store w1) (light c) = v0 /\
    peek (store w1) (dark c) = v0 /\
    ColorSchemeSignal_get c w1 = Done v0 w1 /\
    ColorSchemeSignal_set (2 + fuel) c v w1 = Done tt w2 /\
    ColorSchemeSignal_get c w2 = Done v w2 /\
    peek (store w2) (other_scheme (value k0) c) = v0.
Proof.
  intros Hctx Ek0 Hv.
  set (n := List.length (cells (store w))).
  set (fresh := {| value := v0; subscriptions := []; computation := None |}
                : Signal jsval).
  set (st1 := with_cells (fun l => ((l ++ [fresh]) ++ [fresh])%list) (store w)).
  set (w1 := with_store (fun _ => st1) w).
  set (c := {| light := n; dark := S n |}).
  assert (Hn : colorScheme < n).
  { apply nth_error_Some. unfold n. rewrite Ek0. discriminate. }
  assert (Ecreate : createColorSchemeSignal v0 w = Done c w1).
  { unfold createColorSchemeSignal.
    rewrite (W_bind_eval _ _ _ _ _ (on_store_eval (createSignal v0) w _ _ eq_refl)).
    unfold bind, on_store, createSignal, ret. simpl.
    unfold c, w1, st1, with_store, with_cells. simpl.
    rewrite length_app. simpl. rewrite Nat.add_1_r. reflexivity. }
  assert (El : nth_error (cells st1) n = Some fresh).
  { change (cells st1) with ((cells (store w) ++ [fresh]) ++ [fresh])%list.
    rewrite nth_error_app_front by (rewrite length_app; simpl; fold n; lia).
    apply nth_error_app_last. }
  assert (Ed : nth_error (cells st1) (S n) = Some fresh).
  { change (cells st1) with ((cells (store w) ++ [fresh]) ++ [fresh])%list.
    replace (S n) with (List.length (cells (store w) ++ [fresh])%list)
      by (rewrite length_app; simpl; unfold n; lia).
    apply nth_error_app_last. }
  assert (Es : nth_error (cells st1) colorScheme = Some k0).
  { change (cells st1) with ((cells (store w) ++ [fresh]) ++ [fresh])%list.
    rewrite nth_error_app_front by (rewrite length_app; simpl; fold n; lia).
    rewrite nth_error_app_front by (fold n; lia). exact Ek0. }
  assert (Hctx1 : context st1 = []) by exact Hctx.
  assert (Eget1 : ColorSchemeSignal_get c w1 = Done v0 w1).
  { unfold ColorSchemeSignal_get.
    rewrite (W_bind_eval _ _ _ _ _
               (on_store_eval (get colorScheme) w1 _ _
                  (get_untracked colorScheme st1 k0 Hctx1 Es))).
    assert (Ew : with_store (fun _ => st1) w1 = w1) by reflexivity.
    rewrite Ew.
    destruct (is_light (value k0)).
    - exact (on_store_eval (get (light c)) w1 _ _
               (get_untracked n st1 fresh Hctx1 El)).
    - exact (on_store_eval (get (dark c)) w1 _ _
               (get_untracked (S n) st1 fresh Hctx1 Ed)). }
  set (target := if is_light (value k0) then n else S n).
  assert (Et : nth_error (cells st1) target = Some fresh).
  { unfold target. destruct (is_light (value k0)); assumption. }
  set (st2 := with_immediate (fun q => (q ++ [target])%list)
                (update_cell target (with_value v) st1)).
  set (w2 := with_store (fun _ => st2) w1).
  assert (Eset : set (2 + fuel) target v st1 = Done tt st2).
  { change (2 + fuel) with (S (S fuel)).
    rewrite (set_without_observers (S fuel) target v st1 fresh Et).
    - simpl. rewrite Hv. reflexivity.
    - intros x [].
    - simpl. lia. }
  assert (Esetw : ColorSchemeSignal_set (2 + fuel) c v w1 = Done tt w2).
  { unfold ColorSchemeSignal_set.
    rewrite (W_bind_eval _ _ _ _ _
               (on_store_eval (get colorScheme) w1 _ _
                  (get_untracked colorScheme st1 k0 Hctx1 Es))).
    assert (Ew : with_store (fun _ => st1) w1 = w1) by reflexivity.
    rewrite Ew. unfold target in Eset.
    destruct (is_light (value k0)); exact (on_store_eval _ w1 _ _ Eset). }
  assert (Et2 : nth_error (cells st2) target = Some (with_value v fresh)).
  { change (cells st2) with (cells (update_cell target (with_value v) st1)).
    apply cell_after_with_value. exact Et. }
  assert (Es2 : nth_error (cells st2) colorScheme = Some k0).
  { change (cells st2) with (list_update target (with_value v) (cells st1)).
    rewrite nth_error_list_update.
    assert (Hne : Nat.eqb colorScheme target = false).
    { apply Nat.eqb_neq. unfold target. destruct (is_light (value k0)); lia. }
    rewrite Hne. exact Es. }
  assert (Hctx2 : context st2 = []) by exact Hctx.
  exists c, w1, w2.
  split; [exact Ecreate |].
  split.
  { unfold peek. change (cells (store w1)) with (cells st1).
    change (light c) with n. rewrite El. reflexivity. }
  split.
  { unfold peek. change (cells (store w1)) with (cells st1).
    change (dark c) with (S n). rewrite Ed. reflexivity. }
  split; [exact Eget1 |].
  split; [exact Esetw |].
  split.
  - unfold ColorSchemeSignal_get.
    rewrite (W_bind_eval _ _ _ _ _
               (on_store_eval (get colorScheme) w2 _ _
                  (get_untracked colorScheme st2 k0 Hctx2 Es2))).
    assert (Ew : with_store (fun _ => st2) w2 = w2) by reflexivity.
    rewrite Ew. unfold target in Et2.
    destruct (is_light (value k0));
      exact (on_store_eval (get _) w2 _ _ (get_untracked _ st2 _ Hctx2 Et2)).
  - unfold peek.
    change (cells (store w2)) with (list_update target (with_value v) (cells st1)).
    rewrite nth_error_list_update. unfold other_scheme, target.
    destruct (is_light (value k0)).
    + change (dark c) with (S n).
      replace (Nat.eqb (S n) n) with false by (symmetry; apply Nat.eqb_neq; lia).
      rewrite Ed. reflexivity.
    + change (light c) with n.
      replace (Nat.eqb n (S n)) with false by (symmetry; apply Nat.eqb_neq; lia).
      rewrite El. reflexivity.
Qed.

(** The theorem in a world with a light color scheme. *)
Lemma color_scheme_signal_holds_one_value_per_scheme_witness :
  exists c w1 w2,
    createColorSchemeSignal (JNum 4) example_world = Done c w1 /\
    ColorSchemeSignal_set 2 c (JNum 8) w1 = Done tt w2 /\
    ColorSchemeSignal_get c w2 = Done (JNum 8) w2 /\
    peek (store w2) (dark c) = JNum 4.
Proof.
  destruct (color_scheme_signal_holds_one_value_per_scheme 0 (JNum 4) (JNum 8)
              example_world
              {| value := JStr "light"; subscriptions := []; computation := None |}
              eq_refl eq_refl eq_refl)
    as (c & w1 & w2 & Hc & _ & _ & _ & Hs & Hg & Ho).
  exists c, w1, w2. split; [exact Hc |]. split; [exact Hs |].
  split; [exact Hg | exact Ho].
Defined.

Section ColorSchemes.
Implicit Types w : World.

(** The two cells of a new color-scheme signal. *)
Lemma createColorSchemeSignal_eval (v0 : jsval) w :
  exists w1,
    createColorSchemeSignal v0 w
    = Done {| light := List.length (cells (store w));
              dark := S (List.length (cells (store w))) |} w1 /\
    cells (store w1)
    = ((cells (store w)
        ++ [{| value := v0; subscriptions := []; computation := None |}])
       ++ [{| value := v0; subscriptions := []; computation := None |}])%list /\
    context (store w1) = context (store w) /\
    immediate (store w1) = immediate (store w) /\
    trace (store w1) = trace (store w) /\
    defaultVariables w1 = defaultVariables w /\
    components w1 = components w.
Proof.
  eexists. split.
  - unfold createColorSchemeSignal.
    rewrite (W_bind_eval _ _ _ _ _ (on_store_eval (createSignal v0) w _ _ eq_refl)).
    unfold bind, on_store, createSignal, ret. simpl.
    rewrite length_app. simpl. rewrite Nat.add_1_r. reflexivity.
  - simpl. auto 10.
Qed.
End ColorSchemes.

(** X9.  [setDark] of a color-scheme signal is [light.set], as [setLight]
    is: it stores the value for the light scheme, and the value for the
    dark scheme stays what it was. *)
Theorem setDark_writes_the_light_value
    (fuel : nat) (v0 v : jsval) (w : World) :
  SameValue v0 v = false ->
  exists c w1 w2,
    createColorSchemeSignal v0 w = Done c w1 /\
    ColorSchemeSignal_setDark (2 + fuel) c v w1 = Done tt w2 /\
    ColorSchemeSignal_setLight (2 + fuel) c v w1 = Done tt w2 /\
    peek (store w2) (light c) = v /\
    peek (store w2) (dark c) = v0.
Proof.
  intros Hv.
  destruct (createColorSchemeSignal_eval v0 w)
    as (w1 & Ecreate & Ecells & _).
  set (n := List.length (cells (store w))) in *.
  set (fresh := {| value := v0; subscriptions := []; computation := None |}
                : Signal jsval) in *.
  assert (El : nth_error (cells (store w1)) n = Some fresh).
  { rewrite Ecells.
    rewrite nth_error_app_front by (rewrite length_app; simpl; fold n; lia).
    apply nth_error_app_last. }
  assert (Ed : nth_error (cells (store w1)) (S n) = Some fresh).
  { rewrite Ecells.
    replace (S n) with (List.length (cells (store w) ++ [fresh])%list)
      by (rewrite length_app; simpl; unfold n; lia).
    apply nth_error_app_last. }
  set (st2 := with_immediate (fun q => (q ++ [n])%list)
                (update_cell n (with_value v) (store w1))).
  assert (Eset : set (2 + fuel) n v (store w1) = Done tt st2).
  { change (2 + fuel) with (S (S fuel)).
    rewrite (set_without_observers (S fuel) n v (store w1) fresh El).
    - simpl. rewrite Hv. reflexivity.
    - intros x [].
    - simpl. lia. }
  exists {| light := n; dark := S n |}, w1, (with_store (fun _ => st2) w1).
  split; [exact Ecreate |].
  split; [exact (on_store_eval _ w1 _ _ Eset) |].
  split; [exact (on_store_eval _ w1 _ _ Eset) |].
  unfold peek.
  change (cells (store (with_store (fun _ => st2) w1)))
    with (list_update n (with_value v) (cells (store w1))).
  rewrite !nth_error_list_update. simpl light. simpl dark.
  rewrite Nat.eqb_refl, El.
  replace (Nat.eqb (S n) n) with false by (symmetry; apply Nat.eqb_neq; lia).
  rewrite Ed. split; reflexivity.
Qed.

(** The theorem on a signal that holds 4. *)
Lemma setDark_writes_the_light_value_witness :
  exists c w1 w2,
    createColorSchemeSignal (JNum 4) example_world = Done c w1 /\
    ColorSchemeSignal_setDark 2 c (JNum 8) w1 = Done tt w2 /\
    peek (store w2) (light c) = JNum 8 /\
    peek (store w2) (dark c) = JNum 4.
Proof.
  destruct (setDark_writes_the_light_value 0 (JNum 4) (JNum 8) example_world
              eq_refl)
    as (c & w1 & w2 & Hc & Hs & _ & Hl & Hd).
  exists c, w1, w2. split; [exact Hc |]. split; [exact Hs |].
  split; [exact Hl | exact Hd].
Defined.

Section Proxies.
Implicit Types w : World.

Lemma defaultVariables_get_components prop w d w' :
  defaultVariables_get prop w = Done d w' -> components w' = components w.
Proof.
  unfold defaultVariables_get, bind, gets.
  destruct (JSObject.lookup prop (defaultVariables w)).
  - intros E. inversion E. reflexivity.
  - destruct (createColorSchemeSignal_eval JUndefined w)
      as (w1 & -> & _ & _ & _ & _ & _ & Ec).
    intros E. inversion E. subst. simpl. exact Ec.
Qed.

Lemma component_done ctx w c w' :
  component ctx w = Done c w' -> w' = w /\ nth_error (components w) ctx = Some c.
Proof.
  unfold component, lift_option.
  destruct (nth_error (components w) ctx); intros E; inversion E; auto.
Qed.

Lemma component_eval ctx w c :
  nth_error (components w) ctx = Some c -> component ctx w = Done c w.
Proof. unfold component, lift_option. intros ->. reflexivity. Qed.

(** Creating the signal of a variable creates no context and drops
    none. *)
Lemma createCSSVariableSignal_components (fuel : nat) :
  forall key v context w x w',
    createCSSVariableSignal fuel key v context w = Done x w' ->
    List.length (components w') = List.length (components w).
Proof.
  induction fuel as [| fuel IH]; intros key v context w x w' E;
    [discriminate |].
  simpl in E.
  apply bind_done in E. destruct E as (s & w1 & E1 & E).
  apply on_store_done in E1. destruct E1 as (st1 & _ & ->).
  apply bind_done in E. destruct E as (d & w2 & E2 & E).
  apply defaultVariables_get_components in E2.
  apply bind_done in E. destruct E as (p & w3 & E3 & E).
  inversion E. subst w'. clear E.
  assert (H3 : List.length (components w3) = List.length (components w2)).
  { destruct context as [parent |].
    - apply bind_done in E3. destruct E3 as (c & w4 & E4 & E3).
      apply component_done in E4. destruct E4 as [-> _].
      destruct (JSObject.lookup key (variables c)).
      + inversion E3. reflexivity.
      + apply bind_done in E3. destruct E3 as (x' & w5 & E5 & E3).
        apply IH in E5.
        apply bind_done in E3. destruct E3 as ([] & w6 & E6 & E3).
        inversion E3. subst w3. inversion E6. subst w6. simpl.
        rewrite length_list_update. exact E5.
    - inversion E3. reflexivity. }
  rewrite H3, E2. reflexivity.
Qed.
End Proxies.



(** X11.  The interaction signals of a context are created on first
    access: [layoutWidth] and [layoutHeight] start at 0, every other one
    at [false]; asking again yields the same signal and changes
    nothing. *)
Theorem interaction_signal_is_created_once
    (ctx : nat) (prop : string) (w : World) (c : ComponentContext) :
  nth_error (components w) ctx = Some c ->
  JSObject.lookup prop (interaction c) = None ->
  exists w1,
    interaction_get ctx prop w = Done (List.length (cells (store w))) w1 /\
    peek (store w1) (List.length (cells (store w)))
    = (if String.eqb prop "layoutHeight" || String.eqb prop "layoutWidth"
       then JNum 0 else JBool false) /\
    interaction_get ctx prop w1 = Done (List.length (cells (store w))) w1.
Proof.
  intros Ec El.
  set (n := List.length (cells (store w))).
  set (v := if String.eqb prop "layoutHeight" || String.eqb prop "layoutWidth"
            then JNum 0 else JBool false).
  set (w0 := with_store (fun _ => with_cells
                (fun l => (l ++ [{| value := v; subscriptions := [];
                                    computation := None |}])%list) (store w)) w).
  set (w1 := with_components (list_update ctx (with_interaction
                (JSObject.assign prop n))) w0).
  exists w1. split; [| split].
  - unfold interaction_get.
    rewrite (W_bind_eval _ _ _ _ _ (component_eval ctx w c Ec)). rewrite El.
    reflexivity.
  - unfold peek.
    change (cells (store w1))
      with (cells (store w) ++ [{| value := v; subscriptions := [];
                                   computation := None |}])%list.
    unfold n. rewrite nth_error_app_last. reflexivity.
  - unfold interaction_get.
    assert (Ec1 : nth_error (components w1) ctx
                  = Some (with_interaction (JSObject.assign prop n) c)).
    { simpl. rewrite nth_error_list_update, Nat.eqb_refl, Ec. reflexivity. }
    rewrite (W_bind_eval _ _ _ _ _ (component_eval ctx w1 _ Ec1)). simpl.
    rewrite lookup_assign, String.eqb_refl. reflexivity.
Qed.

(** The theorem on the width signal of a context. *)
Lemma interaction_signal_is_created_once_witness :
  exists w1,
    interaction_get 0 "layoutWidth" one_context = Done 4 w1 /\
    peek (store w1) 4 = JNum 0 /\
    interaction_get 0 "layoutWidth" w1 = Done 4 w1.
Proof.
  exact (interaction_signal_is_created_once 0 "layoutWidth" one_context
           {| containers := []; variables := []; interaction := [];
              inherited := None |} eq_refl eq_refl).
Defined.

Section VariableCleanup.
Implicit Types w : World.
Implicit Types st : Store jsval.

Lemma unsubscribe_eval s x st :
  s < List.length (cells st) ->
  unsubscribe s x st
  = Done tt (update_cell s (with_subscriptions (JSSet.delete subscriber_eqb x)) st).
Proof.
  intros Hs. unfold unsubscribe.
  destruct (nth_error (cells st) s) as [k |] eqn:Ek.
  - rewrite (bind_eval _ _ _ _ _ (cell_eval s st k Ek)). reflexivity.
  - apply nth_error_None in Ek. lia.
Qed.

Lemma unsubscribe_returns_or_raises s x st :
  (exists st', unsubscribe s x st = Done tt st') \/ unsubscribe s x st = Throws.
Proof.
  unfold unsubscribe, bind, cell, lift_option.
  destruct (nth_error (cells st) s); simpl;
    [left; eexists; reflexivity | right; reflexivity].
Qed.

Lemma peek_update_subscriptions i g st y :
  peek (update_cell i (with_subscriptions g) st) y = peek st y.
Proof.
  unfold peek, update_cell, with_cells. simpl. rewrite nth_error_list_update.
  destruct (Nat.eqb y i) eqn:E; auto. apply Nat.eqb_eq in E. subst.
  destruct (nth_error (cells st) i); reflexivity.
Qed.

Lemma length_update_cell i (f : Signal jsval -> Signal jsval) st :
  List.length (cells (update_cell i f st)) = List.length (cells st).
Proof. unfold update_cell, with_cells. simpl. apply length_list_update. Qed.

(** One round of the loop of [cleanup]: the subscriber [z] is deleted
    from the three cells [targets]. *)
Lemma In_subs_of_delete d (x z : subscriber) st y :
  In (Some z) (subs_of (update_cell d (with_subscriptions
                          (JSSet.delete subscriber_eqb x)) st) y) <->
  In (Some z) (subs_of st y) /\ (y = d -> z <> x).
Proof.
  rewrite subs_of_delete. destruct (Nat.eqb y d) eqn:E.
  - apply Nat.eqb_eq in E. subst.
    rewrite (In_delete subscriber_eqb subscriber_eqb_eq). tauto.
  - apply Nat.eqb_neq in E. tauto.
Qed.

Lemma cleanup_loop (d : ColorSchemeSignal) (p : CSSVariableSignal) :
  forall (l : list subscriber) w,
    light d < List.length (cells (store w)) ->
    dark d < List.length (cells (store w)) ->
    signal p < List.length (cells (store w)) ->
    exists w',
      (fix loop (l : list subscriber) : W unit :=
         match l with
         | [] => ret tt
         | subscription :: l' =>
             ColorSchemeSignal_unsubscribe d subscription ;;;
             p' <- lift_option (Some p) ;;
             on_store (unsubscribe (signal p') subscription) ;;;
             loop l'
         end) l w = Done tt w' /\
      (forall y z, In (Some z) (subs_of (store w') y) <->
         In (Some z) (subs_of (store w) y) /\
         (In y [light d; dark d; signal p] -> ~ In z l)) /\
      (forall y, peek (store w') y = peek (store w) y).
Proof.
  induction l as [| x l IH]; intros w Hl Hd Hp.
  - exists w. split; [reflexivity |]. split; [| reflexivity].
    intros y z. simpl. tauto.
  - set (del := fun i => @update_cell jsval i (with_subscriptions
                            (JSSet.delete subscriber_eqb x))).
    set (st3 := del (signal p) (del (dark d) (del (light d) (store w)))).
    assert (Hlen : List.length (cells st3) = List.length (cells (store w))).
    { unfold st3, del. rewrite !length_update_cell. reflexivity. }
    assert (Hl3 : light d < List.length (cells (store (with_store (fun _ => st3) w))))
      by (change (light d < List.length (cells st3)); rewrite Hlen; assumption).
    assert (Hd3 : dark d < List.length (cells (store (with_store (fun _ => st3) w))))
      by (change (dark d < List.length (cells st3)); rewrite Hlen; assumption).
    assert (Hp3 : signal p < List.length (cells (store (with_store (fun _ => st3) w))))
      by (change (signal p < List.length (cells st3)); rewrite Hlen; assumption).
    destruct (IH (with_store (fun _ => st3) w) Hl3 Hd3 Hp3)
      as (w' & Eloop & Hsubs & Hpeek).
    exists w'. split; [| split].
    + unfold ColorSchemeSignal_unsubscribe.
      assert (E1 : on_store (unsubscribe (light d) x) w
                   = Done tt (with_store (fun _ => del (light d) (store w)) w)).
      { apply on_store_eval. apply unsubscribe_eval. assumption. }
      assert (E2 : on_store (unsubscribe (dark d) x)
                     (with_store (fun _ => del (light d) (store w)) w)
                   = Done tt (with_store
                                (fun _ => del (dark d) (del (light d) (store w))) w)).
      { rewrite (on_store_eval _ _ tt (del (dark d) (del (light d) (store w)))).
        - reflexivity.
        - apply unsubscribe_eval.
          change (dark d < List.length (cells (del (light d) (store w)))).
          unfold del. rewrite length_update_cell. assumption. }
      assert (E3 : on_store (unsubscribe (signal p) x)
                     (with_store
                        (fun _ => del (dark d) (del (light d) (store w))) w)
                   = Done tt (with_store (fun _ => st3) w)).
      { rewrite (on_store_eval _ _ tt st3).
        - reflexivity.
        - apply unsubscribe_eval.
          change (signal p
                  < List.length (cells (del (dark d) (del (light d) (store w))))).
          unfold del. rewrite !length_update_cell. assumption. }
      unfold bind at 1. unfold bind at 1. rewrite E1. rewrite E2.
      unfold bind at 1. simpl lift_option. unfold ret at 1.
      unfold bind at 1. rewrite E3. exact Eloop.
    + intros y z. rewrite Hsubs. simpl store. unfold st3, del.
      rewrite !In_subs_of_delete. simpl In.
      split.
      * intros ((((Hin & H1) & H2) & H3) & H4). split; [exact Hin |].
        intros Hy [Hx | Hz]; [| exact (H4 Hy Hz)]. subst z.
        destruct Hy as [Hy | [Hy | [Hy | []]]]; subst y; [apply H1 | apply H2 | apply H3];
          reflexivity.
      * intros (Hin & H). repeat split; try exact Hin.
        -- intros -> ->. apply H; auto.
        -- intros -> ->. apply H; auto.
        -- intros -> ->. apply H; auto.
        -- intros Hy Hz. apply (H Hy). right. exact Hz.
    + intros y. rewrite Hpeek. simpl store. unfold st3, del.
      rewrite !peek_update_subscriptions. reflexivity.
Qed.
End VariableCleanup.

(** X12.  [cleanup] of the signal of a variable takes every subscriber
    of the signal out of the two cells of the default signal and out of
    the cell of the parent's signal, and nothing else: the signal keeps
    its own subscribers, and no value changes. *)
Theorem cleanup_unsubscribes_from_default_and_parent
    (x p : CSSVariableSignal) (w : World) (k : Signal jsval) :
  parentSignal x = Some p ->
  nth_error (cells (store w)) (signal x) = Some k ->
  light (defaultSignal x) < List.length (cells (store w)) ->
  dark (defaultSignal x) < List.length (cells (store w)) ->
  signal p < List.length (cells (store w)) ->
  exists w',
    CSSVariableSignal_cleanup x w = Done tt w' /\
    (forall y z,
        In (Some z) (subs_of (store w') y) <->
        In (Some z) (subs_of (store w) y) /\
        (In y [light (defaultSignal x); dark (defaultSignal x); signal p] ->
         ~ In (Some z) (subscriptions k))) /\
    (forall y, peek (store w') y = peek (store w) y).
Proof.
  intros Hp Ek Hl Hd Hs.
  destruct (cleanup_loop (defaultSignal x) p (JSSet.elements (subscriptions k)) w
              Hl Hd Hs) as (w' & Eloop & Hsubs & Hpeek).
  exists w'. split; [| split].
  - unfold CSSVariableSignal_cleanup.
    rewrite (W_bind_eval _ _ _ _ _
               (on_store_eval (cell (signal x)) w k (store w)
                  (cell_eval _ _ _ Ek))).
    rewrite Hp.
    assert (Ew : with_store (fun _ => store w) w = w) by (destruct w; reflexivity).
    rewrite Ew. exact Eloop.
  - intros y z. rewrite Hsubs. rewrite In_elements. reflexivity.
  - exact Hpeek.
Qed.

(** The theorem on the variable of a child context: the callback leaves
    the parent's signal and stays on the child's. *)
Lemma cleanup_unsubscribes_from_default_and_parent_witness :
  exists p w',
    parentSignal (fst child_variable) = Some p /\
    subs_of (store (snd child_variable)) (signal p) = [Some (Callback 7)] /\
    CSSVariableSignal_cleanup (fst child_variable) (snd child_variable) = Done tt w' /\
    ~ In (Some (Callback 7)) (subs_of (store w') (signal p)) /\
    In (Some (Callback 7)) (subs_of (store w') (signal (fst child_variable))).
Proof.
  destruct (parentSignal (fst child_variable)) as [p |] eqn:Ep; [| discriminate Ep].
  destruct (cleanup_unsubscribes_from_default_and_parent (fst child_variable) p (snd child_variable)
              {| value := JUndefined; subscriptions := [Some (Callback 7)];
                 computation := None |} Ep eq_refl)
    as (w' & Ec & Hsubs & _).
  - vm_compute. lia.
  - vm_compute. lia.
  - vm_compute in Ep. inversion Ep. vm_compute. lia.
  - exists p, w'. split; [reflexivity |].
    split; [vm_compute in Ep; inversion Ep; reflexivity |].
    split; [exact Ec |]. split.
    + intros Hin. apply Hsubs in Hin. destruct Hin as [_ Hin]. apply Hin.
      * right. right. left. reflexivity.
      * left. reflexivity.
    + apply Hsubs. split.
      * left. reflexivity.
      * vm_compute in Ep. inversion Ep. subst p.
        intros [E | [E | [E | []]]]; vm_compute in E; discriminate E.
Defined.

(** X13.  The signal of a variable in a context with no parent has no
    parent signal, and its [cleanup] reads [parentSignal.unsubscribe] for
    every subscriber: with no subscriber [cleanup] does nothing, with one
    it raises, and so does [set] of a value that is not [undefined]. *)
Theorem cleanup_without_parent_raises
    (fuel : nat) (x : CSSVariableSignal) (w : World) (k : Signal jsval)
    (v : jsval) :
  parentSignal x = None ->
  nth_error (cells (store w)) (signal x) = Some k ->
  (JSSet.elements (subscriptions k) = [] ->
   CSSVariableSignal_cleanup x w = Done tt w) /\
  (JSSet.elements (subscriptions k) <> [] ->
   CSSVariableSignal_cleanup x w = Throws /\
   (nullish v = false -> CSSVariableSignal_set fuel x v w = Throws)).
Proof.
  intros Hp Ek.
  assert (Ew : with_store (fun _ => store w) w = w) by (destruct w; reflexivity).
  assert (Ecell : on_store (cell (signal x)) w = Done k w).
  { rewrite (on_store_eval (cell (signal x)) w k (store w) (cell_eval _ _ _ Ek)).
    rewrite Ew. reflexivity. }
  split.
  - intros Hnone. unfold CSSVariableSignal_cleanup.
    rewrite (W_bind_eval _ _ _ _ _ Ecell), Hnone. reflexivity.
  - intros Hsome.
    assert (Hc : CSSVariableSignal_cleanup x w = Throws).
    { unfold CSSVariableSignal_cleanup.
      rewrite (W_bind_eval _ _ _ _ _ Ecell), Hp.
      destruct (JSSet.elements (subscriptions k)) as [| z l]; [congruence |].
      unfold ColorSchemeSignal_unsubscribe, bind, on_store.
      destruct (unsubscribe_returns_or_raises (light (defaultSignal x)) z (store w))
        as [(st1 & ->) | ->]; [| reflexivity].
      simpl store.
      destruct (unsubscribe_returns_or_raises (dark (defaultSignal x)) z st1)
        as [(st2 & ->) | ->]; reflexivity. }
    split; [exact Hc |]. intros Hv. unfold CSSVariableSignal_set.
    rewrite Hv. unfold bind. rewrite Hc. reflexivity.
Qed.

(** The theorem on the variable of a context with no parent. *)
Lemma cleanup_without_parent_raises_witness :
  parentSignal (fst orphan_variable) = None /\
  subs_of (store (snd orphan_variable)) (signal (fst orphan_variable)) = [Some (Callback 7)] /\
  CSSVariableSignal_cleanup (fst orphan_variable) (snd orphan_variable) = Throws /\
  CSSVariableSignal_set 3 (fst orphan_variable) (JNum 8) (snd orphan_variable) = Throws.
Proof.
  split; [reflexivity |]. split; [reflexivity |].
  destruct (cleanup_without_parent_raises 3 (fst orphan_variable) (snd orphan_variable)
              {| value := JUndefined; subscriptions := [Some (Callback 7)];
                 computation := None |} (JNum 8) eq_refl eq_refl)
    as [_ Hraises].
  destruct Hraises as [Hc Hs]; [discriminate |].
  split; [exact Hc | exact (Hs eq_refl)].
Defined.

(** ** The flattener: declarations *)

Lemma split_on_absent (sep : Ascii.ascii) (s : string) :
  has_char sep s = false -> split_on sep s = [s].
Proof.
  unfold split_on, has_char.
  enough (Hgo : forall acc,
             existsb (Ascii.eqb sep) (list_ascii_of_string s) = false ->
             (fix go (s : string) (acc : string) : list string :=
                match s with
                | EmptyString => [acc]
                | String c s' =>
                    if Ascii.eqb c sep then acc :: go s' EmptyString
                    else go s' (acc ++ String c EmptyString)
                end) s acc = [acc ++ s]).
  { intros Hs. apply (Hgo EmptyString Hs). }
  induction s as [| c s IH]; intros acc Hs; simpl in *.
  - f_equal. induction acc as [| a acc IHa]; simpl; congruence.
  - apply orb_false_iff in Hs. destruct Hs as [Hc Hs].
    rewrite Ascii.eqb_sym in Hc. rewrite Hc. rewrite (IH _ Hs). f_equal.
    clear. induction acc as [| a acc IHa]; simpl; congruence.
Qed.

Section Objects2.
Context {A : Type}.

Lemma assign_assign (key : string) (v v' : A) (o : JSObject.t A) :
  JSObject.assign key v (JSObject.assign key v' o) = JSObject.assign key v o.
Proof.
  induction o as [| [k w] o IH]; simpl.
  - rewrite String.eqb_refl. reflexivity.
  - destruct (String.eqb key k) eqn:E; simpl; rewrite E; congruence.
Qed.
End Objects2.

Section Declarations.
Context `{Platform}.

Lemma extractValue_plain fuel v flatStyle meta ctx options w :
  is_runtime v = false ->
  extractValue (S fuel) v flatStyle meta ctx options w = Done (Value v) w.
Proof. destruct v; simpl; intros E; try discriminate; reflexivity. Qed.

Lemma extractAndDefineProperty_plain fuel key v flatStyle meta ctx options w :
  is_runtime v = false -> has_char "."%char key = false ->
  extractAndDefineProperty (S fuel) key v flatStyle meta ctx options w
  = Done (define flatStyle (key, v)) w.
Proof.
  intros Hv Hk. unfold extractAndDefineProperty.
  rewrite (W_bind_eval _ _ _ _ _ (extractValue_plain fuel v flatStyle meta ctx
                                    options w Hv)).
  rewrite (split_on_absent _ _ Hk). unfold define. simpl.
  destruct v; reflexivity.
Qed.

Lemma lookup_define (flatStyle : Style) (key : string) (kv : string * jsval) :
  JSObject.lookup key (define flatStyle kv) =
    if String.eqb key (fst kv) && negb (nullish (snd kv))
    then Some (Accessor (Value (snd kv)))
    else JSObject.lookup key flatStyle.
Proof.
  unfold define. destruct kv as [k v]. simpl.
  destruct v; simpl; rewrite ?andb_false_r, ?andb_true_r; try reflexivity;
    apply lookup_assign.
Qed.

Lemma lookup_fold_define (key : string) (entries : list (string * jsval)) :
  forall flatStyle,
    ~ In key (map fst entries) ->
    JSObject.lookup key (fold_left define entries flatStyle)
    = JSObject.lookup key flatStyle.
Proof.
  induction entries as [| [k v] entries IH]; intros flatStyle Hk; simpl; auto.
  rewrite IH by (intros Hin; apply Hk; right; assumption).
  rewrite lookup_define. simpl.
  destruct (String.eqb key k) eqn:E; auto.
  apply String.eqb_eq in E. subst. exfalso. apply Hk. left. reflexivity.
Qed.
End Declarations.

(** X14.  Declarations of plain values (no runtime value, no key of a
    transform or shadow, no dotted key) are written one after the other,
    each as a property that yields its value; a declaration of
    [undefined] writes nothing.  So the last declaration of a key is the
    one the accumulator holds, and a key no declaration names keeps what
    the accumulator held. *)
Theorem plain_declarations_are_written_in_order `{Platform}
    (fuel : nat) (entries : list (string * jsval)) (flatStyle : Style)
    (meta : StyleMeta.t getterOrValue) (ctx : nat)
    (options : FlattenStyleOptions) (w : World) :
  Forall (fun kv => ordinary_key (fst kv) /\ is_runtime (snd kv) = false)
         entries ->
  flatten_declarations (S fuel) entries flatStyle meta ctx options w
  = Done (fold_left define entries flatStyle) w /\
  (forall before key v after,
      entries = (before ++ (key, v) :: after)%list ->
      ~ In key (map fst after) -> v <> JUndefined ->
      JSObject.lookup key (fold_left define entries flatStyle)
      = Some (Accessor (Value v))) /\
  (forall key,
      ~ In key (map fst entries) ->
      JSObject.lookup key (fold_left define entries flatStyle)
      = JSObject.lookup key flatStyle).
Proof.
  intros Hplain. split; [| split].
  - revert flatStyle. induction Hplain as [| [key v] entries [Hk Hv] _ IH];
      intros flatStyle; [reflexivity |].
    simpl in Hk, Hv. destruct Hk as (Ht & Hs & Ho & Hdot).
    cbn [flatten_declarations].
    apply String.eqb_neq in Ht, Hs, Ho. rewrite Ht, Hs, Ho.
    rewrite (W_bind_eval _ _ _ _ _
               (extractAndDefineProperty_plain fuel key v flatStyle meta ctx
                  options w Hv Hdot)).
    apply IH.
  - intros before key v after -> Hafter Hv.
    rewrite fold_left_app. simpl. rewrite lookup_fold_define by assumption.
    rewrite lookup_define. simpl. rewrite String.eqb_refl.
    destruct v; try reflexivity. congruence.
  - intros key Hkey. apply lookup_fold_define. assumption.
Qed.

(** The theorem on a color declared twice. *)
Lemma plain_declarations_are_written_in_order_witness :
  flatten_declarations (H := example_platform) 1
    [("color", JStr "red"); ("opacity", JNum 1); ("color", JStr "blue")]
    [] (StyleMeta.inline true) 0 no_options one_context
  = Done [("color", Accessor (Value (JStr "blue")));
          ("opacity", Accessor (Value (JNum 1)))] one_context.
Proof.
  refine (proj1 (plain_declarations_are_written_in_order
                   (H := example_platform) 0
                   [("color", JStr "red"); ("opacity", JNum 1);
                    ("color", JStr "blue")]
                   [] (StyleMeta.inline true) 0 no_options one_context _)).
  repeat constructor; simpl; try discriminate.
Defined.

Section NestedKeys.
Context `{Platform}.

Lemma extractAndDefineProperty_value fuel key v flatStyle meta ctx options w :
  is_runtime v = false -> v <> JUndefined ->
  extractAndDefineProperty (S fuel) key v flatStyle meta ctx options w
  = lift_option (define_path (split_on "."%char key) (Value v) flatStyle) w.
Proof.
  intros Hv Hn. unfold extractAndDefineProperty.
  rewrite (W_bind_eval _ _ _ _ _ (extractValue_plain fuel v flatStyle meta ctx
                                    options w Hv)).
  destruct v; try reflexivity. congruence.
Qed.

Lemma define_nested (key name : string) (g : getterOrValue) (flatStyle : Style) :
  JSObject.lookup key flatStyle = None ->
  define_path [key; name] g flatStyle
  = Some (JSObject.assign key (DataObject [(name, Accessor g)]) flatStyle).
Proof. intros Hnone. cbn [define_path]. rewrite Hnone. reflexivity. Qed.

Lemma define_nested_again (key name : string) (g : getterOrValue)
    (o : list (string * property)) (flatStyle : Style) :
  JSObject.lookup key flatStyle = Some (DataObject o) ->
  define_path [key; name] g flatStyle
  = Some (JSObject.assign key
            (DataObject (JSObject.assign name (Accessor g) o)) flatStyle).
Proof. intros Hsome. cbn [define_path]. rewrite Hsome. reflexivity. Qed.
End NestedKeys.


(** X15.  [textShadow] and [shadowOffset] hold a pair: its two entries
    become the properties [width] and [height] of one nested object,
    written at the key.  A style whose pair is [undefined] cannot be
    flattened: reading its first entry raises. *)
Theorem shadow_pair_becomes_an_object `{Platform}
    (fuel : nat) (key : string) (a b : jsval) (flatStyle : Style)
    (meta : StyleMeta.t getterOrValue) (ctx : nat)
    (options : FlattenStyleOptions) (w : World) :
  key = "textShadow" \/ key = "shadowOffset" ->
  is_runtime a = false -> is_runtime b = false ->
  a <> JUndefined -> b <> JUndefined ->
  JSObject.lookup key flatStyle = None ->
  flatten_declarations (S fuel) [(key, JArr [a; b])] flatStyle meta ctx options w
  = Done (JSObject.assign key
            (DataObject [("width", Accessor (Value a));
                         ("height", Accessor (Value b))]) flatStyle) w /\
  flatten_declarations (S fuel) [(key, JUndefined)] flatStyle meta ctx options w
  = Throws.
Proof.
  intros Hkey Ha Hb Hna Hnb Hnone. split.
  - assert (Hw :
               split_on "."%char (key ++ ".width") = [key; "width"] ->
               split_on "."%char (key ++ ".height") = [key; "height"] ->
               (s1 <- extractAndDefineProperty (S fuel) (key ++ ".width") a
                        flatStyle meta ctx options ;;
                extractAndDefineProperty (S fuel) (key ++ ".height") b s1 meta
                  ctx options) w
               = Done (JSObject.assign key
                         (DataObject [("width", Accessor (Value a));
                                      ("height", Accessor (Value b))]) flatStyle)
                   w).
    { intros Ew Eh. unfold bind.
      rewrite (extractAndDefineProperty_value fuel _ a flatStyle meta ctx options
                 w Ha Hna), Ew, (define_nested _ _ _ _ Hnone).
      cbn [lift_option ret].
      rewrite (extractAndDefineProperty_value fuel _ b _ meta ctx options
                 w Hb Hnb), Eh.
      rewrite (define_nested_again _ _ _ [("width", Accessor (Value a))])
        by (rewrite lookup_assign, String.eqb_refl; reflexivity).
      rewrite assign_assign. reflexivity. }
    destruct Hkey as [-> | ->]; cbn [flatten_declarations]; simpl String.eqb;
      cbv iota; unfold index; cbn [nth];
      specialize (Hw eq_refl eq_refl); simpl append in Hw;
      unfold bind, ret in Hw |- *; rewrite Hw; reflexivity.
  - destruct Hkey as [-> | ->]; reflexivity.
Qed.

(** The theorem on an offset of 2 by 4. *)
Lemma shadow_pair_becomes_an_object_witness :
  flatten_declarations (H := example_platform) 1
    [("shadowOffset", JArr [JNum 2; JNum 4])]
    [] (StyleMeta.inline true) 0 no_options one_context
  = Done [("shadowOffset",
           DataObject [("width", Accessor (Value (JNum 2)));
                       ("height", Accessor (Value (JNum 4)))])] one_context.
Proof.
  refine (proj1 (shadow_pair_becomes_an_object (H := example_platform) 0
                   "shadowOffset" (JNum 2) (JNum 4) [] (StyleMeta.inline true) 0
                   no_options one_context _ eq_refl eq_refl _ _ eq_refl)).
  - right. reflexivity.
  - discriminate.
  - discriminate.
Defined.

(** ** The resolver: runtime functions *)

Section RuntimeFunctions.
Context `{Platform}.

(** A runtime function whose arguments are plain values is called when
    it is resolved. *)
Lemma createRuntimeFunction_static fuel name args flatStyle meta ctx options o w :
  Forall (fun a => is_runtime a = false) args ->
  createRuntimeFunction (S (S fuel)) name args flatStyle meta ctx options o w
  = (v <- finish name o args ;; ret (Value v)) w.
Proof.
  intros Hargs. cbn [createRuntimeFunction].
  match goal with
  | |- bind (?f args) _ w = _ =>
      assert (Hloop : forall l, Forall (fun a => is_runtime a = false) l ->
                                f l w = Done (map Value l) w)
  end.
  { induction 1 as [| a l Ha _ IH]; [reflexivity |].
    rewrite (W_bind_eval _ _ _ _ _
               (extractValue_plain fuel a flatStyle meta ctx options w Ha)).
    rewrite (W_bind_eval _ _ _ _ _ IH). reflexivity. }
  rewrite (W_bind_eval _ _ _ _ _ (Hloop args Hargs)).
  assert (Hstatic : existsb is_function (map Value args) = false).
  { clear. induction args; simpl; auto. }
  rewrite Hstatic. rewrite invoke_S.
  match goal with
  | |- bind (bind (?f (map Value args)) _) _ w = _ =>
      assert (Hcall : forall l, f (map Value l) w = Done l w)
  end.
  { induction l as [| a l IH]; [reflexivity |]. simpl map. cbv iota beta.
    rewrite (W_bind_eval _ _ _ _ _ IH). reflexivity. }
  unfold bind. rewrite Hcall. reflexivity.
Qed.

Lemma finish_nothing name o args w :
  joinArguments o = true -> Forall (fun a => a = JUndefined) args ->
  finish name o args w = Done JUndefined w.
Proof.
  intros Hj Hargs. unfold finish.
  assert (Hnone : filter (fun a => negb (nullish a)) args = []).
  { induction Hargs as [| a l -> _ IH]; simpl; auto. }
  rewrite Hnone, Hj. reflexivity.
Qed.

Lemma finish_returns name o args w :
  callback o = None -> exists v, finish name o args w = Done v w.
Proof.
  intros Hc. unfold finish. rewrite Hc.
  destruct (joinArguments o &&
            String.eqb (join ", " (filter (fun a => negb (nullish a)) args)) "");
    eexists; reflexivity.
Qed.
End RuntimeFunctions.

(** X16.  A runtime function that [extractValue] passes on with joined
    arguments, called with no argument or with arguments that are all
    [undefined], resolves to [undefined]: the joined text is empty, and
    [valueFn] returns before it wraps, parses or calls back.  Its
    declaration is then left out of the accumulator. *)
Theorem empty_arguments_resolve_to_undefined `{Platform}
    (fuel : nat) (name key : string) (args : list jsval) (flatStyle : Style)
    (meta : StyleMeta.t getterOrValue) (ctx : nat)
    (options : FlattenStyleOptions) (w : World) :
  in_cases name own_case = false ->
  Forall (fun a => a = JUndefined) args ->
  extractValue (3 + fuel) (JRuntime name args) flatStyle meta ctx options w
  = Done (Value JUndefined) w /\
  extractAndDefineProperty (3 + fuel) key (JRuntime name args) flatStyle meta ctx
    options w
  = Done flatStyle w.
Proof.
  intros Hname Hargs.
  assert (Hplain : Forall (fun a => is_runtime a = false) args).
  { eapply Forall_impl; [| exact Hargs]. intros a ->. reflexivity. }
  assert (Hcall : forall o, joinArguments o = true ->
             createRuntimeFunction (S (S fuel)) name args flatStyle meta ctx
               options o w = Done (Value JUndefined) w).
  { intros o Hj. rewrite (createRuntimeFunction_static _ _ _ _ _ _ _ _ _ Hplain).
    rewrite (W_bind_eval _ _ _ _ _ (finish_nothing name o args w Hj Hargs)).
    reflexivity. }
  assert (E : extractValue (3 + fuel) (JRuntime name args) flatStyle meta ctx
                options w = Done (Value JUndefined) w).
  { unfold in_cases, own_case in Hname. cbn [existsb] in Hname.
    repeat match type of Hname with
           | (_ || _)%bool = false =>
               apply orb_false_iff in Hname;
               let E := fresh "E" in destruct Hname as [E Hname]
           end.
    change (3 + fuel) with (S (S (S fuel))). cbn [extractValue].
    rewrite E, E0, E1, E2, E3, E4, E5, E6, E7, E8, E9, E10, E11, E12.
    cbv zeta.
    repeat match goal with
           | |- (if ?b then _ else _) _ = _ => destruct b
           end;
      apply Hcall; reflexivity. }
  split; [exact E |].
  unfold extractAndDefineProperty. rewrite (W_bind_eval _ _ _ _ _ E). reflexivity.
Qed.

(** The theorem on a translation with no argument. *)
Lemma empty_arguments_resolve_to_undefined_witness :
  extractValue (H := example_platform) 3 (JRuntime "translateX" []) []
    (StyleMeta.inline true) 0 no_options one_context
  = Done (Value JUndefined) one_context.
Proof.
  exact (proj1 (empty_arguments_resolve_to_undefined (H := example_platform) 0
                  "translateX" "transform" [] [] (StyleMeta.inline true) 0
                  no_options one_context eq_refl (Forall_nil _))).
Defined.

(** ** The flattener: transforms *)

(** X17.  A [transform] whose entries are plain objects of plain values
    is flattened to one entry for each key of each object, in order, each
    holding its value; the list replaces whatever [transform] the
    accumulator held. *)
Theorem transform_objects_are_split_by_key `{Platform}
    (fuel : nat) (items : list jsval) (flatStyle : Style)
    (meta : StyleMeta.t getterOrValue) (ctx : nat)
    (options : FlattenStyleOptions) (w : World) :
  Forall plain_transform items ->
  transform_is_data flatStyle ->
  flatten_transform (S fuel) (JArr items) flatStyle meta ctx options w
  = Done (JSObject.assign "transform" (DataArray (split_transforms items))
            flatStyle) w.
Proof.
  intros Hitems Hdata. unfold flatten_transform.
  rewrite (W_bind_eval _ _ w items w eq_refl).
  match goal with
  | |- bind (?f items []) _ w = _ =>
      assert (Hloop : forall l acc, Forall plain_transform l ->
                 f l acc w = Done (acc ++ split_transforms l)%list w)
  end.
  { induction l as [| transform l IH]; intros acc Hl.
    - unfold split_transforms. simpl. rewrite app_nil_r. reflexivity.
    - inversion Hl as [| t l' (o & -> & Htype & Hvalues) Hl']. subst.
      cbn [has_type lift_option]. rewrite Htype.
      rewrite (W_bind_eval _ _ w false w eq_refl). cbv iota.
      match goal with
      | |- bind (?g (entries_of (JObj o)) acc) _ w = _ =>
          assert (Hentries : forall e acc', Forall (fun kv => is_runtime (snd kv) = false) e ->
                     g e acc' w
                     = Done (acc' ++ map (fun kv => [(fst kv, DataValue (snd kv))]) e)%list w)
      end.
      { induction e as [| [tKey tValue] e IHe]; intros acc' He.
        - simpl. rewrite app_nil_r. reflexivity.
        - inversion He as [| kv e' Hv He']. subst. simpl in Hv.
          rewrite (W_bind_eval _ _ _ _ _
                     (extractValue_plain fuel tValue flatStyle meta ctx options w
                        Hv)).
          rewrite (IHe _ He'). simpl. rewrite <- app_assoc. reflexivity. }
      rewrite (W_bind_eval _ _ _ _ _ (Hentries (entries_of (JObj o)) acc Hvalues)).
      rewrite (IH _ Hl'). unfold split_transforms. simpl.
      rewrite <- app_assoc. reflexivity. }
  rewrite (W_bind_eval _ _ _ _ _ (Hloop items [] Hitems)). simpl app.
  unfold transform_is_data in Hdata.
  destruct (JSObject.lookup "transform" flatStyle) as [[g | v | o | l] |];
    try reflexivity. contradiction.
Qed.

(** The theorem on a translation and a scale. *)
Lemma transform_objects_are_split_by_key_witness :
  flatten_transform (H := example_platform) 1
    (JArr [JObj [("translateX", JNum 10); ("translateY", JNum 20)];
           JObj [("scale", JNum 2)]])
    [("transform", DataArray [[("rotate", DataValue (JStr "45deg"))]])]
    (StyleMeta.inline true) 0 no_options one_context
  = Done [("transform",
           DataArray [[("translateX", DataValue (JNum 10))];
                      [("translateY", DataValue (JNum 20))];
                      [("scale", DataValue (JNum 2))]])] one_context.
Proof.
  refine (transform_objects_are_split_by_key (H := example_platform) 0
            [JObj [("translateX", JNum 10); ("translateY", JNum 20)];
             JObj [("scale", JNum 2)]]
            [("transform", DataArray [[("rotate", DataValue (JStr "45deg"))]])]
            (StyleMeta.inline true) 0 no_options one_context _ I).
  repeat constructor; eexists; (split; [reflexivity |]); split;
    try reflexivity; repeat constructor.
Defined.

(** X18.  An entry of [transform] that is a runtime value is kept only
    when it resolves to a function: a transform function whose arguments
    are all plain values resolves at once, and the entry is left out of
    the flattened list. *)
Theorem static_transform_function_is_left_out `{Platform}
    (fuel : nat) (name : string) (args : list jsval) (flatStyle : Style)
    (meta : StyleMeta.t getterOrValue) (ctx : nat)
    (options : FlattenStyleOptions) (w : World) :
  In name transform_functions ->
  Forall (fun a => is_runtime a = false) args ->
  transform_is_data flatStyle ->
  (exists v,
      extractValue (3 + fuel) (JRuntime name args) flatStyle meta ctx options w
      = Done (Value v) w) /\
  flatten_transform (3 + fuel) (JArr [JRuntime name args]) flatStyle meta ctx
    options w
  = Done (JSObject.assign "transform" (DataArray []) flatStyle) w.
Proof.
  intros Hname Hargs Hdata.
  assert (E : exists v,
             extractValue (3 + fuel) (JRuntime name args) flatStyle meta ctx
               options w = Done (Value v) w).
  { assert (Hcall : forall o, callback o = None ->
               exists v, createRuntimeFunction (S (S fuel)) name args flatStyle
                           meta ctx options o w = Done (Value v) w).
    { intros o Ho. destruct (finish_returns name o args w Ho) as (v & Ev).
      exists v. rewrite (createRuntimeFunction_static _ _ _ _ _ _ _ _ _ Hargs).
      rewrite (W_bind_eval _ _ _ _ _ Ev). reflexivity. }
    unfold transform_functions in Hname. simpl in Hname.
    repeat destruct Hname as [<- | Hname]; try contradiction;
      apply Hcall; reflexivity. }
  split; [exact E |]. destruct E as (v & E).
  unfold flatten_transform.
  rewrite (W_bind_eval _ _ w [JRuntime name args] w eq_refl).
  cbv beta iota fix. cbn [has_type lift_option].
  match goal with
  | |- bind (bind (ret true) ?k) _ w = _ =>
      change (bind (ret true) k) with (k true)
  end.
  cbv beta iota.
  unfold bind at 1. unfold bind at 1. rewrite E. cbv beta iota.
  unfold transform_is_data in Hdata.
  destruct (JSObject.lookup "transform" flatStyle) as [[g | v' | o | l] |];
    try reflexivity. contradiction.
Qed.

(** The theorem on [translateX(10)]. *)
Lemma static_transform_function_is_left_out_witness :
  flatten_transform (H := example_platform) 3
    (JArr [JRuntime "translateX" [JNum 10]]) [] (StyleMeta.inline true) 0
    no_options one_context
  = Done [("transform", DataArray [])] one_context.
Proof.
  refine (proj2 (static_transform_function_is_left_out (H := example_platform) 0
                   "translateX" [JNum 10] [] (StyleMeta.inline true) 0
                   no_options one_context _ _ I)).
  - right. left. reflexivity.
  - repeat constructor.
Defined.

(** ** The flattener: variables of a fragment *)

Section OwnVariables.
Context `{Platform} `{Cascade}.

Lemma merge_metadata_variables (m : StyleMeta.t jsval)
    (m1 : StyleMeta.t getterOrValue) :
  StyleMeta.variables (merge_metadata m m1) = StyleMeta.variables m1.
Proof.
  unfold merge_metadata.
  destruct (StyleMeta.animations m), (StyleMeta.transition m),
    (StyleMeta.container m), (StyleMeta.requiresLayout m); reflexivity.
Qed.

Lemma extractValue_declared fuel name v flatStyle meta ctx options w :
  plain_data v ->
  field name (StyleMeta.variables meta) = Some (Value v) ->
  extractValue (S fuel) (JRuntime "var" [JStr name]) flatStyle meta ctx options w
  = Done (Getter (VarGetter v)) w.
Proof.
  intros (Hr & Hn & Hget) Hfield. rewrite extractValue_var. cbv zeta.
  cbn [nth ToString]. unfold field in Hfield.
  destruct (StyleMeta.variables meta) as [vars |]; [| discriminate].
  rewrite Hfield. rewrite (W_bind_eval _ _ w v w eq_refl). rewrite Hn.
  destruct v; try reflexivity. rewrite Hget. reflexivity.
Qed.
End OwnVariables.

(** X19.  A fragment that passes its conditions and defines a variable
    the accumulator lacks can refer to it in its own declarations: the
    reference resolves to the value the fragment gives, without asking
    the context for the variable; the property is written as a function
    that yields that value. *)
Theorem fragment_reads_its_own_variable `{Platform} `{Cascade}
    (fuel : nat) (name key : string) (v : jsval) (m : StyleMeta.t jsval)
    (flat : Flat) (ctx : nat) (options : FlattenStyleOptions) (w w1 : World)
    (m1 : StyleMeta.t getterOrValue) :
  StyleMeta.variables m = Some [(name, v)] ->
  plain_data v ->
  ordinary_key key ->
  field name (StyleMeta.variables (flat_meta_of flat)) = None ->
  conditions m (flat_meta_of flat) ctx w = Done (true, m1) w1 ->
  exists flat',
    flatten_object (S fuel)
      {| declarations := [(key, JRuntime "var" [JStr name])];
         styleMeta := Some m |} ctx options flat w
    = Done flat' w1 /\
    flatStyle flat'
    = JSObject.assign key (Accessor (Getter (VarGetter v))) (flatStyle flat) /\
    field name (StyleMeta.variables (flat_meta_of flat')) = Some (Value v) /\
    read (2 + fuel) (Getter (VarGetter v)) (flatStyle flat') (flat_meta_of flat')
      ctx options w1
    = Done v w1.
Proof.
  intros Hvars Hv Hkey Hnone Hcond.
  pose proof Hv as (Hr & Hn & Hget).
  assert (Hm1 : StyleMeta.variables m1 = StyleMeta.variables (flat_meta_of flat)).
  { rewrite (conditions_metadata _ _ _ _ _ _ _ Hcond).
    destruct (StyleMeta.pseudoClasses m); reflexivity. }
  set (merged := merge_metadata m m1).
  set (merged' := match StyleMeta.variables merged with
                  | Some _ => merged
                  | None => StyleMeta.with_variables (Some []) merged
                  end).
  set (declared := match StyleMeta.variables merged' with
                   | Some vars => vars
                   | None => []
                   end).
  assert (Hdeclared : JSObject.has name declared = false).
  { unfold declared, merged'.
    assert (Hmv : StyleMeta.variables merged = StyleMeta.variables (flat_meta_of flat))
      by (unfold merged; rewrite merge_metadata_variables; exact Hm1).
    unfold field in Hnone. rewrite <- Hmv in Hnone.
    destruct (StyleMeta.variables merged) as [vars |] eqn:Evars.
    - rewrite Evars. unfold JSObject.has. rewrite Hnone. reflexivity.
    - reflexivity. }
  set (meta' := StyleMeta.with_variables
                  (Some (JSObject.assign name (Value v) declared)) merged').
  assert (Hfield : field name (StyleMeta.variables meta') = Some (Value v)).
  { unfold meta'. simpl. rewrite lookup_assign, String.eqb_refl. reflexivity. }
  set (flatStyle' := JSObject.assign key (Accessor (Getter (VarGetter v)))
                       (flatStyle flat)).
  exists {| flatStyle := flatStyle'; flatStyleMeta := Some meta' |}.
  split; [| split; [| split]].
  - unfold flatten_object. cbn [styleMeta declarations].
    fold (flat_meta_of flat).
    rewrite (W_bind_eval _ _ _ _ _ Hcond). cbn [fst snd negb].
    fold merged. rewrite Hvars. fold merged'.
    assert (Evars : flatten_variables (S fuel) [(name, v)] (flatStyle flat) merged'
                      ctx options w1 = Done meta' w1).
    { cbn [flatten_variables]. fold declared. rewrite Hdeclared.
      rewrite (W_bind_eval _ _ _ _ _
                 (extractValue_plain fuel v (flatStyle flat) merged' ctx options
                    w1 Hr)).
      reflexivity. }
    rewrite (W_bind_eval _ _ _ _ _ Evars).
    assert (Edecl : flatten_declarations (S fuel)
                      [(key, JRuntime "var" [JStr name])] (flatStyle flat) meta'
                      ctx options w1 = Done flatStyle' w1).
    { destruct Hkey as (Ht & Hs & Ho & Hdot).
      apply String.eqb_neq in Ht, Hs, Ho.
      assert (Edef : extractAndDefineProperty (S fuel) key
                       (JRuntime "var" [JStr name]) (flatStyle flat) meta' ctx
                       options w1 = Done flatStyle' w1).
      { unfold extractAndDefineProperty.
        rewrite (W_bind_eval _ _ _ _ _
                   (extractValue_declared fuel name v (flatStyle flat) meta' ctx
                      options w1 Hv Hfield)).
        rewrite (split_on_absent _ _ Hdot). reflexivity. }
      cbn [flatten_declarations]. rewrite Ht, Hs, Ho.
      rewrite (W_bind_eval _ _ _ _ _ Edef). reflexivity. }
    rewrite (W_bind_eval _ _ _ _ _ Edecl). reflexivity.
  - reflexivity.
  - exact Hfield.
  - unfold read. change (2 + fuel) with (S (S fuel)). rewrite invoke_S.
    rewrite (W_bind_eval _ _ _ _ _
               (extractValue_plain fuel v _ _ ctx options w1 Hr)).
    reflexivity.
Qed.

(** The theorem on a fragment that sets [--gap] and uses it for its
    margin. *)
Lemma fragment_reads_its_own_variable_witness :
  exists flat',
    flatten_object (H := example_platform) (H0 := example_cascade) 1
      {| declarations := [("margin", JRuntime "var" [JStr "--gap"])];
         styleMeta := Some gap_is_8 |} 0 no_options empty_flat one_context
    = Done flat' one_context /\
    flatStyle flat' = [("margin", Accessor (Getter (VarGetter (JNum 8))))] /\
    read (H := example_platform) 2 (Getter (VarGetter (JNum 8)))
      (flatStyle flat') (flat_meta_of flat') 0 no_options one_context
    = Done (JNum 8) one_context.
Proof.
  destruct (fragment_reads_its_own_variable (H := example_platform)
              (H0 := example_cascade) 0 "--gap" "margin" (JNum 8) gap_is_8
              empty_flat 0 no_options one_context one_context
              (StyleMeta.inline true))
    as (flat' & E & Hstyle & _ & Hread).
  - reflexivity.
  - repeat split.
  - repeat split; discriminate.
  - reflexivity.
  - vm_compute. reflexivity.
  - exists flat'. split; [exact E |]. split; [exact Hstyle | exact Hread].
Defined.

(** ** The normalised options of a component *)

Section SetsOfStrings.

Lemma elements_add (x : string) (s : JSSet.t string) :
  JSSet.elements (JSSet.add String.eqb x s)
  = if JSSet.has String.eqb x s then JSSet.elements s
    else (JSSet.elements s ++ [x])%list.
Proof.
  unfold JSSet.add. destruct (JSSet.has String.eqb x s); [reflexivity |].
  unfold JSSet.elements. rewrite flat_map_app. reflexivity.
Qed.

Lemma has_elements (x : string) (s : JSSet.t string) :
  JSSet.has String.eqb x s = true <-> In x (JSSet.elements s).
Proof.
  rewrite (has_In String.eqb String.eqb_eq). symmetry. apply In_elements.
Qed.

Lemma In_elements_add (x y : string) (s : JSSet.t string) :
  In y (JSSet.elements (JSSet.add String.eqb x s))
  <-> y = x \/ In y (JSSet.elements s).
Proof.
  rewrite !In_elements. apply (In_add String.eqb String.eqb_eq).
Qed.

Lemma NoDup_elements_add (x : string) (s : JSSet.t string) :
  NoDup (JSSet.elements s) -> NoDup (JSSet.elements (JSSet.add String.eqb x s)).
Proof.
  intros Hnd. rewrite elements_add.
  destruct (JSSet.has String.eqb x s) eqn:E; [assumption |].
  apply NoDup_app; [assumption | repeat constructor; intros [] |].
  intros y Hy [<- | []]. apply has_elements in Hy. congruence.
Qed.
End SetsOfStrings.

Section Normalize.

Lemma entries_app (before after : PropMapping.EnableCssInteropOptions) :
  forall c,
    PropMapping.entries (before ++ after)%list c
    = match PropMapping.entries before c with
      | Some c1 => PropMapping.entries after c1
      | None => None
      end.
Proof.
  induction before as [| [key options] before IH]; intros c; simpl; auto.
  destruct (PropMapping.resolve key options); auto.
Qed.

Lemma entries_raise (mapping : PropMapping.EnableCssInteropOptions) :
  forall c,
    PropMapping.entries mapping c = None
    <-> Exists (fun entry =>
                  exists n, snd entry
                            = PropMapping.ConfigObject PropMapping.TargetOther n)
               mapping.
Proof.
  induction mapping as [| [key options] mapping IH]; intros c; simpl.
  - split; [discriminate | intros E; inversion E].
  - assert (Hhere : PropMapping.resolve key options = PropMapping.Raised
                    <-> exists n, options
                          = PropMapping.ConfigObject PropMapping.TargetOther n).
    { split.
      - destruct options as [| [|] | [| a s] | [b | s |] n]; simpl;
          try discriminate. intros _. exists n. reflexivity.
      - intros (n & ->). reflexivity. }
    rewrite Exists_cons. simpl.
    destruct (PropMapping.resolve key options) eqn:E.
    + rewrite IH. split; [auto |]. intros [Hx | Hx]; auto.
      apply Hhere in Hx. discriminate.
    + split; [| reflexivity]. intros _. left. apply Hhere. reflexivity.
    + rewrite IH. split; [auto |]. intros [Hx | Hx]; auto.
      apply Hhere in Hx. discriminate.
Qed.

Lemma entries_sources (mapping : PropMapping.EnableCssInteropOptions) :
  forall c c',
    PropMapping.entries mapping c = Some c' ->
    NoDup (map fst mapping) ->
    (forall k, In k (map fst mapping) ->
               ~ In k (JSSet.elements (PropMapping.the_sources c))) ->
    JSSet.elements (PropMapping.the_sources c')
    = (JSSet.elements (PropMapping.the_sources c)
       ++ map fst (filter PropMapping.enabled mapping))%list.
Proof.
  induction mapping as [| [key options] mapping IH]; intros c c' E Hnd Hnew;
    simpl in E.
  - inversion E. subst. simpl. rewrite app_nil_r. reflexivity.
  - inversion Hnd as [| ? ? Hkey Hnd']; subst.
    cbn [filter]. unfold PropMapping.enabled at 1, PropMapping.target_of.
    cbn [fst snd].
    destruct (PropMapping.resolve key options) as [| | target n] eqn:Er;
      try discriminate.
    + apply (IH _ _ E Hnd'). intros k Hk. apply Hnew. right. exact Hk.
    + rewrite (IH _ _ E Hnd').
      * cbn [PropMapping.collect PropMapping.the_sources].
        rewrite elements_add.
        destruct (JSSet.has String.eqb key (PropMapping.the_sources c)) eqn:Eh.
        { apply has_elements in Eh. exfalso. apply (Hnew key); [left |]; auto. }
        cbn [map fst]. rewrite <- app_assoc. reflexivity.
      * intros k Hk. cbn [PropMapping.collect PropMapping.the_sources].
        rewrite In_elements_add. intros [-> | Hin]; [auto |].
        apply (Hnew k); [right |]; auto.
Qed.

Lemma entries_dependencies (mapping : PropMapping.EnableCssInteropOptions) :
  forall c c',
    PropMapping.entries mapping c = Some c' ->
    (NoDup (JSSet.elements (PropMapping.the_dependencies c)) ->
     NoDup (JSSet.elements (PropMapping.the_dependencies c'))) /\
    (forall d,
        In d (JSSet.elements (PropMapping.the_dependencies c'))
        <-> In d (JSSet.elements (PropMapping.the_dependencies c)) \/
            exists entry target,
              In entry mapping /\
              PropMapping.target_of entry = Some target /\
              (d = fst entry \/ d = target)).
Proof.
  induction mapping as [| [key options] mapping IH]; intros c c' E; simpl in E.
  - inversion E. subst. split; auto. intros d. split; auto.
    intros [Hd | (entry & target & [] & _)]. exact Hd.
  - assert (Hskip : PropMapping.target_of (key, options) = None ->
              forall d,
                (exists entry target,
                    In entry ((key, options) :: mapping) /\
                    PropMapping.target_of entry = Some target /\
                    (d = fst entry \/ d = target))
                <-> (exists entry target,
                        In entry mapping /\
                        PropMapping.target_of entry = Some target /\
                        (d = fst entry \/ d = target))).
    { intros Hnone d. split.
      - intros (entry & target & [<- | Hin] & Ht & Hd); [congruence |].
        exists entry, target. auto.
      - intros (entry & target & Hin & Ht & Hd). exists entry, target.
        split; [right |]; auto. }
    destruct (PropMapping.resolve key options) as [| | target n] eqn:Er;
      try discriminate.
    + destruct (IH _ _ E) as [Hnd Hin]. split; [exact Hnd |]. intros d.
      rewrite Hin, Hskip; [reflexivity |].
      unfold PropMapping.target_of. simpl. rewrite Er. reflexivity.
    + destruct (IH _ _ E) as [Hnd Hin]. split.
      * intros Hc. apply Hnd.
        cbn [PropMapping.collect PropMapping.the_dependencies].
        apply NoDup_elements_add, NoDup_elements_add, Hc.
      * intros d. rewrite Hin.
        cbn [PropMapping.collect PropMapping.the_dependencies].
        rewrite !In_elements_add.
        assert (Ht : PropMapping.target_of (key, options) = Some target)
          by (unfold PropMapping.target_of; simpl; rewrite Er; reflexivity).
        split.
        { intros [[-> | [-> | Hd]] | (entry & t & Hi & Hte & Hd)]; auto.
          - right. exists (key, options), target. simpl. auto.
          - right. exists (key, options), target. simpl. auto.
          - right. exists entry, t. simpl. auto. }
        { intros [Hd | (entry & t & [<- | Hi] & Hte & Hd)]; auto.
          - rewrite Ht in Hte. inversion Hte. subst t. simpl in Hd.
            destruct Hd as [-> | ->]; auto.
          - right. exists entry, t. auto. }
Qed.

Lemma sources_under_collect (target' key target : string)
    (n : option PropMapping.NativeStyleToProp) (c : PropMapping.Collected) :
  PropMapping.sources_under target'
    (PropMapping.the_config (PropMapping.collect key target n c))
  = if String.eqb target' target
    then (PropMapping.sources_under target (PropMapping.the_config c)
          ++ [key])%list
    else PropMapping.sources_under target' (PropMapping.the_config c).
Proof.
  unfold PropMapping.sources_under, PropMapping.collect.
  cbn [PropMapping.the_config]. rewrite lookup_assign.
  destruct (String.eqb target' target) eqn:E.
  - destruct n, (JSObject.lookup target (PropMapping.the_config c));
      reflexivity.
  - destruct (Nat.eqb _ 0); [| reflexivity].
    rewrite lookup_assign, E. reflexivity.
Qed.

Lemma has_collect (target' key target : string)
    (n : option PropMapping.NativeStyleToProp) (c : PropMapping.Collected) :
  JSObject.has target'
    (PropMapping.the_config (PropMapping.collect key target n c))
  = String.eqb target' target
    || JSObject.has target' (PropMapping.the_config c).
Proof.
  unfold JSObject.has, PropMapping.collect.
  cbn [PropMapping.the_config]. rewrite lookup_assign.
  destruct (String.eqb target' target) eqn:E; [reflexivity |]. cbn [orb].
  destruct (Nat.eqb _ 0); [| reflexivity].
  rewrite lookup_assign, E. reflexivity.
Qed.

Lemma keys_of_cons (target : string)
    (entry : string * PropMapping.CSSInteropClassNamePropConfig)
    (mapping : PropMapping.EnableCssInteropOptions) :
  PropMapping.keys_of target (entry :: mapping)
  = ((match PropMapping.target_of entry with
      | Some t => if String.eqb t target then [fst entry] else []
      | None => []
      end) ++ PropMapping.keys_of target mapping)%list.
Proof.
  unfold PropMapping.keys_of. cbn [filter].
  destruct (PropMapping.target_of entry) as [t |]; [| reflexivity].
  destruct (String.eqb t target); reflexivity.
Qed.

Lemma entries_config (mapping : PropMapping.EnableCssInteropOptions) :
  forall c c',
    PropMapping.entries mapping c = Some c' ->
    forall target,
      PropMapping.sources_under target (PropMapping.the_config c')
      = (PropMapping.sources_under target (PropMapping.the_config c)
         ++ PropMapping.keys_of target mapping)%list /\
      JSObject.has target (PropMapping.the_config c')
      = JSObject.has target (PropMapping.the_config c)
        || negb (Nat.eqb (List.length (PropMapping.keys_of target mapping)) 0).
Proof.
  induction mapping as [| [key options] mapping IH]; intros c c' E target;
    simpl in E.
  - inversion E. subst. unfold PropMapping.keys_of. simpl.
    rewrite app_nil_r, orb_false_r. auto.
  - rewrite keys_of_cons. unfold PropMapping.target_of. cbn [fst snd].
    destruct (PropMapping.resolve key options) as [| | t n] eqn:Er;
      try discriminate.
    + apply (IH _ _ E).
    + destruct (IH _ _ E target) as [Hs Hh]. rewrite Hs, Hh.
      rewrite sources_under_collect, has_collect.
      rewrite (String.eqb_sym t target).
      destruct (String.eqb target t) eqn:Et.
      * apply String.eqb_eq in Et. subst t. rewrite <- app_assoc. simpl.
        rewrite orb_true_r. auto.
      * simpl. auto.
Qed.

Lemma native_under_collect (target' style key target : string)
    (n : option PropMapping.NativeStyleToProp) (c : PropMapping.Collected) :
  match n with Some m => NoDup (map fst m) | None => True end ->
  PropMapping.native_under target' style
    (PropMapping.the_config (PropMapping.collect key target n c))
  = if String.eqb target' target
    then match n with
         | Some m =>
             match JSObject.lookup style m with
             | Some x => Some x
             | None => PropMapping.native_under target style
                         (PropMapping.the_config c)
             end
         | None => PropMapping.native_under target style
                     (PropMapping.the_config c)
         end
    else PropMapping.native_under target' style (PropMapping.the_config c).
Proof.
  intros Hn. unfold PropMapping.native_under, PropMapping.collect.
  cbn [PropMapping.the_config]. rewrite lookup_assign.
  destruct (String.eqb target' target) eqn:E.
  - destruct n as [m |].
    + cbn [PropMapping.config_nativeStyleToProp]. rewrite lookup_spread by exact Hn.
      destruct (JSObject.lookup style m); [reflexivity |].
      destruct (JSObject.lookup target (PropMapping.the_config c)) as [e |];
        [| reflexivity].
      destruct (PropMapping.config_nativeStyleToProp e); reflexivity.
    + cbn [PropMapping.config_nativeStyleToProp].
      destruct (JSObject.lookup target (PropMapping.the_config c)); reflexivity.
  - destruct (Nat.eqb _ 0); [| reflexivity].
    rewrite lookup_assign, E. reflexivity.
Qed.

Lemma entries_native (target style : string)
    (mapping : PropMapping.EnableCssInteropOptions) :
  forall c c',
    PropMapping.entries mapping c = Some c' ->
    PropMapping.distinct_styles mapping ->
    (forall entry m,
        In entry mapping ->
        PropMapping.target_of entry = Some target ->
        PropMapping.native_of entry = Some m ->
        JSObject.lookup style m = None) ->
    PropMapping.native_under target style (PropMapping.the_config c')
    = PropMapping.native_under target style (PropMapping.the_config c).
Proof.
  induction mapping as [| [key options] mapping IH]; intros c c' E Hd Hnone;
    simpl in E.
  - inversion E. reflexivity.
  - inversion Hd as [| ? ? Hhere Hd']; subst.
    assert (Hnone' : forall entry m,
               In entry mapping ->
               PropMapping.target_of entry = Some target ->
               PropMapping.native_of entry = Some m ->
               JSObject.lookup style m = None).
    { intros entry m Hin. apply Hnone. right. exact Hin. }
    specialize (Hnone (key, options)).
    unfold PropMapping.target_of, PropMapping.native_of in Hnone, Hhere.
    cbn [fst snd] in Hnone, Hhere.
    destruct (PropMapping.resolve key options) as [| | t n] eqn:Er;
      try discriminate.
    + apply (IH _ _ E Hd' Hnone').
    + rewrite (IH _ _ E Hd' Hnone').
      rewrite native_under_collect by exact Hhere.
      destruct (String.eqb target t) eqn:Et; [| reflexivity].
      apply String.eqb_eq in Et. subst t.
      destruct n as [m |]; [| reflexivity].
      rewrite (Hnone m (or_introl eq_refl) eq_refl eq_refl). reflexivity.
Qed.
End Normalize.

(** X20.  [getNormalizeConfig] raises exactly when some option of the
    mapping is an object whose [target] is neither a boolean nor a
    string; options that are [undefined], [false] or the empty string
    are passed over and never make it raise. *)
Theorem getNormalizeConfig_raises_on_an_unknown_target
    (mapping : PropMapping.EnableCssInteropOptions) :
  PropMapping.getNormalizeConfig mapping = None
  <-> Exists (fun entry =>
                exists n, snd entry
                          = PropMapping.ConfigObject PropMapping.TargetOther n)
             mapping.
Proof.
  rewrite <- (entries_raise mapping
                {| PropMapping.the_config := [];
                   PropMapping.the_dependencies := [];
                   PropMapping.the_sources := [] |}).
  unfold PropMapping.getNormalizeConfig.
  destruct (PropMapping.entries mapping _); split; intros E;
    try discriminate; reflexivity.
Qed.

(** The theorem on a mapping whose one option has no target. *)
Lemma getNormalizeConfig_raises_on_an_unknown_target_witness :
  PropMapping.getNormalizeConfig
    [("className", PropMapping.ConfigBoolean false);
     ("textClassName",
      PropMapping.ConfigObject PropMapping.TargetOther None)]
  = None /\
  PropMapping.getNormalizeConfig PropMapping.TextInput <> None.
Proof.
  split.
  - apply (proj2 (getNormalizeConfig_raises_on_an_unknown_target
                    [("className", PropMapping.ConfigBoolean false);
                     ("textClassName",
                      PropMapping.ConfigObject PropMapping.TargetOther None)])).
    right. left. exists None. reflexivity.
  - discriminate.
Defined.

(** X21.  The [sources] of the normalised options are the keys of the
    options that are switched on, in the order of the mapping; the
    [dependencies] list every such key and its target, each once. *)
Theorem sources_are_the_keys_switched_on
    (mapping : PropMapping.EnableCssInteropOptions)
    (r : PropMapping.NormalizedOptions) :
  NoDup (map fst mapping) ->
  PropMapping.getNormalizeConfig mapping = Some r ->
  PropMapping.sources r = map fst (filter PropMapping.enabled mapping) /\
  NoDup (PropMapping.dependencies r) /\
  (forall d,
      In d (PropMapping.dependencies r)
      <-> exists entry target,
            In entry mapping /\
            PropMapping.target_of entry = Some target /\
            (d = fst entry \/ d = target)).
Proof.
  intros Hnd E. unfold PropMapping.getNormalizeConfig in E.
  destruct (PropMapping.entries mapping _) as [c' |] eqn:Ec; [| discriminate].
  inversion E. subst r. cbn [PropMapping.sources PropMapping.dependencies].
  split; [| split].
  - rewrite (entries_sources _ _ _ Ec Hnd); [reflexivity |].
    intros k _ [].
  - apply (proj1 (entries_dependencies _ _ _ Ec)). constructor.
  - intros d. rewrite (proj2 (entries_dependencies _ _ _ Ec) d). simpl.
    split; [intros [[] | Hd]; exact Hd | auto].
Qed.

(** The theorem on the mapping of [TextInput]. *)
Lemma sources_are_the_keys_switched_on_witness :
  exists r,
    PropMapping.getNormalizeConfig PropMapping.TextInput = Some r /\
    PropMapping.sources r
    = ["className"; "placeholderClassName"; "selectionClassName"] /\
    NoDup (PropMapping.dependencies r).
Proof.
  eexists. split; [reflexivity |].
  refine ((fun H => conj (proj1 H) (proj1 (proj2 H)))
            (sources_are_the_keys_switched_on PropMapping.TextInput _ _ eq_refl)).
  repeat constructor; simpl; intuition discriminate.
Defined.

(** X22.  The map [config] groups the keys by target: under a target it
    lists the keys switched on for it, in the order of the mapping, and
    it has an entry for a target exactly when some key is switched on
    for it.  An option [true], or an object with a boolean [target],
    has its own key as target. *)
Theorem config_groups_the_keys_by_target
    (mapping : PropMapping.EnableCssInteropOptions)
    (r : PropMapping.NormalizedOptions) (target : string) :
  PropMapping.getNormalizeConfig mapping = Some r ->
  PropMapping.sources_under target (PropMapping.config r)
  = PropMapping.keys_of target mapping /\
  (JSObject.has target (PropMapping.config r) = true
   <-> PropMapping.keys_of target mapping <> []).
Proof.
  intros E. unfold PropMapping.getNormalizeConfig in E.
  destruct (PropMapping.entries mapping _) as [c' |] eqn:Ec; [| discriminate].
  inversion E. subst r. cbn [PropMapping.config].
  destruct (entries_config _ _ _ Ec target) as [Hs Hh]. split.
  - rewrite Hs. reflexivity.
  - rewrite Hh. simpl.
    destruct (PropMapping.keys_of target mapping); simpl;
      split; intros; congruence.
Qed.

(** The theorem on the mapping with two class names for [style]. *)
Lemma config_groups_the_keys_by_target_witness :
  exists r,
    PropMapping.getNormalizeConfig PropMapping.two_for_style = Some r /\
    PropMapping.sources_under "style" (PropMapping.config r)
    = ["className"; "textClassName"].
Proof.
  eexists. split; [reflexivity |].
  exact (proj1 (config_groups_the_keys_by_target PropMapping.two_for_style _
                  "style" eq_refl)).
Defined.

(** X23.  When several keys have the same target, their
    [nativeStyleToProp] objects are merged and a later key wins: the prop
    the merged object gives for a style is the one of the last key of
    that target that names the style. *)
Theorem later_nativeStyleToProp_wins
    (mapping before after : PropMapping.EnableCssInteropOptions)
    (entry : string * PropMapping.CSSInteropClassNamePropConfig)
    (r : PropMapping.NormalizedOptions) (target style : string)
    (n : PropMapping.NativeStyleToProp) (x : PropMapping.NativeProp) :
  PropMapping.getNormalizeConfig mapping = Some r ->
  PropMapping.distinct_styles mapping ->
  mapping = (before ++ entry :: after)%list ->
  PropMapping.target_of entry = Some target ->
  PropMapping.native_of entry = Some n ->
  JSObject.lookup style n = Some x ->
  (forall later m,
      In later after ->
      PropMapping.target_of later = Some target ->
      PropMapping.native_of later = Some m ->
      JSObject.lookup style m = None) ->
  PropMapping.native_under target style (PropMapping.config r) = Some x.
Proof.
  intros E Hd -> Ht Hn Hx Hafter. unfold PropMapping.getNormalizeConfig in E.
  destruct (PropMapping.entries _ _) as [c' |] eqn:Ec; [| discriminate].
  inversion E. subst r. cbn [PropMapping.config].
  rewrite entries_app in Ec.
  destruct (PropMapping.entries before _) as [c1 |]; [| discriminate].
  apply Forall_app in Hd. destruct Hd as [_ Hd].
  inversion Hd as [| ? ? Hhere Hd']; subst.
  destruct entry as [key options]. simpl in Ec.
  unfold PropMapping.target_of, PropMapping.native_of in Ht, Hn, Hhere.
  cbn [fst snd] in Ht, Hn, Hhere.
  destruct (PropMapping.resolve key options) as [| | t n'] eqn:Er;
    try discriminate.
  inversion Ht. subst t. subst n'.
  rewrite (entries_native target style after _ _ Ec Hd' Hafter).
  rewrite native_under_collect by exact Hhere.
  rewrite String.eqb_refl, Hx. reflexivity.
Qed.

(** The theorem on the mapping with two class names for [style]. *)
Lemma later_nativeStyleToProp_wins_witness :
  exists r,
    PropMapping.getNormalizeConfig PropMapping.two_for_style = Some r /\
    PropMapping.native_under "style" "color" (PropMapping.config r)
    = Some (PropMapping.PropName "tint").
Proof.
  eexists. split; [reflexivity |].
  apply (later_nativeStyleToProp_wins PropMapping.two_for_style
           [("className",
             PropMapping.ConfigObject (PropMapping.TargetString "style")
               (Some [("color", PropMapping.PropTrue)]));
            ("contentContainerClassName",
             PropMapping.ConfigString "contentContainerStyle");
            ("indicatorClassName", PropMapping.ConfigBoolean false)]
           []
           ("textClassName",
            PropMapping.ConfigObject (PropMapping.TargetString "style")
              (Some [("color", PropMapping.PropName "tint")]))
           _ "style" "color" [("color", PropMapping.PropName "tint")]
           (PropMapping.PropName "tint") eq_refl).
  - repeat constructor; simpl; intuition discriminate.
  - reflexivity.
  - reflexivity.
  - reflexivity.
  - reflexivity.
  - intros later m [].
Defined.

(** ** Rounding *)

Lemma Qfloor_near (k : Z) (e : Q) :
  (0 <= e)%Q -> (e < 1)%Q -> Qfloor (inject_Z k + e) = k.
Proof.
  intros H0 H1.
  assert (Hlo : (k <= Qfloor (inject_Z k + e))%Z).
  { rewrite <- (Qfloor_Z k) at 1. apply Qfloor_resp_le.
    generalize (inject_Z k). intros x. lra. }
  assert (Hhi : (Qfloor (inject_Z k + e) < k + 1)%Z).
  { rewrite Zlt_Qlt. apply Qle_lt_trans with (inject_Z k + e)%Q.
    - apply Qfloor_le.
    - rewrite inject_Z_plus. change (inject_Z 1) with (1 # 1)%Q.
      generalize (inject_Z k). intros x. lra. }
  lia.
Qed.


(** ** Inline variables *)

Section Vars.

Lemma keys_assign {A : Type} (key : string) (v : A) (o : JSObject.t A) :
  forall k, In k (map fst (JSObject.assign key v o))
            <-> k = key \/ In k (map fst o).
Proof.
  induction o as [| [k' w] o IH]; intros k; simpl.
  - intuition.
  - destruct (String.eqb key k') eqn:E; simpl.
    + apply String.eqb_eq in E. subst k'. intuition.
    + rewrite IH. intuition.
Qed.

Lemma NoDup_assign {A : Type} (key : string) (v : A) (o : JSObject.t A) :
  NoDup (map fst o) -> NoDup (map fst (JSObject.assign key v o)).
Proof.
  induction o as [| [k' w] o IH]; simpl; intros Hnd.
  - repeat constructor. intros [].
  - inversion Hnd as [| ? ? Hnin Hnd']; subst.
    destruct (String.eqb key k') eqn:E; simpl.
    + constructor; assumption.
    + constructor; [| auto]. rewrite keys_assign. intros [-> | Hin]; auto.
      rewrite String.eqb_refl in E. discriminate.
Qed.

Lemma prefix_variable_name (key : string) :
  String.prefix "--" (variable_name key) = true.
Proof.
  unfold variable_name. destruct (String.prefix "--" key) eqn:E; [exact E |].
  simpl. destruct key; reflexivity.
Qed.

Lemma vars_fold (variables : JSObject.t jsval) :
  forall o,
    let o' := fold_left
                (fun o kv => JSObject.assign (variable_name (fst kv)) (snd kv) o)
                variables o in
    (NoDup (map fst o) -> NoDup (map fst o')) /\
    (forall k, In k (map fst o')
               <-> In k (map fst o) \/ In k (map variable_name (map fst variables))) /\
    (forall k, ~ In k (map variable_name (map fst variables)) ->
               JSObject.lookup k o' = JSObject.lookup k o).
Proof.
  induction variables as [| [key v] variables IH]; intros o; simpl.
  - split; [auto |]. split; [intuition | auto].
  - destruct (IH (JSObject.assign (variable_name key) v o)) as (Hnd & Hin & Hl).
    split; [| split].
    + intros Ho. apply Hnd, NoDup_assign, Ho.
    + intros k. rewrite Hin, keys_assign. intuition.
    + intros k Hk. rewrite Hl by (intros Hx; apply Hk; right; exact Hx).
      rewrite lookup_assign.
      destruct (String.eqb k (variable_name key)) eqn:E; [| reflexivity].
      apply String.eqb_eq in E. exfalso. apply Hk. left. symmetry. exact E.
Qed.
End Vars.

(** X25.  Every variable of the style [vars] makes has a name that
    starts with two dashes: a key without them is given them, a key
    with them is kept, and each name is there once.  When two keys give
    the same name the later value is the one held. *)
Theorem vars_names_start_with_two_dashes (variables : JSObject.t jsval) :
  Forall (fun kv => String.prefix "--" (fst kv) = true)
         (variables_of (vars variables)) /\
  NoDup (map fst (variables_of (vars variables))) /\
  (forall key, In key (map fst variables) ->
     if String.prefix "--" key
     then JSObject.has key (variables_of (vars variables)) = true
     else JSObject.has ("--" ++ key) (variables_of (vars variables)) = true) /\
  (forall before key v after,
      variables = (before ++ (key, v) :: after)%list ->
      ~ In (variable_name key) (map variable_name (map fst after)) ->
      JSObject.lookup (variable_name key) (variables_of (vars variables))
      = Some v).
Proof.
  change (variables_of (vars variables)) with (vars_variables variables).
  unfold vars_variables.
  destruct (vars_fold variables []) as (Hnd & Hin & _).
  split; [| split; [| split]].
  - apply Forall_forall. intros [k v] Hk.
    assert (Hk' : In k (map fst (fold_left
                     (fun o kv => JSObject.assign (variable_name (fst kv)) (snd kv) o)
                     variables [])))
      by (apply in_map_iff; exists (k, v); auto).
    apply Hin in Hk'. destruct Hk' as [[] | Hk'].
    apply in_map_iff in Hk'. destruct Hk' as (key & <- & _).
    apply prefix_variable_name.
  - apply Hnd. constructor.
  - intros key Hkey.
    assert (Hname : In (variable_name key)
                      (map fst (fold_left
                         (fun o kv => JSObject.assign (variable_name (fst kv)) (snd kv) o)
                         variables []))).
    { apply Hin. right. apply in_map. exact Hkey. }
    assert (Hhas : forall k (o : JSObject.t jsval),
               In k (map fst o) -> JSObject.has k o = true).
    { intros k o Hk. unfold JSObject.has.
      destruct (JSObject.lookup k o) eqn:E; [reflexivity |].
      exfalso. revert Hk E. clear. induction o as [| [k' w] o IHo]; simpl.
      - intros [].
      - destruct (String.eqb k k') eqn:Ek; [discriminate |].
        intros [<- | Hk]; [rewrite String.eqb_refl in Ek; discriminate | auto]. }
    unfold variable_name in Hname.
    destruct (String.prefix "--" key); apply Hhas; exact Hname.
  - intros before key v after -> Hafter.
    rewrite fold_left_app. cbn [fold_left fst snd].
    destruct (vars_fold after
                (JSObject.assign (variable_name key) v
                   (fold_left
                      (fun o kv => JSObject.assign (variable_name (fst kv)) (snd kv) o)
                      before []))) as (_ & _ & Hl).
    rewrite (Hl _ Hafter). rewrite lookup_assign, String.eqb_refl. reflexivity.
Qed.

(** The theorem on [vars({ gap: 8, "--gap": 9 })]. *)
Lemma vars_names_start_with_two_dashes_witness :
  variables_of (vars [("gap", JNum 8); ("--gap", JNum 9)])
  = [("--gap", JNum 9)] /\
  JSObject.lookup (variable_name "--gap")
    (variables_of (vars [("gap", JNum 8); ("--gap", JNum 9)]))
  = Some (JNum 9).
Proof.
  split; [reflexivity |].
  apply (proj2 (proj2 (proj2 (vars_names_start_with_two_dashes
                                [("gap", JNum 8); ("--gap", JNum 9)])))
           [("gap", JNum 8)] "--gap" (JNum 9) [] eq_refl).
  intros [].
Defined.
